(** * Ranked: a shallow embedding of [Ranked/Election.py]

    The [Election] class simulates a single-winner ranked-choice election.
    Python dictionaries are insertion ordered, and the order is observable
    (stable sort of the candidates, order of the flow-graph nodes), so the
    candidate mapping is an association list with distinct keys.  Exceptions
    are values of a result type.  Calls to the [random] module read a number
    from an explicit stream of random integers. *)

From Stdlib Require Import String ZArith Lia Bool Arith List Permutation ListSet.
From Stdlib Require Import Sorting.Sorted.
Import ListNotations.

Local Open Scope string_scope.
Local Open Scope list_scope.
Local Open Scope nat_scope.

(** ** Exceptions and results *)

Inductive exn : Type :=
| IndexError
| KeyError
| ValueError
| ZeroDivisionError.

(** The name of the Python class of an exception. *)
Definition exn_name (e : exn) : string :=
  match e with
  | IndexError => "IndexError"
  | KeyError => "KeyError"
  | ValueError => "ValueError"
  | ZeroDivisionError => "ZeroDivisionError"
  end.

Inductive result (A : Type) : Type :=
| Ok : A -> result A
| Raise : exn -> result A.

Arguments Ok {A} _.
Arguments Raise {A} _.

Definition bind {A B : Type} (m : result A) (k : A -> result B) : result B :=
  match m with
  | Ok a => k a
  | Raise e => Raise e
  end.

Notation "x <- m ;; k" := (bind m (fun x => k))
  (at level 61, m at next level, right associativity).

(** ** Data *)

Definition candidate : Type := string.

(** A ballot is a dictionary with the keys ["weight"] and ["ranking"]. *)
Record Ballot : Type := mkBallot {
  weight : Z;
  ranking : list candidate
}.

(** A node of the Sankey diagram: the key ["value"] is present only on
    some nodes, and dictionary equality distinguishes the two shapes. *)
Record Node : Type := mkNode {
  name : candidate;
  layer : nat;
  value : option nat
}.

Record Link : Type := mkLink {
  source : nat;
  target : nat;
  votes : nat
}.

(** ** Insertion-ordered dictionaries *)

Module Dict.

Section Ops.
Variable V : Type.

Definition t : Type := list (candidate * V).

Definition keys (d : t) : list candidate := map fst d.

Fixpoint get (k : candidate) (d : t) : option V :=
  match d with
  | [] => None
  | (k', v) :: d' => if String.eqb k k' then Some v else get k d'
  end.

Definition mem (k : candidate) (d : t) : bool :=
  match get k d with Some _ => true | None => false end.

(** [d[k] = v]: an existing key keeps its position. *)
Fixpoint set (k : candidate) (v : V) (d : t) : t :=
  match d with
  | [] => [(k, v)]
  | (k', v') :: d' =>
      if String.eqb k k' then (k', v) :: d' else (k', v') :: set k v d'
  end.

(** [del d[k]] (the callers only delete keys that are present). *)
Fixpoint del (k : candidate) (d : t) : t :=
  match d with
  | [] => []
  | (k', v') :: d' =>
      if String.eqb k k' then d' else (k', v') :: del k d'
  end.

(** Replace the value of key [k] by [f] of it, in place. *)
Fixpoint update (k : candidate) (f : V -> V) (d : t) : t :=
  match d with
  | [] => []
  | (k', v') :: d' =>
      if String.eqb k k' then (k', f v') :: d' else (k', v') :: update k f d'
  end.
End Ops.

Arguments keys {V} d.
Arguments get {V} k d.
Arguments mem {V} k d.
Arguments set {V} k v d.
Arguments del {V} k d.
Arguments update {V} k f d.

End Dict.

(** ** The state of an [Election] object *)

Record Election : Type := mkElection {
  ballots : list Ballot;
  candidates : Dict.t (list Ballot);
  winner : option candidate;
  eliminated : set candidate;
  number_of_candidates : nat;
  nodes : list Node;
  links : list Link
}.

(** [Election(ballots, candidates)]: the dictionary comprehension
    [{ candidate: [] for candidate in candidates }]. *)
Definition Election_init (bs : list Ballot) (cs : list candidate) : Election :=
  {| ballots := bs;
     candidates := fold_left (fun d c => Dict.set c [] d) cs [];
     winner := None;
     eliminated := empty_set candidate;
     number_of_candidates := 0;
     nodes := [];
     links := [] |}.

Definition add_ballot (b : Ballot) (e : Election) : Election :=
  {| ballots := ballots e ++ [b];
     candidates := candidates e;
     winner := winner e;
     eliminated := eliminated e;
     number_of_candidates := number_of_candidates e;
     nodes := nodes e;
     links := links e |}.

(** [len(self.candidates[c])], as used where [c] is a key. *)
Definition tally (d : Dict.t (list Ballot)) (c : candidate) : nat :=
  match Dict.get c d with
  | Some l => length l
  | None => 0
  end.

(** ** [assign_ballots] *)

Definition assign_one (d : Dict.t (list Ballot)) (b : Ballot)
  : result (Dict.t (list Ballot)) :=
  match ranking b with
  | [] => Raise IndexError
  | first_choice :: _ =>
      if Dict.mem first_choice d
      then Ok (Dict.update first_choice (fun l => l ++ [b]) d)
      else Raise KeyError
  end.

Fixpoint assign_loop (bs : list Ballot) (d : Dict.t (list Ballot))
  : result (Dict.t (list Ballot)) :=
  match bs with
  | [] => Ok d
  | b :: bs' => d' <- assign_one d b ;; assign_loop bs' d'
  end.

Definition assign_ballots (e : Election) : result Election :=
  d <- assign_loop (ballots e) (candidates e) ;;
  Ok {| ballots := ballots e;
        candidates := d;
        winner := winner e;
        eliminated := eliminated e;
        number_of_candidates := length (candidates e);
        nodes := nodes e;
        links := links e |}.

(** ** [sort_candidates]

    [sorted] is a stable sort; the key is [-len(self.candidates[g])]. *)

Definition sort_key (d : Dict.t (list Ballot)) (g : candidate) : Z :=
  (- Z.of_nat (tally d g))%Z.

Fixpoint insert_by (key : candidate -> Z) (x : candidate) (l : list candidate)
  : list candidate :=
  match l with
  | [] => [x]
  | y :: l' =>
      if (key x <=? key y)%Z then x :: y :: l' else y :: insert_by key x l'
  end.

Definition sorted (key : candidate -> Z) (l : list candidate) : list candidate :=
  fold_right (insert_by key) [] l.

Definition sort_candidates (e : Election) : list candidate :=
  sorted (sort_key (candidates e)) (Dict.keys (candidates e)).

(** ** [resolve_tie_random] *)

Definition mem_str (c : candidate) (l : list candidate) : bool :=
  existsb (String.eqb c) l.

(** The list [tied_candidates] once the loop has ended. *)
Definition tied_candidates (e : Election) : result (list candidate) :=
  let reverse_ranked_candidates := rev (sort_candidates e) in
  match reverse_ranked_candidates with
  | [] => Raise IndexError
  | first :: _ =>
      let tally0 := tally (candidates e) first in
      Ok (fold_left
            (fun tied c =>
               if (tally (candidates e) c =? tally0) && negb (mem_str c tied)
               then tied ++ [c] else tied)
            reverse_ranked_candidates [first])
  end.

(** [random.choice(seq)] is [seq[randbelow(len(seq))]]; the random integer
    [r] is reduced to the range of the indices. *)
Definition random_choice (r : nat) (seq : list candidate) : result candidate :=
  match seq with
  | [] => Raise IndexError
  | x :: _ => Ok (nth (r mod length seq) seq x)
  end.

Definition resolve_tie_random (e : Election) (r : nat) : result candidate :=
  tied <- tied_candidates e ;;
  random_choice r tied.

(** ** Helpers of [single_winner_rcv] *)

Definition is_eliminated (elim : set candidate) (c : candidate) : bool :=
  set_mem string_dec c elim.

(** The inner [for candidate in ballot["ranking"]] with its [break]: the first
    candidate of the ranking that is not in [self.eliminated]. *)
Definition first_active (elim : set candidate) (rk : list candidate)
  : option candidate :=
  find (fun c => negb (is_eliminated elim c)) rk.

(** One iteration of [for ballot in self.candidates[last_place]]. *)
Definition transfer_one (elim : set candidate)
    (acc : Dict.t (list Ballot) * Dict.t nat) (ballot : Ballot)
  : result (Dict.t (list Ballot) * Dict.t nat) :=
  let (d, transfers) := acc in
  match first_active elim (ranking ballot) with
  | None => Ok (d, transfers)
  | Some c =>
      let transfers' :=
        match Dict.get c transfers with
        | Some n => Dict.set c (n + 1) transfers
        | None => Dict.set c 1 transfers
        end in
      if Dict.mem c d
      then Ok (Dict.update c (fun l => l ++ [ballot]) d, transfers')
      else Raise KeyError
  end.

Fixpoint transfer_loop (elim : set candidate) (held : list Ballot)
    (acc : Dict.t (list Ballot) * Dict.t nat)
  : result (Dict.t (list Ballot) * Dict.t nat) :=
  match held with
  | [] => Ok acc
  | ballot :: held' =>
      acc' <- transfer_one elim acc ballot ;; transfer_loop elim held' acc'
  end.

Definition option_nat_eqb (a b : option nat) : bool :=
  match a, b with
  | Some x, Some y => x =? y
  | None, None => true
  | _, _ => false
  end.

(** Equality of two node dictionaries. *)
Definition node_eqb (a b : Node) : bool :=
  String.eqb (name a) (name b) && (layer a =? layer b)
  && option_nat_eqb (value a) (value b).

(** [list.index]: the first position of an equal element, or [ValueError]. *)
Fixpoint index (x : Node) (l : list Node) : result nat :=
  match l with
  | [] => Raise ValueError
  | y :: l' => if node_eqb y x then Ok 0 else i <- index x l' ;; Ok (S i)
  end.

(** [d[k]] on a dictionary of integers. *)
Definition lookup (k : candidate) (d : Dict.t nat) : result nat :=
  match Dict.get k d with
  | Some n => Ok n
  | None => Raise KeyError
  end.

(** The node [fake_node_from]: it gets the key ["value"] when
    [sankey_layer < 3]. *)
Definition fake_node_from (c : candidate) (sankey_layer : nat) (v : nat) : Node :=
  {| name := c;
     layer := sankey_layer - 1;
     value := if sankey_layer <? 3 then Some v else None |}.

Definition fake_node_to (c : candidate) (sankey_layer : nat) : Node :=
  {| name := c; layer := sankey_layer; value := None |}.

(** The body of the loop "Add self-links". *)
Definition self_link (ns : list Node) (starting_values : Dict.t nat)
    (last_place : candidate) (sankey_layer : nat)
    (ls : list Link) (c : candidate) : result (list Link) :=
  if negb (String.eqb c last_place) then
    v <- (if sankey_layer <? 3 then lookup c starting_values else Ok 0) ;;
    index_from <- index (fake_node_from c sankey_layer v) ns ;;
    index_to <- index (fake_node_to c sankey_layer) ns ;;
    votes <- lookup c starting_values ;;
    Ok (ls ++ [ {| source := index_from; target := index_to; votes := votes |} ])
  else Ok ls.

(** The body of the loop "Add real links". *)
Definition real_link (ns : list Node) (starting_values : Dict.t nat)
    (last_place : candidate) (sankey_layer : nat)
    (ls : list Link) (ct : candidate * nat) : result (list Link) :=
  let (c, n) := ct in
  v <- (if sankey_layer <? 3 then lookup last_place starting_values else Ok 0) ;;
  index_from <- index (fake_node_from last_place sankey_layer v) ns ;;
  index_to <- index (fake_node_to c sankey_layer) ns ;;
  Ok (ls ++ [ {| source := index_from; target := index_to; votes := n |} ]).

Fixpoint for_each {A B : Type} (f : B -> A -> result B) (l : list A) (acc : B)
  : result B :=
  match l with
  | [] => Ok acc
  | x :: l' => acc' <- f acc x ;; for_each f l' acc'
  end.

(** ** One iteration of the [while] loop of [single_winner_rcv]

    [r] is the random integer read by [random.choice]; the result carries the
    new state and the new value of the local [sankey_layer]. *)
Definition round (e : Election) (sankey_layer : nat) (r : nat)
  : result (Election * nat) :=
  last_place <- resolve_tie_random e r ;;
  let elim := set_add string_dec last_place (eliminated e) in
  match Dict.get last_place (candidates e) with
  | None => Raise KeyError
  | Some held =>
      if length held =? 0 then
        Ok ({| ballots := ballots e;
               candidates := Dict.del last_place (candidates e);
               winner := winner e;
               eliminated := elim;
               number_of_candidates := number_of_candidates e;
               nodes := nodes e;
               links := links e |}, sankey_layer)
      else
        let starting_values : Dict.t nat :=
          map (fun kv => (fst kv, length (snd kv))) (candidates e) in
        acc <- transfer_loop elim held (candidates e, []) ;;
        let transfers := snd acc in
        let d := Dict.del last_place (fst acc) in
        let sankey_layer := sankey_layer + 1 in
        let ns := nodes e ++
          map (fun c => {| name := c; layer := sankey_layer; value := None |})
              (filter (fun c => negb (is_eliminated elim c)) (Dict.keys d)) in
        ls <- for_each (self_link ns starting_values last_place sankey_layer)
                       (Dict.keys d) [] ;;
        ls <- for_each (real_link ns starting_values last_place sankey_layer)
                       transfers ls ;;
        Ok ({| ballots := ballots e;
               candidates := d;
               winner := winner e;
               eliminated := elim;
               number_of_candidates := number_of_candidates e;
               nodes := ns;
               links := links e ++ ls |}, sankey_layer)
  end.

(** ** [single_winner_rcv] *)

(** The condition of the [while] loop. *)
Definition loop_guard (e : Election) : bool :=
  (Z.of_nat (length (eliminated e)) <? Z.of_nat (number_of_candidates e) - 1)%Z.

(** The [while] loop.  [rng] is the stream of the random integers still to be
    read.  The result is [None] when [fuel] iterations did not reach the end
    of the loop; otherwise it carries the number of iterations begun. *)
Fixpoint loop (fuel : nat) (e : Election) (sankey_layer : nat) (rng : list nat)
  : option (nat * result Election) :=
  if loop_guard e then
    match fuel with
    | 0 => None
    | S fuel' =>
        match round e sankey_layer (hd 0 rng) with
        | Raise x => Some (1, Raise x)
        | Ok (e', sankey_layer') =>
            match loop fuel' e' sankey_layer' (tl rng) with
            | None => None
            | Some (k, out) => Some (S k, out)
            end
        end
    end
  else Some (0, Ok e).

(** The code before the loop: [assign_ballots] and the first nodes. *)
Definition start (e : Election) : result Election :=
  e1 <- assign_ballots e ;;
  Ok {| ballots := ballots e1;
        candidates := candidates e1;
        winner := winner e1;
        eliminated := eliminated e1;
        number_of_candidates := number_of_candidates e1;
        nodes := nodes e1 ++
          map (fun kv => {| name := fst kv; layer := 1;
                            value := Some (length (snd kv)) |})
              (filter (fun kv => 0 <? length (snd kv)) (candidates e1));
        links := links e1 |}.

(** The code after the loop: [self.winner = list(self.candidates.keys())[0]]. *)
Definition finish (e : Election) : result Election :=
  match Dict.keys (candidates e) with
  | [] => Raise IndexError
  | w :: _ =>
      Ok {| ballots := ballots e;
            candidates := candidates e;
            winner := Some w;
            eliminated := eliminated e;
            number_of_candidates := number_of_candidates e;
            nodes := nodes e;
            links := links e |}
  end.

Definition single_winner_rcv_fuel (fuel : nat) (e : Election) (rng : list nat)
  : option (nat * result Election) :=
  match start e with
  | Raise x => Some (0, Raise x)
  | Ok e1 =>
      match loop fuel e1 1 rng with
      | None => None
      | Some (k, out) => Some (k, e2 <- out ;; finish e2)
      end
  end.

(** Every iteration deletes one key of [self.candidates], so as many
    iterations as there are candidates are enough. *)
Definition single_winner_rcv (e : Election) (rng : list nat)
  : option (nat * result Election) :=
  single_winner_rcv_fuel (length (candidates e)) e rng.

(** ** [riffle]

    [random.shuffle(x)] is the Fisher-Yates loop
    [for i in reversed(range(1, len(x))): j = randbelow(i + 1); swap x[i], x[j]]. *)

Section Shuffle.
Variable A : Type.

Definition swap (i j : nat) (x : list A) : list A :=
  match nth_error x i, nth_error x j with
  | Some a, Some b =>
      firstn i (firstn j x ++ a :: skipn (S j) x) ++ b ::
      skipn (S i) (firstn j x ++ a :: skipn (S j) x)
  | _, _ => x
  end.

Fixpoint shuffle_from (i : nat) (x : list A) (rng : list nat)
  : list A * list nat :=
  match i with
  | 0 => (x, rng)
  | S i' => shuffle_from i' (swap i (hd 0 rng mod (i + 1)) x) (tl rng)
  end.

Definition shuffle (x : list A) (rng : list nat) : list A * list nat :=
  shuffle_from (length x - 1) x rng.

Fixpoint shuffle_times (k : nat) (x : list A) (rng : list nat)
  : list A * list nat :=
  match k with
  | 0 => (x, rng)
  | S k' => let (x', rng') := shuffle x rng in shuffle_times k' x' rng'
  end.

(** [math.ceil((3/2) * math.log2(n) + u)] for [n >= 1], at the real value of
    the expression: [u] plus the least [k] with [4^k >= n^3]. *)
Definition ceil_shuffles (n u : nat) : nat :=
  u + Z.to_nat ((Z.log2_up (Z.of_nat n ^ 3) + 1) / 2).

(** [riffle]: [math.log2(0)] raises [ValueError] before anything is read
    from the random stream.  The result carries the shuffled list, the rest
    of the stream and the number of calls of [random.shuffle]. *)
Definition riffle (item : list A) (rng : list nat)
  : result (list A * list nat * nat) :=
  match length item with
  | 0 => Raise ValueError
  | S _ =>
      let u := hd 0 rng mod length item in
      let shuffles := ceil_shuffles (length item) u in
      let (x, rng') := shuffle_times shuffles item (tl rng) in
      Ok (x, rng', shuffles)
  end.
End Shuffle.

Arguments swap {A} i j x.
Arguments shuffle_from {A} i x rng.
Arguments shuffle {A} x rng.
Arguments shuffle_times {A} k x rng.
Arguments riffle {A} item rng.

(** [add_candidates]: [uniq] is [list(set(candidates))], the given candidates
    without duplicates in the order in which the set yields them. *)
Definition add_candidates (uniq : list candidate) (rng : list nat) (e : Election)
  : result (Election * list nat) :=
  shuffled <- riffle uniq rng ;;
  Ok ({| ballots := ballots e;
         candidates := fold_left (fun d c => Dict.set c [] d)
                                 (fst (fst shuffled)) (candidates e);
         winner := winner e;
         eliminated := eliminated e;
         number_of_candidates := number_of_candidates e;
         nodes := nodes e;
         links := links e |}, snd (fst shuffled)).

(** ** [droop]

    The parameter [winner] of the method is not used.  [seats] is an integer;
    the floor of the quotient is the integer floor division. *)
Definition droop (e : Election) (seats : Z) : result bool :=
  match winner e with
  | None => Raise KeyError
  | Some w =>
      match Dict.get w (candidates e) with
      | None => Raise KeyError
      | Some l =>
          if (seats =? 0)%Z then Raise ZeroDivisionError
          else Ok (Z.of_nat (length (ballots e)) / seats <? Z.of_nat (length l))%Z
      end
  end.

(** ** [__repr__] *)

(** [sum([len(self.candidates[c]) for c in self.candidates])]. *)
Definition assigned (d : Dict.t (list Ballot)) : nat :=
  list_sum (map (fun kv => length (snd kv)) d).

Record Status : Type := mkStatus {
  st_candidates : Z;
  st_ballots : Z;
  st_remaining : Z;
  st_exhausted : Z
}.

(** The four integers that [__repr__] formats, with the local names of the
    method. *)
Definition repr_status (e : Election) : Status :=
  let num_candidates := Z.of_nat (number_of_candidates e) in
  let num_ballots := Z.of_nat (length (ballots e)) in
  let active_candidates := (num_candidates - Z.of_nat (length (eliminated e)))%Z in
  let active_ballots := (num_ballots - Z.of_nat (assigned (candidates e)))%Z in
  {| st_candidates := num_candidates;
     st_ballots := num_ballots;
     st_remaining := active_candidates;
     st_exhausted := (num_ballots - active_ballots)%Z |}.

(** ** Notions used by the statements *)

(** A ballot is exhausted when every candidate of its ranking has been
    eliminated (the comment above the transfer loop). *)
Definition exhausted (elim : set candidate) (b : Ballot) : bool :=
  forallb (is_eliminated elim) (ranking b).

Definition exhausted_count (e : Election) : nat :=
  length (filter (exhausted (eliminated e)) (ballots e)).

(** The least number of ballots held by an active candidate. *)
Definition min_tally (d : Dict.t (list Ballot)) : nat :=
  match Dict.keys d with
  | [] => 0
  | k :: ks => fold_left (fun m c => Nat.min m (tally d c)) ks (tally d k)
  end.

(** The states of the object at the round boundaries of a run of
    [single_winner_rcv] on [e0], with the value of [sankey_layer]. *)
Inductive boundary (e0 : Election) : Election -> nat -> Prop :=
| boundary_start e1 :
    start e0 = Ok e1 -> boundary e0 e1 1
| boundary_round e l r e' l' :
    boundary e0 e l ->
    loop_guard e = true ->
    round e l r = Ok (e', l') ->
    boundary e0 e' l'.

(** Every candidate ranked on a ballot is registered. *)
Definition ballots_valid (bs : list Ballot) (cs : list candidate) : Prop :=
  forall b, In b bs ->
    ranking b <> [] /\ forall c, In c (ranking b) -> In c cs.

(** What a run lets one observe besides the ballots themselves. *)
Record Observed : Type := mkObserved {
  ob_tallies : list (candidate * nat);
  ob_eliminated : list candidate;
  ob_winner : option candidate;
  ob_nodes : list Node;
  ob_links : list Link
}.

Definition observe (e : Election) : Observed :=
  {| ob_tallies := map (fun kv => (fst kv, length (snd kv))) (candidates e);
     ob_eliminated := eliminated e;
     ob_winner := winner e;
     ob_nodes := nodes e;
     ob_links := links e |}.

Definition observe_result (o : result Election) : result Observed :=
  match o with
  | Ok e => Ok (observe e)
  | Raise x => Raise x
  end.

Definition observe_run (o : option (nat * result Election))
  : option (nat * result Observed) :=
  match o with
  | Some (k, out) => Some (k, observe_result out)
  | None => None
  end.

(** Rewriting every ballot of a state with [f]. *)
Definition map_dict (f : Ballot -> Ballot) (d : Dict.t (list Ballot))
  : Dict.t (list Ballot) :=
  map (fun kv => (fst kv, map f (snd kv))) d.

Definition map_election (f : Ballot -> Ballot) (e : Election) : Election :=
  {| ballots := map f (ballots e);
     candidates := map_dict f (candidates e);
     winner := winner e;
     eliminated := eliminated e;
     number_of_candidates := number_of_candidates e;
     nodes := nodes e;
     links := links e |}.

Definition erase_weight (b : Ballot) : Ballot :=
  {| weight := 1; ranking := ranking b |}.

(** Abbreviations for the parts of the state that a round writes. *)
Definition with_round (e : Election) (d : Dict.t (list Ballot))
    (elim : set candidate) (ns : list Node) (ls : list Link) : Election :=
  {| ballots := ballots e;
     candidates := d;
     winner := winner e;
     eliminated := elim;
     number_of_candidates := number_of_candidates e;
     nodes := ns;
     links := ls |}.

Definition new_nodes (elim : set candidate) (d : Dict.t (list Ballot))
    (sankey_layer : nat) : list Node :=
  map (fun c => {| name := c; layer := sankey_layer; value := None |})
      (filter (fun c => negb (is_eliminated elim c)) (Dict.keys d)).

Definition starting_values_of (d : Dict.t (list Ballot)) : Dict.t nat :=
  map (fun kv => (fst kv, length (snd kv))) d.

(** [goes_to elim c b]: candidate [c] is the first candidate of the ranking
    of [b] that is not in [elim]. *)
Definition goes_to (elim : set candidate) (c : candidate) (b : Ballot) : bool :=
  match first_active elim (ranking b) with
  | Some c' => String.eqb c' c
  | None => false
  end.

(** The invariant of the loop of [single_winner_rcv]. *)
Record Inv (e : Election) : Prop := mkInv {
  inv_keys : NoDup (Dict.keys (candidates e));
  inv_elim : NoDup (eliminated e);
  inv_disj : forall c, In c (Dict.keys (candidates e)) -> ~ In c (eliminated e);
  inv_count : length (candidates e) + length (eliminated e) = number_of_candidates e;
  inv_held : forall c l, Dict.get c (candidates e) = Some l ->
               Permutation l (filter (goes_to (eliminated e) c) (ballots e));
  inv_home : forall b c, In b (ballots e) ->
               first_active (eliminated e) (ranking b) = Some c ->
               In c (Dict.keys (candidates e))
}.

(** The invariant of the flow graph: the nodes that the next round looks up
    are present. *)
Definition graph_ready (e : Election) (sankey_layer : nat) : Prop :=
  (sankey_layer = 1 /\
   forall c l, Dict.get c (candidates e) = Some l -> l <> [] ->
     In {| name := c; layer := 1; value := Some (length l) |} (nodes e))
  \/
  (2 <= sankey_layer /\
   forall c, In c (Dict.keys (candidates e)) ->
     In {| name := c; layer := sankey_layer; value := None |} (nodes e)).

(** ** Further notions used by the statements *)

Definition map_result {A B : Type} (g : A -> B) (m : result A) : result B :=
  match m with
  | Ok a => Ok (g a)
  | Raise x => Raise x
  end.

Definition node_ok (l : nat) (nd : Node) : Prop :=
  1 <= layer nd <= l /\ (value nd <> None <-> layer nd = 1).

Definition droop_run (o : option (nat * result Election)) (seats : Z)
  : option (result bool) :=
  match o with
  | Some (_, Ok e) => Some (droop e seats)
  | Some (_, Raise x) => Some (Raise x)
  | None => None
  end.

(** ** Elections used as examples *)

Definition bal (rk : list candidate) : Ballot := {| weight := 1; ranking := rk |}.

(** Scenario 1 of the specification. *)
Definition scenario1 : Election :=
  Election_init
    [bal ["A"; "B"; "C"]; bal ["A"; "B"; "C"]; bal ["A"; "B"; "C"];
     bal ["B"; "C"; "A"]; bal ["B"; "C"; "A"];
     bal ["C"; "A"; "B"]; bal ["C"; "A"; "B"]]
    ["A"; "B"; "C"].

Definition two_candidates : Election :=
  Election_init [bal ["A"]; bal ["A"]; bal ["B"; "A"]] ["A"; "B"].

Definition one_ballot_done : Election :=
  {| ballots := [bal ["A"]];
     candidates := [("A", [bal ["A"]])];
     winner := Some "A";
     eliminated := [];
     number_of_candidates := 1;
     nodes := [{| name := "A"; layer := 1; value := Some 1 |}];
     links := [] |}.

(** Three candidates; the ballot for X alone is exhausted in the first
    round. *)
Definition exhausting_ballots : list Ballot :=
  [bal ["A"]; bal ["A"]; bal ["B"; "A"]; bal ["B"; "A"]; bal ["X"]].

Definition exhausting_candidates : list candidate := ["A"; "B"; "X"].

Definition exhausting : Election :=
  Election_init exhausting_ballots exhausting_candidates.

Definition exhausting_start : Election :=
  Eval vm_compute in
    match start exhausting with Ok e => e | Raise _ => exhausting end.

Definition exhausting_round1 : Election :=
  Eval vm_compute in
    match round exhausting_start 1 0 with
    | Ok (e, _) => e
    | Raise _ => exhausting_start
    end.

Definition exhausting_round2 : Election :=
  Eval vm_compute in
    match round exhausting_round1 2 0 with
    | Ok (e, _) => e
    | Raise _ => exhausting_round1
    end.

(** Two candidates without ballots and a third one with all of them. *)
Definition two_without_ballots : Election :=
  Election_init [bal ["C"]; bal ["C"]] ["A"; "B"; "C"].

(** The ballots of [exhausting] with other weights. *)
Definition heavy_ballots : list Ballot :=
  [mkBallot 3 ["A"]; mkBallot 5 ["A"]; mkBallot 2 ["B"; "A"];
   mkBallot 7 ["B"; "A"]; mkBallot 4 ["X"]].

Definition two_without_ballots_start : Election :=
  Eval vm_compute in
    match start two_without_ballots with
    | Ok e => e
    | Raise _ => two_without_ballots
    end.

(** ** Notions used by the further properties *)

(** The distinct elements of a list, in the order of their first
    occurrences. *)
Definition first_occurrences (cs : list candidate) : list candidate :=
  fold_left (fun acc c => if mem_str c acc then acc else acc ++ [c]) cs [].

(** The ballot [b] has candidate [c] as [ballot["ranking"][0]]. *)
Definition ranks_first (c : candidate) (b : Ballot) : bool :=
  match ranking b with
  | f :: _ => String.eqb f c
  | [] => false
  end.

(** The ballot can be assigned: its ranking is not empty and starts with a
    registered candidate. *)
Definition assignable (cs : list candidate) (b : Ballot) : Prop :=
  exists f rest, ranking b = f :: rest /\ In f cs.

(** The state of [exhausting] when [assign_ballots] has returned. *)
Definition exhausting_assigned : Election :=
  Eval vm_compute in
    match assign_ballots exhausting with Ok e => e | Raise _ => exhausting end.

(** The state that the run on [exhausting] returns. *)
Definition exhausting_final : Election :=
  Eval vm_compute in
    match single_winner_rcv exhausting [0; 0] with
    | Some (_, Ok e) => e
    | _ => exhausting
    end.

(** An election in which A is the first choice of three ballots out of five. *)
Definition majority_ballots : list Ballot :=
  [bal ["A"; "B"]; bal ["A"]; bal ["A"; "C"]; bal ["B"; "A"]; bal ["C"; "B"]].

Definition majority_final : Election :=
  Eval vm_compute in
    match single_winner_rcv (Election_init majority_ballots ["A"; "B"; "C"]) [0; 0]
    with
    | Some (_, Ok e) => e
    | _ => Election_init majority_ballots ["A"; "B"; "C"]
    end.

(** The identity of a node of the flow graph. *)
Definition node_id (nd : Node) : candidate * nat := (name nd, layer nd).

(** A link resolves in the node list [ns]: its two indices are positions of
    the list, the target is one layer after the source, and the link either
    continues a candidate or leaves a candidate of [elim]. *)
Definition link_ok (ns : list Node) (elim : set candidate) (lk : Link) : Prop :=
  exists s t,
    nth_error ns (source lk) = Some s /\ nth_error ns (target lk) = Some t /\
    layer t = S (layer s) /\ (name s = name t \/ In (name s) elim).

(** * Lemmas *)

(** ** Dictionaries *)

Section DictFacts.
Variable V : Type.
Implicit Types (d : Dict.t V) (k c : candidate).

Lemma get_In_keys d k v : Dict.get k d = Some v -> In k (Dict.keys d).
Proof.
  induction d as [|[k' v'] d IH]; simpl; [discriminate|].
  destruct (String.eqb_spec k k'); subst; auto.
Qed.

Lemma In_keys_get d k : In k (Dict.keys d) -> exists v, Dict.get k d = Some v.
Proof.
  induction d as [|[k' v'] d IH]; simpl; [tauto|].
  destruct (String.eqb_spec k k'); subst; eauto.
  intros [E|H]; [congruence|auto].
Qed.

Lemma get_None_keys d k : Dict.get k d = None -> ~ In k (Dict.keys d).
Proof.
  intros H Hin. apply In_keys_get in Hin. destruct Hin as [v Hv]. congruence.
Qed.

Lemma mem_true_iff d k : Dict.mem k d = true <-> In k (Dict.keys d).
Proof.
  unfold Dict.mem. split.
  - destruct (Dict.get k d) eqn:E; [eauto using get_In_keys|discriminate].
  - intros H. apply In_keys_get in H. destruct H as [v ->]. reflexivity.
Qed.

Lemma get_In d k v : Dict.get k d = Some v -> In (k, v) d.
Proof.
  induction d as [|[k' v'] d IH]; simpl; [discriminate|].
  destruct (String.eqb_spec k k'); subst; auto.
  intros [= ->]. auto.
Qed.

Lemma In_get d k v : NoDup (Dict.keys d) -> In (k, v) d -> Dict.get k d = Some v.
Proof.
  induction d as [|[k' v'] d IH]; simpl; [tauto|].
  intros Hnd [E|Hin].
  - inversion E; subst. now rewrite String.eqb_refl.
  - inversion Hnd; subst. destruct (String.eqb_spec k k'); subst; auto.
    exfalso. apply H1. change k' with (fst (k', v)). now apply in_map.
Qed.

Lemma keys_update d k f : Dict.keys (Dict.update k f d) = Dict.keys d.
Proof.
  induction d as [|[k' v'] d IH]; simpl; auto.
  destruct (String.eqb k k'); simpl; congruence.
Qed.

Lemma get_update d k f c :
  Dict.get c (Dict.update k f d) =
  if String.eqb c k then option_map f (Dict.get k d) else Dict.get c d.
Proof.
  induction d as [|[k' v'] d IH]; simpl.
  - now destruct (String.eqb c k).
  - destruct (String.eqb_spec k k'); subst; simpl.
    + destruct (String.eqb_spec c k'); subst; simpl; auto.
    + destruct (String.eqb_spec c k'); subst; simpl.
      * destruct (String.eqb_spec k' k); subst; simpl; congruence.
      * apply IH.
Qed.

Lemma get_del_other d k c : c <> k -> Dict.get c (Dict.del k d) = Dict.get c d.
Proof.
  intros Hne. induction d as [|[k' v'] d IH]; simpl; auto.
  destruct (String.eqb_spec k k'); subst; simpl.
  - destruct (String.eqb_spec c k'); congruence.
  - destruct (String.eqb_spec c k'); auto.
Qed.

Lemma keys_del_incl d k c : In c (Dict.keys (Dict.del k d)) -> In c (Dict.keys d).
Proof.
  induction d as [|[k' v'] d IH]; simpl; auto.
  destruct (String.eqb_spec k k'); subst; simpl; tauto.
Qed.

Lemma keys_del_notin d k : NoDup (Dict.keys d) -> ~ In k (Dict.keys (Dict.del k d)).
Proof.
  induction d as [|[k' v'] d IH]; simpl; auto.
  intros Hnd. inversion Hnd; subst.
  destruct (String.eqb_spec k k'); subst; simpl; auto.
  intros [E|H]; [congruence|]. now apply IH.
Qed.

Lemma keys_del_other d k c : c <> k -> In c (Dict.keys d) -> In c (Dict.keys (Dict.del k d)).
Proof.
  intros Hne. induction d as [|[k' v'] d IH]; simpl; auto.
  destruct (String.eqb_spec k k'); subst; simpl.
  - intros [E|H]; [congruence|auto].
  - intros [E|H]; auto.
Qed.

Lemma NoDup_keys_del d k : NoDup (Dict.keys d) -> NoDup (Dict.keys (Dict.del k d)).
Proof.
  induction d as [|[k' v'] d IH]; simpl; auto.
  intros Hnd. inversion Hnd; subst.
  destruct (String.eqb_spec k k'); subst; simpl; auto.
  constructor; auto. intros H. apply H1. eapply keys_del_incl; eauto.
Qed.

Lemma get_del_same d k : NoDup (Dict.keys d) -> Dict.get k (Dict.del k d) = None.
Proof.
  intros Hnd. destruct (Dict.get k (Dict.del k d)) eqn:E; auto.
  apply get_In_keys in E. now apply keys_del_notin in E.
Qed.

Lemma length_del d k : In k (Dict.keys d) -> S (length (Dict.del k d)) = length d.
Proof.
  induction d as [|[k' v'] d IH]; simpl; [tauto|].
  destruct (String.eqb_spec k k'); subst; simpl; auto.
  intros [E|H]; [congruence|]. now rewrite IH.
Qed.

Lemma keys_set d k v :
  Dict.keys (Dict.set k v d) = if Dict.mem k d then Dict.keys d else Dict.keys d ++ [k].
Proof.
  unfold Dict.mem. induction d as [|[k' v'] d IH]; simpl; auto.
  destruct (String.eqb_spec k k'); subst; simpl; auto.
  rewrite IH. now destruct (Dict.get k d).
Qed.

Lemma set_values (P : V -> Prop) d k v :
  P v -> Forall (fun kv => P (snd kv)) d -> Forall (fun kv => P (snd kv)) (Dict.set k v d).
Proof.
  intros Hv. induction d as [|[k' v'] d IH]; simpl; intros H.
  - constructor; auto.
  - inversion H; subst. destruct (String.eqb k k'); constructor; auto.
Qed.

Lemma NoDup_keys_set d k v : NoDup (Dict.keys d) -> NoDup (Dict.keys (Dict.set k v d)).
Proof.
  intros Hnd. rewrite keys_set. destruct (Dict.mem k d) eqn:E; auto.
  apply NoDup_app; auto.
  - constructor; [simpl; tauto|constructor].
  - intros x Hx [<-|[]]. apply mem_true_iff in Hx. congruence.
Qed.
End DictFacts.

(** ** The stable sort and the tie set *)

Section SortFacts.
Variable key : candidate -> Z.

Lemma insert_by_perm x l : Permutation (insert_by key x l) (x :: l).
Proof.
  induction l as [|y l IH]; simpl; auto.
  destruct (key x <=? key y)%Z; auto.
  rewrite IH. apply perm_swap.
Qed.

Lemma sorted_perm l : Permutation (sorted key l) l.
Proof.
  induction l as [|x l IH]; simpl; auto.
  rewrite insert_by_perm. now constructor.
Qed.

Lemma insert_by_sorted x l :
  StronglySorted (fun a b => key a <= key b)%Z l ->
  StronglySorted (fun a b => key a <= key b)%Z (insert_by key x l).
Proof.
  induction 1 as [|y l Hs IH Hy]; simpl.
  - repeat constructor.
  - destruct (Z.leb_spec (key x) (key y)).
    + constructor; [constructor; auto|].
      constructor; auto.
      rewrite Forall_forall in *. intros z Hz. specialize (Hy z Hz). lia.
    + constructor; auto.
      rewrite Forall_forall in *. intros z Hz.
      apply (Permutation_in _ (insert_by_perm x l)) in Hz.
      destruct Hz as [<-|Hz]; [lia|auto].
Qed.

Lemma sorted_sorted l : StronglySorted (fun a b => key a <= key b)%Z (sorted key l).
Proof.
  induction l; simpl; [constructor|now apply insert_by_sorted].
Qed.

Lemma sorted_last_max l1 z :
  StronglySorted (fun a b => key a <= key b)%Z (l1 ++ [z]) ->
  forall x, In x (l1 ++ [z]) -> (key x <= key z)%Z.
Proof.
  induction l1 as [|y l1 IH]; simpl; intros Hs x Hx.
  - destruct Hx as [<-|[]]. lia.
  - inversion Hs; subst. destruct Hx as [<-|Hx]; auto.
    rewrite Forall_forall in H2. apply H2. apply in_or_app. right. now left.
Qed.
End SortFacts.

Lemma mem_str_iff c l : mem_str c l = true <-> In c l.
Proof.
  unfold mem_str. rewrite existsb_exists. split.
  - intros [x [Hx E]]. apply String.eqb_eq in E. now subst.
  - intros H. exists c. split; auto. apply String.eqb_refl.
Qed.

Lemma tied_fold_spec (d : Dict.t (list Ballot)) (t : nat) l acc :
  NoDup acc ->
  let res := fold_left
    (fun tied c => if (tally d c =? t) && negb (mem_str c tied)
                   then tied ++ [c] else tied) l acc in
  NoDup res /\ forall c, In c res <-> In c acc \/ (In c l /\ tally d c = t).
Proof.
  revert acc. induction l as [|x l IH]; simpl; intros acc Hnd.
  - split; auto. intros c. tauto.
  - destruct (Nat.eqb_spec (tally d x) t) as [Ht|Ht]; simpl.
    + destruct (mem_str x acc) eqn:Hm; simpl.
      * destruct (IH acc Hnd) as [H1 H2]. split; auto.
        intros c. rewrite H2. apply mem_str_iff in Hm.
        intuition (subst; auto).
      * assert (Hx : ~ In x acc).
        { intros H. apply mem_str_iff in H. congruence. }
        assert (Hnd' : NoDup (acc ++ [x])).
        { apply NoDup_app; auto.
          - constructor; [simpl; tauto|constructor].
          - intros y Hy [<-|[]]. auto. }
        destruct (IH _ Hnd') as [H1 H2]. split; auto.
        intros c. rewrite H2, in_app_iff. simpl. intuition (subst; auto).
    + destruct (IH acc Hnd) as [H1 H2]. split; auto.
      intros c. rewrite H2. intuition (subst; auto). congruence.
Qed.

Section MinTally.
Variable d : Dict.t (list Ballot).

Lemma fold_min_le l m :
  fold_left (fun m c => Nat.min m (tally d c)) l m <= m /\
  forall c, In c l -> fold_left (fun m c => Nat.min m (tally d c)) l m <= tally d c.
Proof.
  revert m. induction l as [|x l IH]; simpl; intros m.
  - split; [lia|tauto].
  - destruct (IH (Nat.min m (tally d x))) as [H1 H2]. split; [lia|].
    intros c [<-|Hc]; [lia|auto].
Qed.

Lemma fold_min_attained l m :
  fold_left (fun m c => Nat.min m (tally d c)) l m = m \/
  exists c, In c l /\ fold_left (fun m c => Nat.min m (tally d c)) l m = tally d c.
Proof.
  revert m. induction l as [|x l IH]; simpl; intros m; auto.
  destruct (IH (Nat.min m (tally d x))) as [H|[c [Hc H]]].
  - destruct (Nat.min_spec m (tally d x)) as [[_ E]|[_ E]]; rewrite E in *; auto.
    right. exists x. auto.
  - right. exists c. auto.
Qed.

Lemma min_tally_le c : In c (Dict.keys d) -> min_tally d <= tally d c.
Proof.
  unfold min_tally. destruct (Dict.keys d) as [|k ks]; simpl; [tauto|].
  destruct (fold_min_le ks (tally d k)) as [H1 H2].
  intros [<-|Hc]; auto.
Qed.

Lemma min_tally_attained :
  Dict.keys d <> [] -> exists c, In c (Dict.keys d) /\ tally d c = min_tally d.
Proof.
  unfold min_tally. destruct (Dict.keys d) as [|k ks]; [congruence|]. intros _.
  destruct (fold_min_attained ks (tally d k)) as [H|[c [Hc H]]].
  - exists k. simpl. auto.
  - exists c. simpl. auto.
Qed.
End MinTally.

Lemma tied_candidates_spec (e : Election) :
  candidates e <> [] ->
  exists tied, tied_candidates e = Ok tied /\ NoDup tied /\ tied <> [] /\
    forall c, In c tied <->
      In c (Dict.keys (candidates e)) /\
      tally (candidates e) c = min_tally (candidates e).
Proof.
  intros Hne. unfold tied_candidates.
  set (key := sort_key (candidates e)).
  assert (Hperm : Permutation (rev (sort_candidates e)) (Dict.keys (candidates e))).
  { rewrite <- Permutation_rev. apply sorted_perm. }
  destruct (rev (sort_candidates e)) as [|first rest] eqn:Hrev.
  { apply Permutation_nil in Hperm. unfold Dict.keys in Hperm.
    apply map_eq_nil in Hperm. contradiction. }
  assert (Hsorted : sort_candidates e = rev rest ++ [first]).
  { rewrite <- (rev_involutive (sort_candidates e)), Hrev. reflexivity. }
  assert (Hmax : forall x, In x (Dict.keys (candidates e)) ->
                   tally (candidates e) first <= tally (candidates e) x).
  { intros x Hx.
    assert (H := sorted_sorted key (Dict.keys (candidates e))).
    change (sorted key (Dict.keys (candidates e))) with (sort_candidates e) in H.
    rewrite Hsorted in H.
    pose proof (@sorted_last_max key _ _ H x) as H'.
    unfold key, sort_key in H'.
    assert (In x (rev rest ++ [first])).
    { rewrite <- Hsorted. apply (Permutation_in x (Permutation_sym (sorted_perm key _)) Hx). }
    specialize (H' H0). lia. }
  assert (Hfirst : In first (Dict.keys (candidates e))).
  { apply (Permutation_in _ Hperm). now left. }
  assert (Hmin : tally (candidates e) first = min_tally (candidates e)).
  { apply Nat.le_antisymm.
    - destruct (@min_tally_attained (candidates e)) as [c [Hc E]].
      { intros E. rewrite E in Hfirst. destruct Hfirst. }
      rewrite <- E. auto.
    - now apply min_tally_le. }
  eexists. split; [reflexivity|].
  assert (Hnd : NoDup [first]) by (constructor; [simpl; tauto|constructor]).
  destruct (tied_fold_spec (candidates e) (tally (candidates e) first)
              (first :: rest) [first] Hnd) as [H1 H2].
  cbv zeta in H1, H2. split; [exact H1|]. split.
  - intros E. specialize (H2 first). rewrite E in H2. simpl in H2. tauto.
  - intros c. rewrite H2, <- Hmin. split.
    + intros [[<-|[]]|[Hin Ht]]; auto. split; auto.
      apply (Permutation_in _ Hperm Hin).
    + intros [Hin Ht]. right. split; auto.
      apply (Permutation_in _ (Permutation_sym Hperm) Hin).
Qed.

Lemma random_choice_In r seq c : random_choice r seq = Ok c -> In c seq.
Proof.
  destruct seq as [|x seq]; [discriminate|]. unfold random_choice.
  remember (x :: seq) as s eqn:Es. intros H.
  assert (E : c = nth (r mod length s) s x) by congruence.
  rewrite E. apply nth_In. apply Nat.mod_upper_bound. subst s. discriminate.
Qed.

Lemma random_choice_small r seq d :
  r < length seq -> random_choice r seq = Ok (nth r seq d).
Proof.
  destruct seq as [|x seq]; simpl length; [lia|]. intros Hr.
  unfold random_choice. rewrite Nat.mod_small by (simpl; lia).
  f_equal. apply nth_indep. simpl. lia.
Qed.

Lemma resolve_tie_random_spec e r c :
  resolve_tie_random e r = Ok c ->
  In c (Dict.keys (candidates e)) /\
  tally (candidates e) c = min_tally (candidates e).
Proof.
  unfold resolve_tie_random. intros H.
  destruct (candidates e) eqn:Hc.
  { unfold tied_candidates, sort_candidates in H. rewrite Hc in H. discriminate. }
  destruct (@tied_candidates_spec e) as [tied [Ht [_ [_ Hin]]]].
  { rewrite Hc. discriminate. }
  rewrite Ht in H. simpl in H. apply random_choice_In in H.
  rewrite Hc in Hin. now apply Hin.
Qed.

Lemma resolve_tie_random_total e r :
  candidates e <> [] -> exists c, resolve_tie_random e r = Ok c.
Proof.
  intros Hne. destruct (@tied_candidates_spec e Hne) as [tied [Ht [_ [Hn _]]]].
  unfold resolve_tie_random. rewrite Ht. simpl.
  destruct tied; [congruence|]. eexists. reflexivity.
Qed.

(** C4: the candidate to eliminate is [random.choice] of a duplicate-free list
    that holds exactly the active candidates whose tally is the least one,
    wherever they stand in the ranking; the index drawn uniformly below the
    length of the list selects each of them for exactly one of its values. *)
Theorem resolve_tie_random_uniform (e : Election) :
  candidates e <> [] ->
  exists tied,
    tied_candidates e = Ok tied /\ NoDup tied /\ tied <> [] /\
    (forall c, In c tied <->
       In c (Dict.keys (candidates e)) /\
       tally (candidates e) c = min_tally (candidates e)) /\
    (forall r, resolve_tie_random e r = resolve_tie_random e (r mod length tied)) /\
    (forall r, r < length tied ->
       exists c, nth_error tied r = Some c /\ resolve_tie_random e r = Ok c) /\
    (forall c, In c tied ->
       exists k, k < length tied /\ resolve_tie_random e k = Ok c /\
         forall k', k' < length tied -> resolve_tie_random e k' = Ok c -> k' = k).
Proof.
  intros Hne. destruct (@tied_candidates_spec e Hne) as [tied [Ht [Hnd [Hn Hin]]]].
  exists tied. repeat (split; [assumption|]).
  unfold resolve_tie_random. rewrite Ht. simpl.
  destruct tied as [|x tied']; [congruence|]. set (tied := x :: tied') in *.
  split; [|split].
  - intros r. unfold random_choice. fold tied.
    rewrite Nat.Div0.mod_mod. reflexivity.
  - intros r Hr. exists (nth r tied x). split.
    + now apply nth_error_nth'.
    + now apply random_choice_small.
  - intros c Hc. destruct (In_nth _ _ x Hc) as [k [Hk Ek]].
    exists k. split; [assumption|]. split.
    + rewrite (random_choice_small k tied x Hk). now rewrite Ek.
    + intros k' Hk' E. rewrite (random_choice_small k' tied x Hk') in E.
      assert (E' : nth k' tied x = c) by congruence.
      apply (proj1 (NoDup_nth tied x) Hnd); auto. congruence.
Qed.

Lemma resolve_tie_random_uniform_witness :
  exists tied,
    tied_candidates scenario1 = Ok tied /\ NoDup tied /\ tied <> [] /\
    (forall c, In c tied <->
       In c (Dict.keys (candidates scenario1)) /\
       tally (candidates scenario1) c = min_tally (candidates scenario1)) /\
    (forall r, resolve_tie_random scenario1 r =
               resolve_tie_random scenario1 (r mod length tied)) /\
    (forall r, r < length tied ->
       exists c, nth_error tied r = Some c /\ resolve_tie_random scenario1 r = Ok c) /\
    (forall c, In c tied ->
       exists k, k < length tied /\ resolve_tie_random scenario1 k = Ok c /\
         forall k', k' < length tied ->
           resolve_tie_random scenario1 k' = Ok c -> k' = k).
Proof.
  apply (@resolve_tie_random_uniform scenario1). discriminate.
Defined.

(** ** The eliminated set and the first active candidate of a ranking *)

Lemma is_eliminated_iff elim c : is_eliminated elim c = true <-> In c elim.
Proof.
  unfold is_eliminated. split.
  - apply set_mem_correct1.
  - apply set_mem_correct2.
Qed.

Lemma is_eliminated_add elim last c :
  is_eliminated (set_add string_dec last elim) c =
  is_eliminated elim c || String.eqb c last.
Proof.
  apply eq_true_iff_eq. rewrite orb_true_iff, !is_eliminated_iff, set_add_iff.
  rewrite String.eqb_eq. tauto.
Qed.

Lemma set_add_length (elim : set candidate) last :
  ~ In last elim -> length (set_add string_dec last elim) = S (length elim).
Proof.
  induction elim as [|x elim IH]; simpl; auto.
  intros H. destruct (string_dec last x); [subst; tauto|]. simpl. rewrite IH; tauto.
Qed.

Lemma set_add_app (elim : set candidate) last :
  ~ In last elim -> set_add string_dec last elim = elim ++ [last].
Proof.
  induction elim as [|x elim IH]; simpl; auto.
  intros H. destruct (string_dec last x); [subst; tauto|]. rewrite IH; tauto.
Qed.

Lemma first_active_not_eliminated elim rk c :
  first_active elim rk = Some c -> In c rk /\ ~ In c elim.
Proof.
  unfold first_active. intros H. apply find_some in H. destruct H as [H1 H2].
  split; auto. rewrite <- is_eliminated_iff. now destruct (is_eliminated elim c).
Qed.

Lemma first_active_None elim rk :
  first_active elim rk = None <-> forallb (is_eliminated elim) rk = true.
Proof.
  unfold first_active. induction rk as [|x rk IH]; simpl; [tauto|].
  destruct (is_eliminated elim x); simpl; [exact IH|]. split; discriminate.
Qed.

Section FirstActiveAdd.
Variables (elim : set candidate) (last : candidate).
Let elim' := set_add string_dec last elim.

Lemma first_active_add_None rk :
  first_active elim rk = None -> first_active elim' rk = None.
Proof.
  unfold first_active, elim'. induction rk as [|x rk IH]; simpl; auto.
  rewrite is_eliminated_add. destruct (is_eliminated elim x); simpl; auto.
  discriminate.
Qed.

Lemma first_active_add_other rk c :
  first_active elim rk = Some c -> c <> last -> first_active elim' rk = Some c.
Proof.
  unfold first_active, elim'. induction rk as [|x rk IH]; simpl; [discriminate|].
  rewrite is_eliminated_add. destruct (is_eliminated elim x); simpl; auto.
  intros [= ->] Hne. destruct (String.eqb_spec c last); [contradiction|reflexivity].
Qed.

Lemma first_active_add_inv rk c :
  first_active elim' rk = Some c ->
  c <> last /\
  (first_active elim rk = Some c \/ first_active elim rk = Some last).
Proof.
  unfold first_active, elim'. induction rk as [|x rk IH]; simpl; [discriminate|].
  rewrite is_eliminated_add. destruct (is_eliminated elim x); simpl; auto.
  destruct (String.eqb_spec x last) as [->|Hne]; simpl.
  - intros H. destruct (IH H) as [H1 _]. auto.
  - intros [= ->]. auto.
Qed.
End FirstActiveAdd.

Lemma Permutation_filter (A : Type) (f : A -> bool) (l l' : list A) :
  Permutation l l' -> Permutation (filter f l) (filter f l').
Proof.
  induction 1; simpl; auto.
  - destruct (f x); auto.
  - destruct (f x), (f y); auto. apply perm_swap.
  - etransitivity; eauto.
Qed.

(** The ballots that go to [c] once [last] is eliminated are those that went
    to [c] before and, among those that went to [last], those whose next
    active candidate is [c]. *)
Lemma filter_goes_to_split elim last c bs :
  c <> last ->
  Permutation
    (filter (goes_to (set_add string_dec last elim) c) bs)
    (filter (goes_to elim c) bs ++
     filter (goes_to (set_add string_dec last elim) c)
            (filter (goes_to elim last) bs)).
Proof.
  intros Hne. induction bs as [|b bs IH]; simpl; auto.
  destruct (first_active elim (ranking b)) as [c0|] eqn:E.
  - destruct (String.eqb_spec c0 last) as [->|Hc0].
    + assert (G1 : goes_to elim c b = false).
      { unfold goes_to. rewrite E. now apply String.eqb_neq. }
      assert (G2 : goes_to elim last b = true).
      { unfold goes_to. rewrite E. apply String.eqb_refl. }
      rewrite G1, G2. simpl.
      destruct (goes_to (set_add string_dec last elim) c b); auto.
      now apply Permutation_cons_app.
    + assert (G2 : goes_to elim last b = false).
      { unfold goes_to. rewrite E. now apply String.eqb_neq. }
      assert (G3 : goes_to (set_add string_dec last elim) c b = goes_to elim c b).
      { unfold goes_to. now rewrite (first_active_add_other _ _ _ _ E Hc0), E. }
      rewrite G2, G3. destruct (goes_to elim c b); simpl; auto.
  - assert (G1 : goes_to elim c b = false) by (unfold goes_to; now rewrite E).
    assert (G2 : goes_to elim last b = false) by (unfold goes_to; now rewrite E).
    assert (G3 : goes_to (set_add string_dec last elim) c b = false).
    { unfold goes_to. now rewrite (first_active_add_None _ last _ E). }
    rewrite G1, G2, G3. exact IH.
Qed.

(** ** [Election_init] and [assign_ballots] *)

Lemma init_candidates_spec cs (acc : Dict.t (list Ballot)) :
  NoDup (Dict.keys acc) -> Forall (fun kv => snd kv = []) acc ->
  let d := fold_left (fun d c => Dict.set c [] d) cs acc in
  NoDup (Dict.keys d) /\ Forall (fun kv => snd kv = []) d /\
  forall c, In c (Dict.keys d) <-> In c (Dict.keys acc) \/ In c cs.
Proof.
  revert acc. induction cs as [|x cs IH]; simpl; intros acc Hnd Hall.
  - repeat split; auto. tauto.
  - destruct (IH (Dict.set x [] acc)) as [H1 [H2 H3]].
    + now apply NoDup_keys_set.
    + now apply (set_values _ (fun v => v = [])).
    + split; [exact H1|]. split; [exact H2|]. intros c. rewrite H3, keys_set.
      destruct (Dict.mem x acc) eqn:E.
      * apply mem_true_iff in E. intuition (subst; auto).
      * rewrite in_app_iff. simpl. intuition (subst; auto).
Qed.

Lemma assign_loop_spec bs : forall d d',
  assign_loop bs d = Ok d' ->
  Dict.keys d' = Dict.keys d /\
  (forall c, Dict.get c d' =
     option_map (fun l => l ++ filter (goes_to (empty_set candidate) c) bs)
                (Dict.get c d)) /\
  (forall b, In b bs -> exists f rest, ranking b = f :: rest /\ In f (Dict.keys d)).
Proof.
  induction bs as [|b bs IH]; simpl; intros d d' H.
  - injection H as <-. repeat split; auto.
    + intros c. destruct (Dict.get c d); simpl; auto. now rewrite app_nil_r.
    + tauto.
  - unfold assign_one in H. destruct (ranking b) as [|f rest] eqn:Hr; [discriminate|].
    destruct (Dict.mem f d) eqn:Hm; [|discriminate]. simpl in H.
    destruct (IH _ _ H) as [H1 [H2 H3]]. rewrite keys_update in *.
    repeat split; auto.
    + intros c. rewrite H2, get_update. unfold goes_to at 2. rewrite Hr. simpl.
      rewrite String.eqb_sym.
      destruct (String.eqb_spec f c) as [->|Hne].
      * destruct (Dict.get c d); simpl; auto. now rewrite <- app_assoc.
      * reflexivity.
    + intros b' [<-|Hb]; auto. exists f, rest. split; auto.
      now apply mem_true_iff.
Qed.

Lemma assign_loop_total bs : forall d,
  (forall b, In b bs -> exists f rest, ranking b = f :: rest /\ In f (Dict.keys d)) ->
  exists d', assign_loop bs d = Ok d'.
Proof.
  induction bs as [|b bs IH]; simpl; intros d H; eauto.
  destruct (H b (or_introl eq_refl)) as [f [rest [Hr Hf]]].
  unfold assign_one. rewrite Hr. apply mem_true_iff in Hf. rewrite Hf. simpl.
  apply IH. intros b' Hb'. rewrite keys_update. apply mem_true_iff in Hf. auto.
Qed.

(** ** The transfer loop *)

Lemma transfer_loop_spec elim held : forall d tr d' tr',
  transfer_loop elim held (d, tr) = Ok (d', tr') ->
  Dict.keys d' = Dict.keys d /\
  (forall c, Dict.get c d' =
     option_map (fun l => l ++ filter (goes_to elim c) held) (Dict.get c d)) /\
  (forall b c, In b held -> first_active elim (ranking b) = Some c ->
     In c (Dict.keys d)) /\
  (forall c, In c (Dict.keys tr') ->
     In c (Dict.keys tr) \/ (In c (Dict.keys d) /\ ~ In c elim)).
Proof.
  induction held as [|b held IH]; simpl; intros d tr d' tr' H.
  - injection H as <- <-. repeat split; auto.
    + intros c. destruct (Dict.get c d); simpl; auto. now rewrite app_nil_r.
    + tauto.
  - destruct (first_active elim (ranking b)) as [c0|] eqn:E.
    + destruct (Dict.mem c0 d) eqn:Hm; [|discriminate]. simpl in H.
      apply mem_true_iff in Hm.
      destruct (IH _ _ _ _ H) as [H1 [H2 [H3 H4]]]. rewrite keys_update in *.
      split; [exact H1|]. split; [|split].
      * intros c. rewrite H2, get_update. unfold goes_to at 2. rewrite E.
        rewrite String.eqb_sym.
        destruct (String.eqb_spec c0 c) as [->|Hne].
        -- destruct (Dict.get c d); simpl; auto. now rewrite <- app_assoc.
        -- reflexivity.
      * intros b' c [<-|Hb] Hc; eauto. congruence.
      * intros c Hc. destruct (H4 c Hc) as [Hc'|Hc']; auto.
        assert (Hk : In c (Dict.keys tr) \/ c = c0).
        { destruct (Dict.get c0 tr) eqn:G; rewrite keys_set in Hc';
            destruct (Dict.mem c0 tr); auto;
            apply in_app_iff in Hc'; destruct Hc' as [?|[<-|[]]]; auto. }
        destruct Hk as [Hk| ->]; auto. right. split; auto.
        now apply first_active_not_eliminated in E.
    + simpl in H. destruct (IH _ _ _ _ H) as [H1 [H2 [H3 H4]]].
      split; [exact H1|]. split; [|split; [|exact H4]].
      * intros c. rewrite H2. unfold goes_to at 2. rewrite E. reflexivity.
      * intros b' c [<-|Hb] Hc; eauto. congruence.
Qed.

Lemma transfer_loop_total elim held : forall d tr,
  (forall b c, In b held -> first_active elim (ranking b) = Some c ->
     In c (Dict.keys d)) ->
  exists d' tr', transfer_loop elim held (d, tr) = Ok (d', tr').
Proof.
  induction held as [|b held IH]; simpl; intros d tr H; eauto.
  destruct (first_active elim (ranking b)) as [c0|] eqn:E; simpl.
  - assert (Hm : Dict.mem c0 d = true) by (apply mem_true_iff; eauto).
    rewrite Hm. simpl. apply IH. intros b' c Hb Hc. rewrite keys_update. eauto.
  - apply IH. eauto.
Qed.

(** ** The shape of a round *)

Lemma round_inversion e l r e' l' :
  round e l r = Ok (e', l') ->
  exists last held,
    resolve_tie_random e r = Ok last /\
    Dict.get last (candidates e) = Some held /\
    let elim := set_add string_dec last (eliminated e) in
    (held = [] /\ l' = l /\
     e' = with_round e (Dict.del last (candidates e)) elim (nodes e) (links e))
    \/
    (held <> [] /\ l' = l + 1 /\
     exists d tr ls1 ls2,
       transfer_loop elim held (candidates e, []) = Ok (d, tr) /\
       let d' := Dict.del last d in
       let ns := nodes e ++ new_nodes elim d' (l + 1) in
       for_each (self_link ns (starting_values_of (candidates e)) last (l + 1))
                (Dict.keys d') [] = Ok ls1 /\
       for_each (real_link ns (starting_values_of (candidates e)) last (l + 1))
                tr ls1 = Ok ls2 /\
       e' = with_round e d' elim ns (links e ++ ls2)).
Proof.
  unfold round. intros H.
  destruct (resolve_tie_random e r) as [last|] eqn:Hl; [|discriminate].
  simpl in H. destruct (Dict.get last (candidates e)) as [held|] eqn:Hg; [|discriminate].
  exists last, held. split; [reflexivity|]. split; [exact Hg|].
  destruct held as [|b held].
  - left. simpl in H. injection H as <- <-. auto.
  - right. split; [discriminate|].
    cbn [length Nat.eqb] in H.
    destruct (transfer_loop _ (b :: held) _) as [[d tr]|] eqn:Ht; [|discriminate].
    cbn [bind fst snd] in H.
    fold (starting_values_of (candidates e)) in H.
    fold (new_nodes (set_add string_dec last (eliminated e)) (Dict.del last d) (l + 1)) in H.
    destruct (for_each (self_link _ _ _ _) _ _) as [ls1|] eqn:H1; [|discriminate].
    cbn [bind] in H.
    destruct (for_each (real_link _ _ _ _) _ _) as [ls2|] eqn:H2; [|discriminate].
    cbn [bind] in H. injection H as <- <-.
    split; [reflexivity|]. exists d, tr, ls1, ls2. auto.
Qed.

(** ** The invariant holds at every round boundary *)

Lemma start_inversion bs cs e1 :
  start (Election_init bs cs) = Ok e1 ->
  exists d,
    assign_loop bs (candidates (Election_init bs cs)) = Ok d /\
    e1 = {| ballots := bs;
            candidates := d;
            winner := None;
            eliminated := empty_set candidate;
            number_of_candidates := length (candidates (Election_init bs cs));
            nodes := map (fun kv => {| name := fst kv; layer := 1;
                                       value := Some (length (snd kv)) |})
                         (filter (fun kv => 0 <? length (snd kv)) d);
            links := [] |}.
Proof.
  unfold start, assign_ballots. cbn [ballots candidates Election_init].
  destruct (assign_loop bs _) as [d|] eqn:Ha; [|discriminate].
  cbn. intros [= <-]. eauto.
Qed.

Lemma start_Inv bs cs e1 :
  start (Election_init bs cs) = Ok e1 -> Inv e1 /\ graph_ready e1 1.
Proof.
  intros H. destruct (start_inversion _ _ _ H) as [d [Ha ->]].
  destruct (init_candidates_spec cs [] (NoDup_nil _) (Forall_nil _))
    as [Hnd [Hall Hin]].
  cbv zeta in Hnd, Hall, Hin.
  change (fold_left (fun d c => Dict.set c [] d) cs [])
    with (candidates (Election_init bs cs)) in Hnd, Hall, Hin.
  destruct (assign_loop_spec _ _ _ Ha) as [Hk [Hg Hf]].
  split.
  - constructor; cbn [candidates eliminated ballots number_of_candidates].
    + now rewrite Hk.
    + constructor.
    + intros c _ [].
    + simpl. rewrite Nat.add_0_r. unfold Dict.keys in Hk.
      rewrite <- (length_map fst d), Hk. apply length_map.
    + intros c l Hc. rewrite Hg in Hc.
      destruct (Dict.get c (candidates (Election_init bs cs))) as [l0|] eqn:G;
        [|discriminate].
      apply get_In in G. rewrite Forall_forall in Hall. apply Hall in G.
      simpl in G. subst l0. simpl in Hc. injection Hc as <-. reflexivity.
    + intros b c Hb Hc. rewrite Hk.
      destruct (Hf b Hb) as [f [rest [Hr Hfk]]].
      unfold first_active in Hc. rewrite Hr in Hc. simpl in Hc. congruence.
  - left. split; auto. cbn [candidates nodes]. intros c l Hc Hl.
    apply get_In in Hc.
    change {| name := c; layer := 1; value := Some (length l) |}
      with ((fun kv : candidate * list Ballot =>
               {| name := fst kv; layer := 1; value := Some (length (snd kv)) |})
            (c, l)).
    apply in_map. apply filter_In. split; [exact Hc|]. simpl.
    destruct l; [congruence|reflexivity].
Qed.

Lemma Inv_get_last e r last :
  Inv e -> resolve_tie_random e r = Ok last ->
  exists held, Dict.get last (candidates e) = Some held /\
               length held = min_tally (candidates e) /\
               ~ In last (eliminated e).
Proof.
  intros HI H. apply resolve_tie_random_spec in H. destruct H as [Hin Ht].
  destruct (In_keys_get _ _ _ Hin) as [held Hh]. exists held.
  unfold tally in Ht. rewrite Hh in Ht. repeat split; auto.
  now apply (inv_disj _ HI).
Qed.

Lemma round_Inv e l r e' l' :
  Inv e -> round e l r = Ok (e', l') -> Inv e'.
Proof.
  intros HI H. destruct (round_inversion _ _ _ _ _ H)
    as [last [held [Hl [Hg Hcase]]]]. cbv zeta in Hcase.
  destruct (Inv_get_last _ _ _ HI Hl) as [held' [Hg' [_ Hne]]].
  assert (held' = held) by congruence. subst held'. clear Hg'.
  assert (Hlk : In last (Dict.keys (candidates e))) by eauto using get_In_keys.
  pose proof (inv_keys _ HI) as Hnd.
  set (elim := set_add string_dec last (eliminated e)) in *.
  assert (Hcommon :
    forall d : Dict.t (list Ballot), Dict.keys d = Dict.keys (candidates e) ->
      NoDup (Dict.keys (Dict.del last d)) /\
      NoDup elim /\
      (forall c, In c (Dict.keys (Dict.del last d)) -> ~ In c elim) /\
      length (Dict.del last d) + length elim = number_of_candidates e).
  { intros d Hk. assert (Hnd' : NoDup (Dict.keys d)) by now rewrite Hk.
    split; [now apply NoDup_keys_del|]. split; [now apply set_add_nodup, (inv_elim _ HI)|].
    split.
    - intros c Hc Hce. unfold elim in Hce. apply set_add_iff in Hce.
      destruct Hce as [->|Hce].
      + now apply keys_del_notin in Hc.
      + apply keys_del_incl in Hc. rewrite Hk in Hc. now apply (inv_disj _ HI) in Hc.
    - unfold elim. rewrite set_add_length by assumption.
      assert (Hd : S (length (Dict.del last d)) = length d).
      { apply length_del. now rewrite Hk. }
      assert (length d = length (candidates e)).
      { unfold Dict.keys in Hk. now rewrite <- (length_map fst d), Hk, length_map. }
      pose proof (inv_count _ HI). lia. }
  destruct Hcase as [[-> [-> ->]]|[Hheld [-> [d [tr [ls1 [ls2 [Ht [_ [_ ->]]]]]]]]]].
  - destruct (Hcommon (candidates e) eq_refl) as [C1 [C2 [C3 C4]]].
    assert (Hnone : forall b, In b (ballots e) ->
              first_active (eliminated e) (ranking b) <> Some last).
    { intros b Hb E. pose proof (inv_held _ HI _ _ Hg) as Hp.
      apply Permutation_nil in Hp.
      assert (In b (filter (goes_to (eliminated e) last) (ballots e))).
      { apply filter_In. split; auto. unfold goes_to. rewrite E.
        apply String.eqb_refl. }
      rewrite Hp in H0. destruct H0. }
    constructor; cbn [with_round candidates eliminated ballots number_of_candidates]; auto.
    + intros c l0 Hc.
      assert (c <> last).
      { intros ->. rewrite get_del_same in Hc by assumption. discriminate. }
      rewrite get_del_other in Hc by assumption.
      rewrite (inv_held _ HI _ _ Hc).
      erewrite filter_ext_in; [reflexivity|].
      intros b Hb. unfold goes_to.
      destruct (first_active (eliminated e) (ranking b)) as [c0|] eqn:E.
      * assert (c0 <> last) by (intros ->; now apply (Hnone b Hb)).
        fold elim. unfold elim.
        now rewrite (first_active_add_other _ _ _ _ E H1).
      * unfold elim. now rewrite (first_active_add_None _ last _ E).
    + intros b c Hb Hc. unfold elim in Hc.
      apply first_active_add_inv in Hc. destruct Hc as [Hcl [Hc|Hc]].
      * apply keys_del_other; auto. eapply (inv_home _ HI); eauto.
      * now apply Hnone in Hc.
  - destruct (transfer_loop_spec _ _ _ _ _ _ Ht) as [Hk [Hget [Hhome _]]].
    destruct (Hcommon d Hk) as [C1 [C2 [C3 C4]]].
    constructor; cbn [with_round candidates eliminated ballots number_of_candidates]; auto.
    + intros c l0 Hc.
      assert (c <> last).
      { intros ->. rewrite get_del_same in Hc; [discriminate|]. now rewrite Hk. }
      rewrite get_del_other in Hc by assumption.
      rewrite Hget in Hc.
      destruct (Dict.get c (candidates e)) as [l1|] eqn:G; [|discriminate].
      simpl in Hc. injection Hc as <-. unfold elim.
      rewrite (filter_goes_to_split (eliminated e) last c (ballots e) H0).
      apply Permutation_app.
      * now apply (inv_held _ HI).
      * apply Permutation_filter. now apply (inv_held _ HI).
    + intros b c Hb Hc. pose proof Hc as Hc'. unfold elim in Hc'.
      apply first_active_add_inv in Hc'. destruct Hc' as [Hcl [Hc'|Hc']].
      * apply keys_del_other; auto. rewrite Hk. eapply (inv_home _ HI); eauto.
      * apply keys_del_other; auto. rewrite Hk.
        apply (Hhome b c); auto.
        apply (Permutation_in b (Permutation_sym (inv_held _ HI _ _ Hg))).
        apply filter_In. split; auto. unfold goes_to. rewrite Hc'.
        apply String.eqb_refl.
Qed.

Lemma boundary_Inv bs cs e l :
  boundary (Election_init bs cs) e l -> Inv e.
Proof.
  induction 1 as [e1 H|e l r e' l' _ IH _ H].
  - now apply start_Inv in H.
  - eapply round_Inv; eauto.
Qed.

(** ** Counting the ballots *)

Lemma list_sum_map_add (A : Type) (f g : A -> nat) (l : list A) :
  list_sum (map (fun x => f x + g x) l) = list_sum (map f l) + list_sum (map g l).
Proof.
  induction l as [|x l IH]; simpl; auto. rewrite IH. lia.
Qed.

Lemma list_sum_map_zero (A : Type) (f : A -> nat) (l : list A) :
  (forall x, In x l -> f x = 0) -> list_sum (map f l) = 0.
Proof.
  induction l as [|x l IH]; simpl; auto. intros H.
  rewrite (H x), IH; auto.
Qed.

Lemma sum_indicator (c0 : candidate) (ks : list candidate) :
  NoDup ks -> In c0 ks ->
  list_sum (map (fun c : candidate => if String.eqb c0 c then 1 else 0) ks) = 1.
Proof.
  induction 1 as [|k ks Hk Hnd IH]; simpl; [tauto|].
  intros [->|Hin].
  - rewrite String.eqb_refl. rewrite list_sum_map_zero; auto.
    intros x Hx. destruct (String.eqb_spec c0 x); [subst; contradiction|reflexivity].
  - destruct (String.eqb_spec c0 k); [congruence|]. simpl. auto.
Qed.

Lemma goes_to_count elim (ks : list candidate) (bs : list Ballot) :
  NoDup ks ->
  (forall b c, In b bs -> first_active elim (ranking b) = Some c -> In c ks) ->
  list_sum (map (fun c => length (filter (goes_to elim c) bs)) ks) +
  length (filter (exhausted elim) bs) = length bs.
Proof.
  intros Hnd. induction bs as [|b bs IH]; intros Hhome.
  - simpl. rewrite list_sum_map_zero; auto.
  - assert (IH' := IH (fun b' c Hb => Hhome b' c (or_intror Hb))). clear IH.
    assert (E : forall c, length (filter (goes_to elim c) (b :: bs)) =
                  (if goes_to elim c b then 1 else 0) +
                  length (filter (goes_to elim c) bs)).
    { intros c. simpl. now destruct (goes_to elim c b). }
    rewrite (map_ext _ _ E), list_sum_map_add. simpl length at 3.
    simpl filter. unfold exhausted at 1, goes_to at 1.
    destruct (first_active elim (ranking b)) as [c0|] eqn:F; cbn beta iota.
    + rewrite (sum_indicator c0 ks Hnd) by (eapply Hhome; [now left|eauto]).
      destruct (forallb (is_eliminated elim) (ranking b)) eqn:G.
      * apply first_active_None in G. congruence.
      * fold (exhausted elim). lia.
    + rewrite list_sum_map_zero by auto.
      apply first_active_None in F. rewrite F. simpl length.
      fold (exhausted elim). lia.
Qed.

Lemma assigned_filter e :
  Inv e ->
  assigned (candidates e) =
  list_sum (map (fun c => length (filter (goes_to (eliminated e) c) (ballots e)))
                (Dict.keys (candidates e))).
Proof.
  intros HI. unfold assigned, Dict.keys. rewrite map_map. f_equal.
  apply map_ext_in. intros [c l] Hin. simpl.
  apply Permutation_length. apply (inv_held _ HI).
  apply In_get; auto. apply (inv_keys _ HI).
Qed.

Lemma Inv_conservation e :
  Inv e -> assigned (candidates e) + exhausted_count e = length (ballots e).
Proof.
  intros HI. rewrite (assigned_filter _ HI). unfold exhausted_count.
  apply goes_to_count.
  - apply (inv_keys _ HI).
  - apply (inv_home _ HI).
Qed.

(** C2: at every round boundary of a run of [single_winner_rcv], the ballots
    assigned to the active candidates and the exhausted ballots add up to the
    number of ballots of the election. *)
Theorem conservation bs cs e l :
  boundary (Election_init bs cs) e l ->
  assigned (candidates e) + exhausted_count e = length (ballots e) /\
  ballots e = bs.
Proof.
  intros H. split.
  - apply Inv_conservation. eapply boundary_Inv; eauto.
  - induction H as [e1 H|e l r e' l' _ IH _ H].
    + apply start_inversion in H. destruct H as [d [_ ->]]. reflexivity.
    + destruct (round_inversion _ _ _ _ _ H) as [last [held [_ [_ Hc]]]].
      cbv zeta in Hc.
      destruct Hc as [[_ [_ ->]]|[_ [_ [d [tr [ls1 [ls2 [_ [_ [_ ->]]]]]]]]]];
        exact IH.
Qed.

(** ** Each round eliminates one active candidate *)

Lemma round_eliminates e l r e' l' :
  Inv e -> round e l r = Ok (e', l') ->
  exists last,
    resolve_tie_random e r = Ok last /\
    In last (Dict.keys (candidates e)) /\
    ~ In last (eliminated e) /\
    eliminated e' = eliminated e ++ [last] /\
    number_of_candidates e' = number_of_candidates e /\
    ballots e' = ballots e /\
    forall c, In c (Dict.keys (candidates e')) <->
              In c (Dict.keys (candidates e)) /\ c <> last.
Proof.
  intros HI H. destruct (round_inversion _ _ _ _ _ H)
    as [last [held [Hl [Hg Hcase]]]]. cbv zeta in Hcase.
  destruct (Inv_get_last _ _ _ HI Hl) as [held' [_ [_ Hne]]].
  pose proof (inv_keys _ HI) as Hnd.
  exists last. split; [exact Hl|]. split; [eauto using get_In_keys|].
  split; [exact Hne|].
  assert (Hkeys : forall d : Dict.t (list Ballot),
            Dict.keys d = Dict.keys (candidates e) ->
            forall c, In c (Dict.keys (Dict.del last d)) <->
                      In c (Dict.keys (candidates e)) /\ c <> last).
  { intros d Hk c. rewrite <- Hk. split.
    - intros Hc. split; [eapply keys_del_incl; eauto|].
      intros ->. apply keys_del_notin in Hc; auto. now rewrite Hk.
    - intros [Hc Hcl]. now apply keys_del_other. }
  destruct Hcase as [[_ [_ ->]]|[_ [_ [d [tr [ls1 [ls2 [Ht [_ [_ ->]]]]]]]]]];
    cbn [with_round eliminated number_of_candidates ballots candidates].
  - rewrite set_add_app by assumption. do 3 (split; [reflexivity|]).
    now apply Hkeys.
  - rewrite set_add_app by assumption.
    destruct (transfer_loop_spec _ _ _ _ _ _ Ht) as [Hk _].
    do 3 (split; [reflexivity|]). now apply Hkeys.
Qed.

Lemma loop_guard_true e :
  loop_guard e = true <-> S (length (eliminated e)) < number_of_candidates e.
Proof.
  unfold loop_guard. rewrite Z.ltb_lt. lia.
Qed.

Lemma loop_terminates fuel : forall e l rng,
  Inv e ->
  number_of_candidates e - 1 - length (eliminated e) <= fuel ->
  exists k out,
    loop fuel e l rng = Some (k, out) /\
    k <= number_of_candidates e - 1 - length (eliminated e) /\
    forall e', out = Ok e' ->
      length (eliminated e') = length (eliminated e) + k /\
      loop_guard e' = false /\ Inv e' /\ ballots e' = ballots e /\
      number_of_candidates e' = number_of_candidates e.
Proof.
  induction fuel as [|fuel IH]; intros e l rng HI Hf.
  - destruct (loop_guard e) eqn:G.
    + apply loop_guard_true in G. lia.
    + exists 0, (Ok e). simpl. rewrite G. split; [reflexivity|]. split; [lia|].
      intros e' [= <-]. auto.
  - simpl. destruct (loop_guard e) eqn:G.
    + pose proof (proj1 (loop_guard_true e) G) as G'.
      destruct (round e l (hd 0 rng)) as [[e1 l1]|x] eqn:R.
      * destruct (round_eliminates _ _ _ _ _ HI R)
          as [last [_ [_ [_ [He [Hn [Hb _]]]]]]].
        assert (Hlen : length (eliminated e1) = S (length (eliminated e))).
        { rewrite He, length_app. simpl. lia. }
        destruct (IH e1 l1 (tl rng) (round_Inv _ _ _ _ _ HI R)) as [k [out [Hk [Hle Hout]]]].
        { lia. }
        rewrite Hk. exists (S k), out. split; [reflexivity|]. split; [lia|].
        intros e' E. destruct (Hout e' E) as [A [B [C [D F]]]].
        split; [lia|]. split; [exact B|]. split; [exact C|].
        split; congruence.
      * exists 1, (Raise x). split; [reflexivity|]. split; [lia|]. discriminate.
    + exists 0, (Ok e). split; [reflexivity|]. split; [lia|].
      intros e' [= <-]. auto.
Qed.

Lemma loop_fuel_mono fuel : forall e l rng res,
  loop fuel e l rng = Some res ->
  forall fuel', fuel <= fuel' -> loop fuel' e l rng = Some res.
Proof.
  induction fuel as [|fuel IH]; intros e l rng res H fuel' Hle.
  - simpl in H. destruct (loop_guard e) eqn:G; [discriminate|].
    destruct fuel'; simpl; now rewrite G.
  - destruct fuel' as [|fuel']; [lia|]. simpl in *.
    destruct (loop_guard e); [|exact H].
    destruct (round e l (hd 0 rng)) as [[e1 l1]|x]; [|exact H].
    destruct (loop fuel e1 l1 (tl rng)) as [[k out]|] eqn:E; [|discriminate].
    rewrite (IH _ _ _ _ E fuel') by lia. exact H.
Qed.

Lemma boundary_facts bs cs e l :
  boundary (Election_init bs cs) e l ->
  Inv e /\
  number_of_candidates e = length (candidates (Election_init bs cs)) /\
  ballots e = bs.
Proof.
  intros H. split; [eapply boundary_Inv; eauto|].
  induction H as [e1 H|e l r e' l' Hb IH _ H].
  - apply start_inversion in H. destruct H as [d [_ ->]]. auto.
  - destruct (round_eliminates _ _ _ _ _ (boundary_Inv _ _ _ _ Hb) H)
      as [last [_ [_ [_ [_ [Hn [Hbs _]]]]]]].
    destruct IH. split; congruence.
Qed.

(** C3: a run on at least one registered candidate ends after at most
    [total_candidate_count - 1] rounds, and every round adds to the eliminated
    set one candidate that was active and not yet eliminated. *)
Theorem termination_and_monotone_elimination bs cs rng :
  cs <> [] ->
  let e0 := Election_init bs cs in
  let total_candidate_count := length (candidates e0) in
  (exists k out,
     single_winner_rcv e0 rng = Some (k, out) /\
     (Z.of_nat k <= Z.of_nat total_candidate_count - 1)%Z /\
     forall fuel, total_candidate_count <= fuel ->
       single_winner_rcv_fuel fuel e0 rng = Some (k, out)) /\
  (forall e l r e' l',
     boundary e0 e l -> loop_guard e = true -> round e l r = Ok (e', l') ->
     number_of_candidates e = total_candidate_count /\
     exists last,
       In last (Dict.keys (candidates e)) /\
       ~ In last (eliminated e) /\
       eliminated e' = eliminated e ++ [last] /\
       length (eliminated e') = S (length (eliminated e)) /\
       NoDup (eliminated e') /\
       ~ In last (Dict.keys (candidates e'))).
Proof.
  intros Hcs e0 n. split.
  - assert (Hn : 1 <= n).
    { destruct cs as [|c cs']; [congruence|].
      destruct (init_candidates_spec (c :: cs') [] (NoDup_nil _) (Forall_nil _))
        as [_ [_ Hin]]. cbv zeta in Hin.
      destruct (In_keys_get _ _ c (proj2 (Hin c) (or_intror (or_introl eq_refl))))
        as [v Hv].
      apply get_In in Hv. unfold n, e0. cbn [candidates Election_init].
      destruct (fold_left _ (c :: cs') _); [destruct Hv|simpl; lia]. }
    unfold single_winner_rcv, single_winner_rcv_fuel. fold n.
    destruct (start e0) as [e1|x] eqn:Hs.
    + destruct (start_Inv _ _ _ Hs) as [HI _].
      destruct (start_inversion _ _ _ Hs) as [d [_ He1]].
      assert (Hn1 : number_of_candidates e1 = n) by (rewrite He1; reflexivity).
      assert (Hel : eliminated e1 = []) by (rewrite He1; reflexivity).
      destruct (loop_terminates n e1 1 rng HI) as [k [out [Hk [Hle _]]]].
      { rewrite Hn1, Hel. simpl. lia. }
      rewrite Hk. eexists k, _. split; [reflexivity|]. split.
      * rewrite Hn1, Hel in Hle. simpl in Hle. lia.
      * intros fuel Hfuel. now rewrite (loop_fuel_mono _ _ _ _ _ Hk fuel Hfuel).
    + exists 0, (Raise x). split; [reflexivity|]. split; [lia|]. reflexivity.
  - intros e l r e' l' Hb Hg Hr.
    destruct (boundary_facts _ _ _ _ Hb) as [HI [Hn _]]. split; [exact Hn|].
    destruct (round_eliminates _ _ _ _ _ HI Hr)
      as [last [_ [Hin [Hne [He [_ [_ Hk]]]]]]].
    exists last. split; [exact Hin|]. split; [exact Hne|]. split; [exact He|].
    split; [rewrite He, length_app; simpl; lia|]. split.
    + apply (inv_elim _ (round_Inv _ _ _ _ _ HI Hr)).
    + rewrite Hk. tauto.
Qed.

(** ** Transfers *)

Lemma goes_to_true elim c b :
  goes_to elim c b = true <-> first_active elim (ranking b) = Some c.
Proof.
  unfold goes_to. destruct (first_active elim (ranking b)) as [c0|].
  - rewrite String.eqb_eq. split; congruence.
  - split; discriminate.
Qed.

Lemma Inv_holder e c lc b :
  Inv e -> Dict.get c (candidates e) = Some lc -> In b lc ->
  first_active (eliminated e) (ranking b) = Some c.
Proof.
  intros HI Hg Hb. apply goes_to_true.
  apply (Permutation_in b (inv_held _ HI _ _ Hg)) in Hb.
  apply filter_In in Hb. tauto.
Qed.

(** C1: in a round of a run that eliminates a candidate holding the non-empty
    list [B], every ballot of [B] is appended to the list of the first
    candidate of its ranking that is not eliminated, and afterwards is held by
    that candidate and no other; a ballot whose ranking is wholly eliminated
    is held by no active candidate and is exhausted. *)
Theorem transfer_correctness bs cs e l r e' l' last B :
  boundary (Election_init bs cs) e l ->
  loop_guard e = true ->
  round e l r = Ok (e', l') ->
  resolve_tie_random e r = Ok last ->
  Dict.get last (candidates e) = Some B ->
  B <> [] ->
  eliminated e' = eliminated e ++ [last] /\
  (forall c lc, c <> last -> Dict.get c (candidates e) = Some lc ->
     Dict.get c (candidates e') =
     Some (lc ++ filter (goes_to (eliminated e') c) B)) /\
  forall b, In b B ->
    match first_active (eliminated e') (ranking b) with
    | Some c =>
        exhausted (eliminated e') b = false /\
        (exists lc, Dict.get c (candidates e') = Some lc /\ In b lc) /\
        (forall c' lc', Dict.get c' (candidates e') = Some lc' -> In b lc' -> c' = c)
    | None =>
        exhausted (eliminated e') b = true /\
        (forall c' lc', Dict.get c' (candidates e') = Some lc' -> ~ In b lc')
    end.
Proof.
  intros Hb Hguard Hr Hl Hg HB.
  pose proof (boundary_Inv _ _ _ _ Hb) as HI.
  pose proof (round_Inv _ _ _ _ _ HI Hr) as HI'.
  destruct (round_eliminates _ _ _ _ _ HI Hr)
    as [last' [Hl' [Hin [Hne [He _]]]]].
  assert (last' = last) by congruence. subst last'. clear Hl'.
  split; [exact He|].
  destruct (round_inversion _ _ _ _ _ Hr) as [last' [held [Hl' [Hg' Hcase]]]].
  assert (last' = last) by congruence. subst last'.
  assert (held = B) by congruence. subst held. cbv zeta in Hcase.
  destruct Hcase as [[-> _]|[_ [_ [d [tr [ls1 [ls2 [Ht [_ [_ Ee']]]]]]]]]];
    [congruence|].
  destruct (transfer_loop_spec _ _ _ _ _ _ Ht) as [Hk [Hget [Hhome _]]].
  assert (Hel : eliminated e' = set_add string_dec last (eliminated e)).
  { rewrite Ee'. reflexivity. }
  assert (Hcand : forall c, c <> last ->
            Dict.get c (candidates e') =
            option_map (fun lc => lc ++ filter (goes_to (eliminated e') c) B)
                       (Dict.get c (candidates e))).
  { intros c Hc. rewrite Hel, <- Hget, Ee'. cbn [with_round candidates].
    now apply get_del_other. }
  split.
  - intros c lc Hc Hgc. rewrite (Hcand c Hc), Hgc. reflexivity.
  - intros b HbB.
    destruct (first_active (eliminated e') (ranking b)) as [c|] eqn:F.
    + split; [|split].
      * unfold exhausted. destruct (forallb _ _) eqn:G; auto.
        apply first_active_None in G. congruence.
      * assert (Hcl : c <> last).
        { rewrite Hel in F. now apply first_active_add_inv in F. }
        assert (Hck : In c (Dict.keys (candidates e))).
        { apply (Hhome b c HbB). now rewrite <- Hel. }
        destruct (In_keys_get _ _ _ Hck) as [lc Hlc].
        eexists. split.
        -- rewrite (Hcand c Hcl), Hlc. reflexivity.
        -- apply in_or_app. right. apply filter_In. split; auto.
           now apply goes_to_true.
      * intros c' lc' Hg1 Hb1.
        pose proof (Inv_holder _ _ _ _ HI' Hg1 Hb1). congruence.
    + split.
      * unfold exhausted. now apply first_active_None.
      * intros c' lc' Hg1 Hb1.
        pose proof (Inv_holder _ _ _ _ HI' Hg1 Hb1). congruence.
Qed.

(** ** The flow graph *)

Lemma node_eqb_eq a b : node_eqb a b = true <-> a = b.
Proof.
  unfold node_eqb. destruct a as [n1 l1 v1], b as [n2 l2 v2]. simpl.
  rewrite !andb_true_iff, String.eqb_eq, Nat.eqb_eq. split.
  - intros [[-> ->] H]. f_equal.
    destruct v1, v2; simpl in H; try discriminate; auto.
    apply Nat.eqb_eq in H. now subst.
  - intros [= -> -> ->]. repeat split; auto.
    destruct v2; simpl; auto. apply Nat.eqb_refl.
Qed.

Lemma index_In x ns : In x ns -> exists i, index x ns = Ok i.
Proof.
  induction ns as [|y ns IH]; simpl; [tauto|]. intros H.
  destruct (node_eqb y x) eqn:E; eauto.
  destruct H as [->|H].
  - assert (node_eqb x x = true) by now apply node_eqb_eq. congruence.
  - destruct (IH H) as [i ->]. simpl. eauto.
Qed.

Lemma get_starting_values (d : Dict.t (list Ballot)) c :
  Dict.get c (starting_values_of d) = option_map (@length Ballot) (Dict.get c d).
Proof.
  induction d as [|[k v] d IH]; simpl; auto.
  destruct (String.eqb c k); auto.
Qed.

Lemma fake_node_from_first c v :
  fake_node_from c (1 + 1) v = {| name := c; layer := 1; value := Some v |}.
Proof. reflexivity. Qed.

Lemma fake_node_from_later c l v :
  2 <= l -> fake_node_from c (l + 1) v = {| name := c; layer := l; value := None |}.
Proof.
  intros H. unfold fake_node_from. rewrite Nat.add_sub.
  destruct (Nat.ltb_spec (l + 1) 3); [lia|reflexivity].
Qed.

Lemma for_each_self_link_length ns sv last l ks : forall acc ls,
  ~ In last ks ->
  for_each (self_link ns sv last l) ks acc = Ok ls ->
  length ls = length acc + length ks.
Proof.
  induction ks as [|c ks IH]; simpl; intros acc ls Hn H.
  - injection H as <-. lia.
  - unfold self_link at 1 in H.
    destruct (String.eqb_spec c last) as [->|Hc]; [tauto|]. cbn [negb] in H.
    destruct (if l <? 3 then lookup c sv else Ok 0) as [v|]; [|discriminate].
    cbn [bind] in H.
    destruct (index (fake_node_from c l v) ns) as [i|]; [|discriminate].
    cbn [bind] in H.
    destruct (index (fake_node_to c l) ns) as [j|]; [|discriminate].
    cbn [bind] in H.
    destruct (lookup c sv) as [w|]; [|discriminate]. cbn [bind] in H.
    apply IH in H; [|tauto]. rewrite H, length_app. simpl. lia.
Qed.

Lemma for_each_real_link_length ns sv last l tr : forall acc ls,
  for_each (real_link ns sv last l) tr acc = Ok ls ->
  length ls = length acc + length tr.
Proof.
  induction tr as [|[c n] tr IH]; simpl; intros acc ls H.
  - injection H as <-. lia.
  - destruct (if l <? 3 then lookup last sv else Ok 0) as [v|]; [|discriminate].
    cbn [bind] in H.
    destruct (index (fake_node_from last l v) ns) as [i|]; [|discriminate].
    cbn [bind] in H.
    destruct (index (fake_node_to c l) ns) as [j|]; [|discriminate].
    cbn [bind] in H.
    apply IH in H. rewrite H, length_app. simpl. lia.
Qed.

Lemma for_each_self_link_total ns sv last l ks : forall acc,
  (forall c, In c ks ->
     exists v, lookup c sv = Ok v /\
               In (fake_node_from c l v) ns /\ In (fake_node_to c l) ns) ->
  exists ls, for_each (self_link ns sv last l) ks acc = Ok ls.
Proof.
  induction ks as [|c ks IH]; simpl; intros acc H; eauto.
  unfold self_link at 1.
  destruct (negb (String.eqb c last)); [|cbn [bind]; apply IH; auto].
  destruct (H c (or_introl eq_refl)) as [v [Hv [Hf Ht]]].
  rewrite Hv.
  assert (Hf' : exists i, index (fake_node_from c l
                   (match (if l <? 3 then Ok v else Ok 0) with
                    | Ok v' => v' | Raise _ => 0 end)) ns = Ok i).
  { apply index_In. unfold fake_node_from in *.
    destruct (l <? 3); exact Hf. }
  destruct (index_In _ _ Ht) as [j Hj].
  destruct (l <? 3); destruct Hf' as [i Hi]; cbn [bind]; rewrite Hi; cbn [bind];
    rewrite Hj; cbn [bind]; apply IH; auto.
Qed.

Lemma for_each_real_link_total ns sv last l tr : forall acc,
  (exists v, lookup last sv = Ok v /\ In (fake_node_from last l v) ns) ->
  (forall c, In c (Dict.keys tr) -> In (fake_node_to c l) ns) ->
  exists ls, for_each (real_link ns sv last l) tr acc = Ok ls.
Proof.
  induction tr as [|[c n] tr IH]; simpl; intros acc Hlast H; eauto.
  destruct Hlast as [v [Hv Hf]]. rewrite Hv.
  assert (Hf' : exists i, index (fake_node_from last l
                   (match (if l <? 3 then Ok v else Ok 0) with
                    | Ok v' => v' | Raise _ => 0 end)) ns = Ok i).
  { apply index_In. unfold fake_node_from in *.
    destruct (l <? 3); exact Hf. }
  destruct (index_In _ _ (H c (or_introl eq_refl))) as [j Hj].
  destruct (l <? 3); destruct Hf' as [i Hi]; cbn [bind]; rewrite Hi; cbn [bind];
    rewrite Hj; cbn [bind]; apply IH; eauto.
Qed.

Lemma new_nodes_In elim (d : Dict.t (list Ballot)) l c :
  In c (Dict.keys d) -> ~ In c elim ->
  In {| name := c; layer := l; value := None |} (new_nodes elim d l).
Proof.
  intros Hc Hn. unfold new_nodes.
  change {| name := c; layer := l; value := None |}
    with ((fun c : candidate => {| name := c; layer := l; value := None |}) c).
  apply in_map. apply filter_In. split; auto.
  destruct (is_eliminated elim c) eqn:E; auto.
  apply is_eliminated_iff in E. contradiction.
Qed.

Lemma new_nodes_length elim (d : Dict.t (list Ballot)) l :
  (forall c, In c (Dict.keys d) -> ~ In c elim) ->
  length (new_nodes elim d l) = length d.
Proof.
  intros H. unfold new_nodes. rewrite length_map.
  rewrite forallb_filter_id.
  - apply length_map.
  - apply forallb_forall. intros c Hc.
    destruct (is_eliminated elim c) eqn:E; auto.
    apply is_eliminated_iff in E. now apply H in E.
Qed.

Lemma graph_ready_layer e l : graph_ready e l -> 1 <= l.
Proof. intros [[-> _]|[H _]]; lia. Qed.

Lemma round_graph_ready e l r e' l' :
  Inv e -> graph_ready e l -> round e l r = Ok (e', l') -> graph_ready e' l'.
Proof.
  intros HI HG H. pose proof (round_Inv _ _ _ _ _ HI H) as HI'.
  pose proof (graph_ready_layer _ _ HG) as Hl1.
  destruct (round_inversion _ _ _ _ _ H) as [last [held [Hl [Hg Hcase]]]].
  cbv zeta in Hcase. pose proof (inv_keys _ HI) as Hnd.
  destruct Hcase as [[-> [-> ->]]|[Hheld [-> [d [tr [ls1 [ls2 [Ht [_ [_ Ee']]]]]]]]]].
  - destruct HG as [[-> HG]|[Hl2 HG]]; [left|right];
      (split; [auto|]); cbn [with_round candidates nodes].
    + intros c lc Hc Hlc. apply HG; auto.
      assert (c <> last).
      { intros ->. rewrite get_del_same in Hc by assumption. discriminate. }
      now rewrite get_del_other in Hc.
    + intros c Hc. apply HG. eapply keys_del_incl; eauto.
  - right. split; [lia|]. intros c Hc. rewrite Ee' in *.
    cbn [with_round candidates nodes eliminated] in *.
    apply in_or_app. right. apply new_nodes_In; auto.
    now apply (inv_disj _ HI').
Qed.

Lemma boundary_graph_ready bs cs e l :
  boundary (Election_init bs cs) e l -> graph_ready e l.
Proof.
  induction 1 as [e1 H|e l r e' l' Hb IH _ H].
  - now apply start_Inv in H.
  - eapply round_graph_ready; eauto. eapply boundary_Inv; eauto.
Qed.

Lemma boundary_registered bs cs e l :
  boundary (Election_init bs cs) e l ->
  forall c, In c cs <-> In c (Dict.keys (candidates e)) \/ In c (eliminated e).
Proof.
  induction 1 as [e1 H|e l r e' l' Hb IH _ H]; intros c.
  - destruct (start_inversion _ _ _ H) as [d [Ha ->]].
    destruct (assign_loop_spec _ _ _ Ha) as [Hk _].
    destruct (init_candidates_spec cs [] (NoDup_nil _) (Forall_nil _))
      as [_ [_ Hin]]. cbv zeta in Hin.
    cbn [candidates eliminated]. rewrite Hk. cbn [candidates Election_init].
    rewrite Hin. simpl. tauto.
  - destruct (round_eliminates _ _ _ _ _ (boundary_Inv _ _ _ _ Hb) H)
      as [last [_ [Hin [_ [He [_ [_ Hk]]]]]]].
    rewrite IH, Hk, He, in_app_iff. simpl.
    destruct (string_dec c last) as [->|Hne]; intuition (auto; congruence).
Qed.

(** A round cannot fail when every ranked candidate is active or eliminated. *)
Lemma round_total e l r :
  Inv e -> graph_ready e l -> candidates e <> [] ->
  (forall b c, In b (ballots e) -> In c (ranking b) ->
     In c (Dict.keys (candidates e)) \/ In c (eliminated e)) ->
  exists e' l', round e l r = Ok (e', l').
Proof.
  intros HI HG Hne Hreg.
  destruct (resolve_tie_random_total e r Hne) as [last Hl].
  destruct (Inv_get_last _ _ _ HI Hl) as [held [Hg [Hmin Hnl]]].
  unfold round. rewrite Hl. cbn [bind]. rewrite Hg.
  destruct held as [|b0 held0]; [simpl; eauto|].
  change (length (b0 :: held0) =? 0) with false. cbv iota.
  remember (b0 :: held0) as held eqn:Eheld.
  assert (Hpos : 0 < length held) by (subst held; simpl; lia).
  set (elim := set_add string_dec last (eliminated e)).
  assert (Hhome : forall b c, In b held ->
            first_active elim (ranking b) = Some c ->
            In c (Dict.keys (candidates e))).
  { intros b c Hb Hc. apply first_active_not_eliminated in Hc.
    destruct Hc as [Hc1 Hc2].
    assert (In b (ballots e)).
    { apply (Permutation_in b (inv_held _ HI _ _ Hg)) in Hb.
      apply filter_In in Hb. tauto. }
    destruct (Hreg b c H Hc1) as [?|Hce]; auto.
    exfalso. apply Hc2. unfold elim. apply set_add_iff. auto. }
  destruct (transfer_loop_total elim held (candidates e) [] Hhome) as [d [tr Ht]].
  match goal with
  | |- context [bind ?t _] =>
      assert (Ht' : t = Ok (d, tr)) by exact Ht; rewrite Ht'; clear Ht'
  end.
  cbn [bind fst snd].
  destruct (transfer_loop_spec _ _ _ _ _ _ Ht) as [Hk [_ [_ Htr]]].
  fold (starting_values_of (candidates e)).
  fold (new_nodes elim (Dict.del last d) (l + 1)).
  set (sv := starting_values_of (candidates e)).
  set (ns := nodes e ++ new_nodes elim (Dict.del last d) (l + 1)).
  assert (Hnd : NoDup (Dict.keys d)) by (rewrite Hk; apply (inv_keys _ HI)).
  assert (Hfrom : forall c, In c (Dict.keys (candidates e)) ->
            exists v, lookup c sv = Ok v /\ In (fake_node_from c (l + 1) v) ns).
  { intros c Hc. destruct (In_keys_get _ _ _ Hc) as [lc Hlc].
    exists (length lc). unfold lookup, sv. rewrite get_starting_values, Hlc.
    split; [reflexivity|]. apply in_or_app. left.
    destruct HG as [[-> HG]|[Hl2 HG]].
    - rewrite fake_node_from_first. apply HG; auto.
      intros ->. pose proof (min_tally_le (candidates e) c Hc) as Hle.
      unfold tally in Hle. rewrite Hlc in Hle. rewrite <- Hmin in Hle.
      simpl in Hle. lia.
    - rewrite fake_node_from_later by assumption. now apply HG. }
  assert (Hto : forall c, In c (Dict.keys (candidates e)) -> c <> last ->
            In (fake_node_to c (l + 1)) ns).
  { intros c Hc Hcl. apply in_or_app. right. apply new_nodes_In.
    - apply keys_del_other; auto. now rewrite Hk.
    - unfold elim. rewrite set_add_iff. intros [?|Hce]; [contradiction|].
      now apply (inv_disj _ HI) in Hce. }
  destruct (for_each_self_link_total ns sv last (l + 1)
              (Dict.keys (Dict.del last d)) []) as [ls1 H1].
  { intros c Hc.
    assert (Hcl : c <> last) by (intros ->; now apply keys_del_notin in Hc).
    apply keys_del_incl in Hc. rewrite Hk in Hc.
    destruct (Hfrom c Hc) as [v [Hv Hf]]. exists v. auto. }
  rewrite H1. cbn [bind].
  destruct (for_each_real_link_total ns sv last (l + 1) tr ls1) as [ls2 H2].
  { apply Hfrom. eauto using get_In_keys. }
  { intros c Hc. destruct (Htr c Hc) as [[]|[Hc1 Hc2]].
    apply Hto; [exact Hc1|].
    intros ->. apply Hc2. apply set_add_iff. auto. }
  rewrite H2. cbn [bind]. eauto.
Qed.

(** C9: a round of a run that eliminates a candidate without ballots removes
    it from the active mapping, adds it to the eliminated set and leaves the
    other lists, the nodes and the links as they were; a round that
    eliminates a candidate with ballots appends nodes and links, and it
    cannot fail when the ballots rank registered candidates only. *)
Theorem zero_ballot_round_frame bs cs e l r last held :
  boundary (Election_init bs cs) e l ->
  loop_guard e = true ->
  resolve_tie_random e r = Ok last ->
  Dict.get last (candidates e) = Some held ->
  (held = [] ->
   exists e',
     round e l r = Ok (e', l) /\
     candidates e' = Dict.del last (candidates e) /\
     ~ In last (Dict.keys (candidates e')) /\
     eliminated e' = eliminated e ++ [last] /\
     (forall c, c <> last ->
        Dict.get c (candidates e') = Dict.get c (candidates e)) /\
     nodes e' = nodes e /\ links e' = links e /\ ballots e' = ballots e) /\
  (held <> [] ->
   (forall e' l', round e l r = Ok (e', l') ->
      l' = l + 1 /\
      exists ns ls, ns <> [] /\ ls <> [] /\
        nodes e' = nodes e ++ ns /\ links e' = links e ++ ls) /\
   (ballots_valid bs cs -> exists e' l', round e l r = Ok (e', l'))).
Proof.
  intros Hb Hguard Hl Hg.
  destruct (boundary_facts _ _ _ _ Hb) as [HI [Hn Hbs]].
  pose proof (inv_keys _ HI) as Hnd.
  destruct (Inv_get_last _ _ _ HI Hl) as [held' [Hg' [_ Hne]]].
  split.
  - intros ->. unfold round. rewrite Hl. cbn [bind]. rewrite Hg. cbn [length Nat.eqb].
    eexists. split; [reflexivity|]. cbn [candidates eliminated nodes links ballots].
    split; [reflexivity|]. split; [now apply keys_del_notin|].
    split; [now apply set_add_app|].
    split; [intros c Hc; now apply get_del_other|]. auto.
  - intros Hheld. split.
    + intros e' l' Hr. pose proof (round_Inv _ _ _ _ _ HI Hr) as HI'.
      destruct (round_inversion _ _ _ _ _ Hr) as [last' [held'' [Hl' [Hg'' Hcase]]]].
      assert (last' = last) by congruence. subst last'.
      assert (held'' = held) by congruence. subst held''. cbv zeta in Hcase.
      destruct Hcase as [[-> _]|[_ [-> [d [tr [ls1 [ls2 [Ht [H1 [H2 Ee']]]]]]]]]];
        [congruence|].
      subst e'. split; [reflexivity|].
      destruct (transfer_loop_spec _ _ _ _ _ _ Ht) as [Hk _].
      assert (Hpos : 1 <= length (Dict.del last d)).
      { pose proof (inv_count _ HI') as Hc.
        cbn [with_round candidates eliminated number_of_candidates] in Hc.
        rewrite set_add_length in Hc by assumption.
        apply loop_guard_true in Hguard. lia. }
      exists (new_nodes (set_add string_dec last (eliminated e)) (Dict.del last d) (l + 1)), ls2.
      split; [|split; [|split; reflexivity]].
      * intros E. apply (f_equal (@length Node)) in E.
        rewrite new_nodes_length in E; [simpl in E; lia|].
        intros c Hc. apply (inv_disj _ HI'). exact Hc.
      * intros E. apply for_each_real_link_length in H2.
        apply for_each_self_link_length in H1.
        -- rewrite E, H1 in H2. unfold Dict.keys in H2.
           rewrite length_map in H2. simpl in H2. lia.
        -- apply keys_del_notin. now rewrite Hk.
    + intros Hvalid. apply round_total; auto.
      * now apply (boundary_graph_ready bs cs).
      * intros E. rewrite E in Hg. discriminate.
      * intros b c Hbin Hc. apply (boundary_registered _ _ _ _ Hb).
        rewrite Hbs in Hbin. now apply (Hvalid b Hbin).
Qed.

(** ** The states of a completed loop are round boundaries *)

Lemma loop_boundary e0 fuel : forall e l rng k e',
  boundary e0 e l ->
  loop fuel e l rng = Some (k, Ok e') ->
  exists l', boundary e0 e' l' /\ loop_guard e' = false.
Proof.
  induction fuel as [|fuel IH]; intros e l rng k e' Hb H; simpl in H.
  - destruct (loop_guard e) eqn:G; [discriminate|].
    injection H as _ <-. eauto.
  - destruct (loop_guard e) eqn:G.
    + destruct (round e l (hd 0 rng)) as [[e1 l1]|x] eqn:R; [|discriminate].
      destruct (loop fuel e1 l1 (tl rng)) as [[k1 out]|] eqn:L; [|discriminate].
      injection H as _ ->. eapply IH; [|exact L].
      eapply boundary_round; eauto.
    + injection H as _ <-. eauto.
Qed.

Lemma single_winner_rcv_inversion e0 rng k e' :
  single_winner_rcv e0 rng = Some (k, Ok e') ->
  exists e2 l w,
    boundary e0 e2 l /\ loop_guard e2 = false /\
    Dict.keys (candidates e2) = w :: tl (Dict.keys (candidates e2)) /\
    e' = {| ballots := ballots e2;
            candidates := candidates e2;
            winner := Some w;
            eliminated := eliminated e2;
            number_of_candidates := number_of_candidates e2;
            nodes := nodes e2;
            links := links e2 |}.
Proof.
  unfold single_winner_rcv, single_winner_rcv_fuel.
  destruct (start e0) as [e1|x] eqn:Hs; [|discriminate].
  destruct (loop _ e1 1 rng) as [[k1 out]|] eqn:L; [|discriminate].
  destruct out as [e2|x]; [|discriminate]. cbn [bind]. unfold finish.
  destruct (Dict.keys (candidates e2)) as [|w ks] eqn:K; [discriminate|].
  intros [= _ <-].
  destruct (loop_boundary e0 _ _ _ _ _ _ (boundary_start e0 e1 Hs) L) as [l' [Hb Hg]].
  exists e2, l', w. rewrite K. auto.
Qed.

(** ** Nodes and their values *)

Lemma node_ok_mono l l' nd : l <= l' -> node_ok l nd -> node_ok l' nd.
Proof. unfold node_ok. intros H [H1 H2]. split; [lia|exact H2]. Qed.

Lemma boundary_nodes bs cs e l :
  boundary (Election_init bs cs) e l ->
  1 <= l /\ Forall (node_ok l) (nodes e).
Proof.
  induction 1 as [e1 H|e l r e' l' Hb [IH1 IH2] _ H].
  - split; [lia|]. apply start_inversion in H. destruct H as [d [_ ->]].
    cbn [nodes]. apply Forall_forall. intros nd Hnd.
    apply in_map_iff in Hnd. destruct Hnd as [kv [<- _]].
    unfold node_ok. simpl. split; [lia|]. split; auto. discriminate.
  - destruct (round_inversion _ _ _ _ _ H) as [last [held [_ [_ Hcase]]]].
    cbv zeta in Hcase.
    destruct Hcase as [[_ [-> ->]]|[_ [-> [d [tr [ls1 [ls2 [_ [_ [_ ->]]]]]]]]]];
      cbn [with_round nodes].
    + auto.
    + split; [lia|]. apply Forall_app. split.
      * eapply Forall_impl; [|exact IH2]. intros nd. apply node_ok_mono. lia.
      * apply Forall_forall. intros nd Hnd. unfold new_nodes in Hnd.
        apply in_map_iff in Hnd. destruct Hnd as [c [<- _]].
        unfold node_ok. simpl. split; [lia|]. split; [congruence|lia].
Qed.

(** C7, as amended: every node of the flow graph carries a name and a layer,
    and it carries a value exactly when its layer is 1, at every round
    boundary and in the graph that a run leaves; the nodes that a round
    appends are at a layer from 2 on and carry no value. *)
Theorem node_value_only_first_layer bs cs e l :
  boundary (Election_init bs cs) e l ->
  1 <= l /\
  Forall (fun nd => 1 <= layer nd <= l /\ (value nd <> None <-> layer nd = 1))
         (nodes e) /\
  (forall r e' l', round e l r = Ok (e', l') ->
     exists ns, nodes e' = nodes e ++ ns /\
       Forall (fun nd => layer nd = l' /\ 2 <= layer nd /\ value nd = None) ns) /\
  (forall rng k e',
     single_winner_rcv (Election_init bs cs) rng = Some (k, Ok e') ->
     Forall (fun nd => 1 <= layer nd /\ (value nd <> None <-> layer nd = 1))
            (nodes e')).
Proof.
  intros Hb. destruct (boundary_nodes _ _ _ _ Hb) as [H1 H2].
  split; [exact H1|]. split; [exact H2|]. split.
  - intros r e' l' H.
    destruct (round_inversion _ _ _ _ _ H) as [last [held [_ [_ Hcase]]]].
    cbv zeta in Hcase.
    destruct Hcase as [[_ [-> ->]]|[_ [-> [d [tr [ls1 [ls2 [_ [_ [_ ->]]]]]]]]]];
      cbn [with_round nodes].
    + exists []. split; [now rewrite app_nil_r|constructor].
    + eexists. split; [reflexivity|].
      apply Forall_forall. intros nd Hnd. unfold new_nodes in Hnd.
      apply in_map_iff in Hnd. destruct Hnd as [c [<- _]]. simpl.
      repeat split; lia.
  - intros rng k e' Hrun.
    destruct (single_winner_rcv_inversion _ _ _ _ Hrun)
      as [e2 [l2 [w [Hb2 [_ [_ ->]]]]]]. cbn [nodes].
    destruct (boundary_nodes _ _ _ _ Hb2) as [_ H3].
    eapply Forall_impl; [|exact H3]. unfold node_ok. intros nd [[Ha _] Hc].
    split; assumption.
Qed.

(** C7: in the run on two candidates the node appended at layer 2 has no
    key ["value"]. *)
Lemma layer_two_node_without_value :
  exists e nd,
    single_winner_rcv two_candidates [0] = Some (1, Ok e) /\
    In nd (nodes e) /\ layer nd = 2 /\ value nd = None.
Proof.
  eexists. exists {| name := "A"; layer := 2; value := None |}.
  split; [vm_compute; reflexivity|]. simpl. auto.
Qed.

(** ** Degenerate elections *)

Lemma assign_loop_single a bs : forall held,
  (forall b, In b bs -> exists rest, ranking b = a :: rest) ->
  assign_loop bs [(a, held)] = Ok [(a, held ++ bs)].
Proof.
  induction bs as [|b bs IH]; simpl; intros held H.
  - now rewrite app_nil_r.
  - destruct (H b (or_introl eq_refl)) as [rest Hr].
    unfold assign_one. rewrite Hr. unfold Dict.mem. simpl.
    rewrite String.eqb_refl. simpl. rewrite IH by auto.
    now rewrite <- app_assoc.
Qed.

Lemma assign_loop_no_candidates bs :
  bs <> [] -> exists x, assign_loop bs [] = @Raise (Dict.t (list Ballot)) x.
Proof.
  destruct bs as [|b bs]; [congruence|]. intros _. simpl. unfold assign_one.
  destruct (ranking b); simpl; eauto.
Qed.

(** C5, as amended: with no candidate registered the run raises an exception
    ([IndexError] when there is no ballot); with one candidate registered
    that every ballot ranks first, it ends without a round and with that
    candidate as the winner. *)
Theorem degenerate_elections bs rng :
  (exists x, single_winner_rcv (Election_init bs []) rng = Some (0, Raise x) /\
             (bs = [] -> x = IndexError)) /\
  (forall a cs,
     Dict.keys (candidates (Election_init bs cs)) = [a] ->
     (forall b, In b bs -> exists rest, ranking b = a :: rest) ->
     exists e',
       single_winner_rcv (Election_init bs cs) rng = Some (0, Ok e') /\
       winner e' = Some a /\ eliminated e' = [] /\
       candidates e' = [(a, bs)] /\ links e' = []).
Proof.
  split.
  - unfold single_winner_rcv, single_winner_rcv_fuel, start, assign_ballots.
    cbn [Election_init fold_left candidates ballots].
    destruct bs as [|b bs].
    + exists IndexError. split; reflexivity.
    + destruct (assign_loop_no_candidates (b :: bs)) as [x Hx]; [discriminate|].
      rewrite Hx. exists x. split; [reflexivity|discriminate].
  - intros a cs Hk Hfirst.
    destruct (init_candidates_spec cs [] (NoDup_nil _) (Forall_nil _))
      as [_ [Hall _]]. cbv zeta in Hall.
    assert (Hc : candidates (Election_init bs cs) = [(a, [])]).
    { cbn [candidates Election_init] in *. revert Hk Hall.
      generalize (fold_left (fun (d : Dict.t (list Ballot)) c => Dict.set c [] d)
                            cs []).
      intros d Hk Hall. destruct d as [|[k v] [|? ?]]; try discriminate.
      inversion Hall; subst. simpl in *. congruence. }
    unfold single_winner_rcv, single_winner_rcv_fuel, start, assign_ballots.
    rewrite Hc. cbn [ballots Election_init].
    rewrite (assign_loop_single a bs [] Hfirst). simpl.
    eexists. split; [reflexivity|]. simpl. auto.
Qed.

Lemma degenerate_elections_witness :
  (exists x, single_winner_rcv (Election_init [] []) [] = Some (0, Raise x) /\
             (@nil Ballot = [] -> x = IndexError)) /\
  exists e',
    single_winner_rcv (Election_init [bal ["A"]; bal ["A"]] ["A"]) [] =
      Some (0, Ok e') /\
    winner e' = Some "A" /\ eliminated e' = [] /\
    candidates e' = [("A", [bal ["A"]; bal ["A"]])] /\ links e' = [].
Proof.
  split.
  - exact (proj1 (degenerate_elections [] [])).
  - apply (proj2 (degenerate_elections [bal ["A"]; bal ["A"]] []) "A" ["A"]).
    + reflexivity.
    + intros b [<-|[<-|[]]]; eexists; reflexivity.
Defined.

(** C5: with no candidate and no ballot the run raises [IndexError], not an
    exception named NoCandidatesError; with the one candidate A and a ballot
    that ranks B first it raises [KeyError]. *)
Lemma no_candidates_counterexample :
  (exists x, single_winner_rcv (Election_init [] []) [] = Some (0, Raise x) /\
             exn_name x <> "NoCandidatesError") /\
  single_winner_rcv (Election_init [bal ["B"; "A"]] ["A"]) [] =
    Some (0, Raise KeyError).
Proof.
  split; [|reflexivity].
  exists IndexError. split; [reflexivity|discriminate].
Qed.

(** ** The status report *)

Lemma repr_exhausted_is_assigned e :
  st_exhausted (repr_status e) = Z.of_nat (assigned (candidates e)).
Proof. unfold repr_status. simpl. lia. Qed.

(** C6: after the run on the candidate A and one ballot for A, no ballot is
    exhausted and the ballot is assigned to A, yet the report gives 1 as the
    number of exhausted ballots: the number of assigned ballots. *)
Theorem repr_reports_assigned_as_exhausted :
  single_winner_rcv (Election_init [bal ["A"]] ["A"]) [] =
    Some (0, Ok one_ballot_done) /\
  repr_status one_ballot_done =
    {| st_candidates := 1; st_ballots := 1; st_remaining := 1; st_exhausted := 1 |} /\
  (Z.of_nat (length (ballots one_ballot_done))
   - Z.of_nat (assigned (candidates one_ballot_done)) = 0)%Z /\
  exhausted_count one_ballot_done = 0.
Proof. repeat split. Qed.

(** ** The shuffle *)

Lemma riffle_one (A : Type) (x : A) rng : riffle [x] rng = Ok ([x], tl rng, 0).
Proof. reflexivity. Qed.

Lemma riffle_count (A : Type) (item x : list A) rng rng' k :
  riffle item rng = Ok (x, rng', k) ->
  k = ceil_shuffles (length item) (hd 0 rng mod length item) /\
  (x, rng') = shuffle_times k item (tl rng).
Proof.
  unfold riffle. destruct (length item) eqn:E; [discriminate|].
  destruct (shuffle_times _ item (tl rng)) as [x' r'] eqn:S.
  intros [= <- <- <-]. auto.
Qed.

Lemma add_candidates_empty rng e : add_candidates [] rng e = Raise ValueError.
Proof. reflexivity. Qed.

(** C8: on the empty sequence [math.log2(0)] raises [ValueError], so the
    shuffle utility does not return. *)
Theorem riffle_empty_raises (A : Type) (rng : list nat) :
  riffle (@nil A) rng = Raise ValueError.
Proof. reflexivity. Qed.

(** ** Ballot weights are never read *)

Section WeightFree.
Variable f : Ballot -> Ballot.
Hypothesis f_ranking : forall b, ranking (f b) = ranking b.

Lemma keys_map_dict d : Dict.keys (map_dict f d) = Dict.keys d.
Proof. unfold Dict.keys, map_dict. rewrite map_map. reflexivity. Qed.

Lemma get_map_dict d c :
  Dict.get c (map_dict f d) = option_map (map f) (Dict.get c d).
Proof.
  induction d as [|[k v] d IH]; simpl; auto. destruct (String.eqb c k); auto.
Qed.

Lemma mem_map_dict d c : Dict.mem c (map_dict f d) = Dict.mem c d.
Proof. unfold Dict.mem. rewrite get_map_dict. now destruct (Dict.get c d). Qed.

Lemma tally_map_dict d c : tally (map_dict f d) c = tally d c.
Proof.
  unfold tally. rewrite get_map_dict.
  destruct (Dict.get c d); simpl; auto. apply length_map.
Qed.

Lemma update_map_dict d c b :
  Dict.update c (fun l => l ++ [f b]) (map_dict f d) =
  map_dict f (Dict.update c (fun l => l ++ [b]) d).
Proof.
  induction d as [|[k v] d IH]; simpl; auto.
  destruct (String.eqb c k); simpl.
  - now rewrite map_app.
  - now rewrite IH.
Qed.

Lemma del_map_dict d c : Dict.del c (map_dict f d) = map_dict f (Dict.del c d).
Proof.
  induction d as [|[k v] d IH]; simpl; auto.
  destruct (String.eqb c k); simpl; congruence.
Qed.

Lemma starting_values_map_dict d :
  starting_values_of (map_dict f d) = starting_values_of d.
Proof.
  unfold starting_values_of, map_dict. rewrite map_map. apply map_ext.
  intros [k v]. simpl. now rewrite length_map.
Qed.

Lemma assign_loop_map bs : forall d,
  assign_loop (map f bs) (map_dict f d) =
  map_result (map_dict f) (assign_loop bs d).
Proof.
  induction bs as [|b bs IH]; simpl; intros d; auto.
  unfold assign_one. rewrite f_ranking. destruct (ranking b) as [|c rk]; auto.
  rewrite mem_map_dict. destruct (Dict.mem c d); auto. simpl.
  rewrite update_map_dict. apply IH.
Qed.

Lemma start_map e :
  start (map_election f e) = map_result (map_election f) (start e).
Proof.
  unfold start, assign_ballots. cbn [map_election ballots candidates].
  rewrite assign_loop_map. destruct (assign_loop (ballots e) (candidates e)); auto.
  cbn [bind map_result map_election ballots candidates winner eliminated
       number_of_candidates nodes links].
  unfold map_election. cbn [ballots candidates winner eliminated
       number_of_candidates nodes links]. f_equal. f_equal.
  - unfold map_dict. now rewrite !length_map.
  - f_equal. unfold map_dict. induction t as [|[k v] t IH]; simpl; auto.
    rewrite length_map. destruct (0 <? length v); simpl; rewrite ?length_map;
      now rewrite IH.
Qed.

Lemma insert_by_ext k1 k2 x l :
  (forall c, k1 c = k2 c) -> insert_by k1 x l = insert_by k2 x l.
Proof.
  intros H. induction l as [|y l IH]; simpl; auto.
  rewrite !H, IH. reflexivity.
Qed.

Lemma sorted_ext k1 k2 l : (forall c, k1 c = k2 c) -> sorted k1 l = sorted k2 l.
Proof.
  intros H. induction l as [|x l IH]; simpl; auto.
  rewrite IH. now apply insert_by_ext.
Qed.

Lemma fold_left_ext (A B : Type) (g h : A -> B -> A) l :
  (forall a x, g a x = h a x) -> forall a, fold_left g l a = fold_left h l a.
Proof.
  intros H. induction l as [|x l IH]; simpl; auto. intros a. now rewrite H, IH.
Qed.

Lemma tied_candidates_map e :
  tied_candidates (map_election f e) = tied_candidates e.
Proof.
  unfold tied_candidates, sort_candidates. cbn [map_election candidates].
  rewrite keys_map_dict.
  rewrite (sorted_ext (sort_key (map_dict f (candidates e)))
                      (sort_key (candidates e)))
    by (intros c; unfold sort_key; now rewrite tally_map_dict).
  destruct (rev _) as [|first rest]; auto.
  f_equal. apply fold_left_ext. intros tied c. now rewrite !tally_map_dict.
Qed.

Lemma resolve_tie_random_map e r :
  resolve_tie_random (map_election f e) r = resolve_tie_random e r.
Proof. unfold resolve_tie_random. now rewrite tied_candidates_map. Qed.

Lemma transfer_loop_map elim held : forall d (tr : Dict.t nat),
  transfer_loop elim (map f held) (map_dict f d, tr) =
  map_result (fun acc => (map_dict f (fst acc), snd acc))
             (transfer_loop elim held (d, tr)).
Proof.
  induction held as [|b held IH]; simpl; intros d tr; auto.
  rewrite f_ranking. destruct (first_active elim (ranking b)) as [c|]; simpl.
  - rewrite mem_map_dict. destruct (Dict.mem c d); auto. simpl.
    rewrite update_map_dict. apply IH.
  - apply IH.
Qed.

Lemma round_map e l r :
  round (map_election f e) l r =
  map_result (fun el => (map_election f (fst el), snd el)) (round e l r).
Proof.
  unfold round. rewrite resolve_tie_random_map.
  destruct (resolve_tie_random e r) as [last|]; auto. cbn [bind].
  cbn [map_election candidates eliminated ballots winner number_of_candidates
       nodes links].
  rewrite get_map_dict. destruct (Dict.get last (candidates e)) as [held|]; auto.
  cbn [option_map]. rewrite length_map.
  destruct (length held =? 0).
  - cbn [map_result fst snd]. unfold map_election.
    cbn [candidates eliminated ballots winner number_of_candidates nodes links].
    now rewrite del_map_dict.
  - fold (starting_values_of (map_dict f (candidates e))).
    fold (starting_values_of (candidates e)).
    rewrite starting_values_map_dict.
    match goal with
    | |- context [bind ?t _] =>
        assert (Ht : t = map_result (fun acc => (map_dict f (fst acc), snd acc))
                           (transfer_loop
                              (set_add string_dec last (eliminated e)) held
                              (candidates e, [])))
          by apply transfer_loop_map;
        rewrite Ht; clear Ht
    end.
    match goal with
    | |- context [map_result _ ?t] => destruct t as [[d tr]|x]
    end; auto.
    cbn [map_result bind fst snd]. rewrite del_map_dict, keys_map_dict.
    destruct (for_each (self_link _ _ _ _) _ _) as [ls1|]; auto. cbn [bind].
    destruct (for_each (real_link _ _ _ _) _ _) as [ls2|]; auto.
Qed.

Lemma loop_guard_map e : loop_guard (map_election f e) = loop_guard e.
Proof. reflexivity. Qed.

Lemma loop_map fuel : forall e l rng,
  loop fuel (map_election f e) l rng =
  option_map (fun ko => (fst ko, map_result (map_election f) (snd ko)))
             (loop fuel e l rng).
Proof.
  induction fuel as [|fuel IH]; intros e l rng; simpl; rewrite loop_guard_map.
  - now destruct (loop_guard e).
  - destruct (loop_guard e); auto. rewrite round_map.
    destruct (round e l (hd 0 rng)) as [[e1 l1]|x]; auto.
    cbn [map_result fst snd]. rewrite IH.
    destruct (loop fuel e1 l1 (tl rng)) as [[k out]|]; auto.
Qed.

Lemma finish_map e :
  finish (map_election f e) = map_result (map_election f) (finish e).
Proof.
  unfold finish. cbn [map_election candidates]. rewrite keys_map_dict.
  destruct (Dict.keys (candidates e)); auto.
Qed.

Lemma single_winner_rcv_map e rng :
  single_winner_rcv (map_election f e) rng =
  option_map (fun ko => (fst ko, map_result (map_election f) (snd ko)))
             (single_winner_rcv e rng).
Proof.
  unfold single_winner_rcv, single_winner_rcv_fuel. rewrite start_map.
  cbn [map_election candidates]. unfold map_dict at 1. rewrite length_map.
  destruct (start e) as [e1|x]; auto. cbn [map_result]. rewrite loop_map.
  destruct (loop _ e1 1 rng) as [[k out]|]; auto. cbn [option_map fst snd].
  destruct out as [e2|x]; auto. cbn [map_result bind]. now rewrite finish_map.
Qed.

Lemma observe_map e : observe (map_election f e) = observe e.
Proof.
  unfold observe. cbn [map_election candidates eliminated winner nodes links].
  f_equal. unfold map_dict. rewrite map_map. apply map_ext.
  intros [k v]. simpl. now rewrite length_map.
Qed.

Lemma droop_map e seats : droop (map_election f e) seats = droop e seats.
Proof.
  unfold droop. cbn [map_election winner candidates ballots].
  destruct (winner e) as [w|]; auto. rewrite get_map_dict.
  destruct (Dict.get w (candidates e)); auto. simpl. now rewrite !length_map.
Qed.

Lemma init_map bs cs :
  map_election f (Election_init bs cs) = Election_init (map f bs) cs.
Proof.
  unfold map_election, Election_init.
  cbn [ballots candidates winner eliminated number_of_candidates nodes links].
  f_equal.
  assert (H : forall acc : Dict.t (list Ballot),
            map_dict f (fold_left (fun d c => Dict.set c [] d) cs acc) =
            fold_left (fun d c => Dict.set c [] d) cs (map_dict f acc)).
  { induction cs as [|c cs' IH]; simpl; auto. intros acc. rewrite IH. f_equal.
    induction acc as [|[k v] acc IHa]; simpl; auto.
    destruct (String.eqb c k); simpl; congruence. }
  apply (H []).
Qed.
End WeightFree.

Lemma erase_weight_ranking b : ranking (erase_weight b) = ranking b.
Proof. reflexivity. Qed.

Lemma observe_run_map f o :
  observe_run
    (option_map (fun ko : nat * result Election =>
                   (fst ko, map_result (map_election f) (snd ko))) o) =
  observe_run o.
Proof.
  destruct o as [[k [e|x]]|]; simpl; auto. now rewrite observe_map.
Qed.

Lemma droop_run_map f o seats :
  droop_run
    (option_map (fun ko : nat * result Election =>
                   (fst ko, map_result (map_election f) (snd ko))) o) seats =
  droop_run o seats.
Proof.
  destruct o as [[k [e|x]]|]; simpl; auto. now rewrite droop_map.
Qed.

Lemma map_erase_weight bs1 bs2 :
  map ranking bs1 = map ranking bs2 ->
  map erase_weight bs1 = map erase_weight bs2.
Proof.
  intros H.
  assert (E : forall bs, map erase_weight bs =
                         map (mkBallot 1) (map ranking bs)).
  { intros bs. rewrite map_map. reflexivity. }
  now rewrite !E, H.
Qed.

(** C10: two elections whose ballots have the same rankings in the same
    order, run on the same random integers, end with the same tallies, the
    same eliminated sequence, the same winner, the same flow graph and the
    same answer of [droop]; and every round does the same on a state whose
    ballots have lost their weights. *)
Theorem weights_never_read bs1 bs2 cs rng seats :
  map ranking bs1 = map ranking bs2 ->
  observe_run (single_winner_rcv (Election_init bs1 cs) rng) =
  observe_run (single_winner_rcv (Election_init bs2 cs) rng) /\
  droop_run (single_winner_rcv (Election_init bs1 cs) rng) seats =
  droop_run (single_winner_rcv (Election_init bs2 cs) rng) seats /\
  forall e l r,
    map_result (fun el => (observe (fst el), snd el))
               (round (map_election erase_weight e) l r) =
    map_result (fun el => (observe (fst el), snd el)) (round e l r).
Proof.
  intros H. apply map_erase_weight in H.
  assert (E : forall bs,
    single_winner_rcv (Election_init (map erase_weight bs) cs) rng =
    option_map (fun ko => (fst ko, map_result (map_election erase_weight) (snd ko)))
               (single_winner_rcv (Election_init bs cs) rng)).
  { intros bs. rewrite <- init_map.
    apply single_winner_rcv_map. exact erase_weight_ranking. }
  split; [|split].
  - rewrite <- (observe_run_map erase_weight (single_winner_rcv (Election_init bs1 cs) rng)).
    rewrite <- (observe_run_map erase_weight (single_winner_rcv (Election_init bs2 cs) rng)).
    now rewrite <- !E, H.
  - rewrite <- (droop_run_map erase_weight (single_winner_rcv (Election_init bs1 cs) rng)).
    rewrite <- (droop_run_map erase_weight (single_winner_rcv (Election_init bs2 cs) rng)).
    now rewrite <- !E, H.
  - intros e l r. rewrite (round_map erase_weight erase_weight_ranking).
    destruct (round e l r) as [[e1 l1]|x]; simpl; auto.
    now rewrite observe_map.
Qed.

(** ** A run on valid ballots returns a winner *)

Lemma start_total bs cs :
  ballots_valid bs cs -> exists e1, start (Election_init bs cs) = Ok e1.
Proof.
  intros Hv.
  destruct (init_candidates_spec cs [] (NoDup_nil _) (Forall_nil _))
    as [_ [_ Hin]]. cbv zeta in Hin.
  destruct (assign_loop_total bs (candidates (Election_init bs cs))) as [d Hd].
  { intros b Hb. destruct (Hv b Hb) as [Hne Hreg].
    destruct (ranking b) as [|f rest] eqn:Hr; [congruence|].
    exists f, rest. split; [reflexivity|].
    cbn [candidates Election_init]. apply Hin. right. apply Hreg. now left. }
  unfold start, assign_ballots. cbn [ballots Election_init] in *.
  cbn [candidates] in *. rewrite Hd. cbn [bind]. eauto.
Qed.

Lemma boundary_active bs cs e l :
  cs <> [] -> boundary (Election_init bs cs) e l -> candidates e <> [].
Proof.
  intros Hcs Hb. destruct (boundary_facts _ _ _ _ Hb) as [HI [Hn _]].
  pose proof (inv_count _ HI) as Hc.
  assert (Hpos : 1 <= length (candidates e)).
  { destruct Hb as [e1 H|e l r e' l' Hb Hg H].
    - destruct (start_inversion _ _ _ H) as [d [Ha ->]].
      cbn [candidates eliminated number_of_candidates] in *. simpl in Hc.
      destruct cs as [|c cs']; [congruence|].
      destruct (init_candidates_spec (c :: cs') [] (NoDup_nil _) (Forall_nil _))
        as [_ [_ Hin]]. cbv zeta in Hin.
      destruct (In_keys_get _ _ c (proj2 (Hin c) (or_intror (or_introl eq_refl))))
        as [v Hv]. apply get_In in Hv. cbn [candidates Election_init] in Hc.
      destruct (fold_left _ (c :: cs') _); [destruct Hv|simpl in Hc; lia].
    - destruct (boundary_facts _ _ _ _ Hb) as [HI0 [Hn0 _]].
      destruct (round_eliminates _ _ _ _ _ HI0 H)
        as [last [_ [_ [_ [He [Hn' _]]]]]].
      apply loop_guard_true in Hg. rewrite He, length_app in Hc. simpl in Hc. lia. }
  intros E. rewrite E in Hpos. simpl in Hpos. lia.
Qed.

Lemma loop_returns bs cs fuel : forall e l rng,
  ballots_valid bs cs ->
  boundary (Election_init bs cs) e l ->
  number_of_candidates e - 1 - length (eliminated e) <= fuel ->
  exists k e', loop fuel e l rng = Some (k, Ok e').
Proof.
  induction fuel as [|fuel IH]; intros e l rng Hv Hb Hf.
  - simpl. destruct (loop_guard e) eqn:G; eauto.
    apply loop_guard_true in G. lia.
  - simpl. destruct (loop_guard e) eqn:G; eauto.
    destruct (boundary_facts _ _ _ _ Hb) as [HI [_ Hbs]].
    destruct (round_total e l (hd 0 rng) HI (boundary_graph_ready _ _ _ _ Hb))
      as [e1 [l1 R]].
    + pose proof (inv_count _ HI) as Hc. apply loop_guard_true in G.
      intros E. rewrite E in Hc. simpl in Hc. lia.
    + intros b c Hbin Hc. apply (boundary_registered _ _ _ _ Hb).
      rewrite Hbs in Hbin. now apply (Hv b Hbin).
    + rewrite R.
      destruct (round_eliminates _ _ _ _ _ HI R)
        as [last [_ [_ [_ [He [Hn _]]]]]].
      destruct (IH e1 l1 (tl rng) Hv) as [k [e' Hk]].
      * eapply boundary_round; eauto.
      * rewrite He, length_app, Hn. simpl. lia.
      * rewrite Hk. eauto.
Qed.

(** When some candidate is registered and the ballots rank registered
    candidates only, the run returns, with the first remaining candidate as
    the winner. *)
Lemma single_winner_rcv_returns bs cs rng :
  cs <> [] -> ballots_valid bs cs ->
  exists k e' w,
    single_winner_rcv (Election_init bs cs) rng = Some (k, Ok e') /\
    winner e' = Some w /\ In w cs /\ ~ In w (eliminated e').
Proof.
  intros Hcs Hv. destruct (start_total bs cs Hv) as [e1 Hs].
  pose proof (boundary_start _ _ Hs) as Hb1.
  destruct (start_inversion _ _ _ Hs) as [d [_ He1]].
  destruct (loop_returns bs cs (length (candidates (Election_init bs cs)))
              e1 1 rng Hv Hb1) as [k [e2 Hl]].
  { rewrite He1. simpl. lia. }
  destruct (loop_boundary _ _ _ _ _ _ _ Hb1 Hl) as [l2 [Hb2 _]].
  pose proof (boundary_active _ _ _ _ Hcs Hb2) as Hne.
  unfold single_winner_rcv, single_winner_rcv_fuel. rewrite Hs, Hl.
  cbn [bind]. unfold finish.
  destruct (candidates e2) as [|[w lw] rest] eqn:Hc; [congruence|].
  cbn [Dict.keys map fst]. exists k. eexists. exists w.
  split; [reflexivity|]. cbn [winner eliminated]. split; [reflexivity|].
  assert (Hw : In w (Dict.keys (candidates e2))) by (rewrite Hc; now left).
  split.
  - apply (boundary_registered _ _ _ _ Hb2). now left.
  - apply (inv_disj _ (boundary_Inv _ _ _ _ Hb2)). exact Hw.
Qed.

(** ** The statements at the example elections *)

Lemma transfer_correctness_witness :
  eliminated exhausting_round2 = eliminated exhausting_round1 ++ ["B"] /\
  Dict.get "A" (candidates exhausting_round2) =
    Some ([bal ["A"]; bal ["A"]] ++
          filter (goes_to (eliminated exhausting_round2) "A")
                 [bal ["B"; "A"]; bal ["B"; "A"]]) /\
  match first_active (eliminated exhausting_round2) (ranking (bal ["B"; "A"])) with
  | Some c =>
      exhausted (eliminated exhausting_round2) (bal ["B"; "A"]) = false /\
      (exists lc, Dict.get c (candidates exhausting_round2) = Some lc /\
                  In (bal ["B"; "A"]) lc) /\
      (forall c' lc', Dict.get c' (candidates exhausting_round2) = Some lc' ->
                      In (bal ["B"; "A"]) lc' -> c' = c)
  | None =>
      exhausted (eliminated exhausting_round2) (bal ["B"; "A"]) = true /\
      (forall c' lc', Dict.get c' (candidates exhausting_round2) = Some lc' ->
                      ~ In (bal ["B"; "A"]) lc')
  end.
Proof.
  destruct (transfer_correctness exhausting_ballots exhausting_candidates
              exhausting_round1 2 0 exhausting_round2 3 "B"
              [bal ["B"; "A"]; bal ["B"; "A"]]) as [H1 [H2 H3]].
  - apply (boundary_round exhausting exhausting_start 1 0).
    + apply boundary_start. reflexivity.
    + reflexivity.
    + reflexivity.
  - reflexivity.
  - reflexivity.
  - reflexivity.
  - reflexivity.
  - discriminate.
  - split; [exact H1|]. split.
    + apply H2; [discriminate|reflexivity].
    + apply H3. simpl. auto.
Defined.

Lemma conservation_witness :
  assigned (candidates exhausting_round1) + exhausted_count exhausting_round1 =
    length (ballots exhausting_round1) /\
  ballots exhausting_round1 = exhausting_ballots.
Proof.
  apply (conservation exhausting_ballots exhausting_candidates exhausting_round1 2).
  apply (boundary_round exhausting exhausting_start 1 0).
  - apply boundary_start. reflexivity.
  - reflexivity.
  - reflexivity.
Defined.

Lemma termination_and_monotone_elimination_witness :
  exists k out,
    single_winner_rcv exhausting [0; 0] = Some (k, out) /\
    (Z.of_nat k <= Z.of_nat (length (candidates exhausting)) - 1)%Z /\
    forall fuel, length (candidates exhausting) <= fuel ->
      single_winner_rcv_fuel fuel exhausting [0; 0] = Some (k, out).
Proof.
  refine (proj1 (termination_and_monotone_elimination
                   exhausting_ballots exhausting_candidates [0; 0] _)).
  discriminate.
Defined.

Lemma zero_ballot_round_frame_witness :
  (exists e',
     round two_without_ballots_start 1 0 = Ok (e', 1) /\
     candidates e' = Dict.del "B" (candidates two_without_ballots_start) /\
     ~ In "B" (Dict.keys (candidates e')) /\
     eliminated e' = eliminated two_without_ballots_start ++ ["B"] /\
     (forall c, c <> "B" ->
        Dict.get c (candidates e') =
        Dict.get c (candidates two_without_ballots_start)) /\
     nodes e' = nodes two_without_ballots_start /\
     links e' = links two_without_ballots_start /\
     ballots e' = ballots two_without_ballots_start) /\
  (exists e' l', round exhausting_round1 2 0 = Ok (e', l')).
Proof.
  split.
  - refine (proj1 (zero_ballot_round_frame
                     [bal ["C"]; bal ["C"]] ["A"; "B"; "C"]
                     two_without_ballots_start 1 0 "B" [] _ _ _ _) eq_refl).
    + apply boundary_start. reflexivity.
    + reflexivity.
    + reflexivity.
    + reflexivity.
  - refine (proj2 (proj2 (zero_ballot_round_frame
                     exhausting_ballots exhausting_candidates
                     exhausting_round1 2 0 "B"
                     [bal ["B"; "A"]; bal ["B"; "A"]] _ _ _ _) _) _).
    + apply (boundary_round exhausting exhausting_start 1 0).
      * apply boundary_start. reflexivity.
      * reflexivity.
      * reflexivity.
    + reflexivity.
    + reflexivity.
    + reflexivity.
    + discriminate.
    + intros b Hb. split.
      * simpl in Hb. intuition (subst; discriminate).
      * intros c Hc. simpl in Hb. unfold exhausting_candidates.
        intuition (subst; simpl in Hc; intuition (subst; simpl; auto)).
Defined.

Lemma node_value_only_first_layer_witness :
  1 <= 2 /\
  Forall (fun nd => 1 <= layer nd <= 2 /\ (value nd <> None <-> layer nd = 1))
         (nodes exhausting_round1).
Proof.
  destruct (node_value_only_first_layer exhausting_ballots exhausting_candidates
              exhausting_round1 2) as [H1 [H2 _]].
  - apply (boundary_round exhausting exhausting_start 1 0).
    + apply boundary_start. reflexivity.
    + reflexivity.
    + reflexivity.
  - split; [exact H1|exact H2].
Defined.

Lemma weights_never_read_witness :
  observe_run (single_winner_rcv
                 (Election_init exhausting_ballots exhausting_candidates) [0; 0]) =
  observe_run (single_winner_rcv
                 (Election_init heavy_ballots exhausting_candidates) [0; 0]) /\
  droop_run (single_winner_rcv
               (Election_init exhausting_ballots exhausting_candidates) [0; 0]) 1 =
  droop_run (single_winner_rcv
               (Election_init heavy_ballots exhausting_candidates) [0; 0]) 1.
Proof.
  destruct (weights_never_read exhausting_ballots heavy_ballots
              exhausting_candidates [0; 0] 1 eq_refl) as [H1 [H2 _]].
  split; [exact H1|exact H2].
Defined.

(** * Further properties of the code *)

(** ** [sort_candidates] *)

Lemma insert_by_filter key t x l :
  filter (fun c => (key c =? t)%Z) (insert_by key x l) =
  filter (fun c => (key c =? t)%Z) (x :: l).
Proof.
  induction l as [|y l IH]; [reflexivity|]. cbn [insert_by].
  destruct (Z.leb_spec (key x) (key y)) as [Hle|Hgt]; [reflexivity|].
  cbn [filter] in *. rewrite IH.
  destruct (Z.eqb_spec (key x) t), (Z.eqb_spec (key y) t); try reflexivity. lia.
Qed.

Lemma sorted_filter key t l :
  filter (fun c => (key c =? t)%Z) (sorted key l) =
  filter (fun c => (key c =? t)%Z) l.
Proof.
  induction l as [|x l IH]; [reflexivity|]. cbn [sorted fold_right].
  fold (sorted key l). rewrite insert_by_filter. cbn [filter]. now rewrite IH.
Qed.

Lemma StronglySorted_weaken (A : Type) (R S : A -> A -> Prop) l :
  (forall a b, R a b -> S a b) -> StronglySorted R l -> StronglySorted S l.
Proof.
  intros H. induction 1; constructor; auto.
  eapply Forall_impl; [|eassumption]. auto.
Qed.

(** X1: [sort_candidates] returns the active candidates, each once, by
    decreasing number of ballots, and candidates with the same number of
    ballots keep the order in which they were registered. *)
Theorem sort_candidates_stable e :
  Permutation (sort_candidates e) (Dict.keys (candidates e)) /\
  StronglySorted (fun a b => tally (candidates e) b <= tally (candidates e) a)
                 (sort_candidates e) /\
  forall t,
    filter (fun c => tally (candidates e) c =? t) (sort_candidates e) =
    filter (fun c => tally (candidates e) c =? t) (Dict.keys (candidates e)).
Proof.
  split; [apply sorted_perm|]. split.
  - eapply StronglySorted_weaken; [|apply sorted_sorted].
    unfold sort_key. intros a b H. simpl in H. lia.
  - intros t. unfold sort_candidates.
    pose proof (sorted_filter (sort_key (candidates e)) (- Z.of_nat t)
                  (Dict.keys (candidates e))) as H.
    erewrite (filter_ext _ (fun c => (sort_key (candidates e) c =? - Z.of_nat t)%Z)).
    + rewrite H. apply filter_ext. intros c. unfold sort_key.
      destruct (Nat.eqb_spec (tally (candidates e) c) t),
               (Z.eqb_spec (- Z.of_nat (tally (candidates e) c)) (- Z.of_nat t));
        try reflexivity; lia.
    + intros c. unfold sort_key.
      destruct (Nat.eqb_spec (tally (candidates e) c) t),
               (Z.eqb_spec (- Z.of_nat (tally (candidates e) c)) (- Z.of_nat t));
        try reflexivity; lia.
Qed.

(** ** The constructor *)

Lemma mem_keys_mem_str (V : Type) (d : Dict.t V) c :
  Dict.mem c d = mem_str c (Dict.keys d).
Proof.
  apply eq_true_iff_eq. rewrite mem_true_iff, mem_str_iff. tauto.
Qed.

Lemma init_keys_fold cs : forall acc : Dict.t (list Ballot),
  Dict.keys (fold_left (fun d c => Dict.set c [] d) cs acc) =
  fold_left (fun acc c => if mem_str c acc then acc else acc ++ [c])
            cs (Dict.keys acc).
Proof.
  induction cs as [|c cs IH]; intros acc; [reflexivity|]. cbn [fold_left].
  rewrite IH, keys_set, mem_keys_mem_str. reflexivity.
Qed.

Lemma init_registers_facts bs cs :
  let e := Election_init bs cs in
  Dict.keys (candidates e) = first_occurrences cs /\
  NoDup (Dict.keys (candidates e)) /\
  (forall c, In c (Dict.keys (candidates e)) <-> In c cs) /\
  (forall c, In c cs -> Dict.get c (candidates e) = Some []) /\
  length (candidates e) <= length cs /\
  (NoDup cs -> Dict.keys (candidates e) = cs).
Proof.
  cbv zeta.
  destruct (init_candidates_spec cs [] (NoDup_nil _) (Forall_nil _))
    as [Hnd [Hall Hin]]. cbv zeta in Hnd, Hall, Hin.
  cbn [candidates Election_init].
  split; [apply (init_keys_fold cs [])|]. split; [exact Hnd|].
  split; [intros c; rewrite Hin; simpl; tauto|]. split; [|split].
  - intros c Hc. assert (Hk := proj2 (Hin c) (or_intror Hc)).
    destruct (In_keys_get _ _ _ Hk) as [v Hv]. rewrite Hv. f_equal.
    apply get_In in Hv. rewrite Forall_forall in Hall. apply (Hall _ Hv).
  - rewrite <- (length_map fst). apply NoDup_incl_length; [exact Hnd|].
    intros c Hc. apply Hin in Hc. simpl in Hc. tauto.
  - intros Hcs. rewrite (init_keys_fold cs []). simpl.
    assert (G : forall acc, NoDup (acc ++ cs) ->
              fold_left (fun acc c => if mem_str c acc then acc else acc ++ [c])
                        cs acc = acc ++ cs).
    { clear. induction cs as [|c cs IH]; intros acc H; simpl.
      - now rewrite app_nil_r.
      - destruct (mem_str c acc) eqn:E.
        + apply mem_str_iff in E. apply NoDup_remove_2 in H.
          exfalso. apply H. apply in_or_app. now left.
        + rewrite IH; rewrite <- app_assoc; [reflexivity|exact H]. }
    apply (G []). exact Hcs.
Qed.

(** X2: the constructor registers every distinct candidate once, in the order
    of the first occurrences, each with an empty list of ballots. *)
Theorem Election_init_registers bs cs :
  let e := Election_init bs cs in
  Dict.keys (candidates e) = first_occurrences cs /\
  NoDup (Dict.keys (candidates e)) /\
  (forall c, In c (Dict.keys (candidates e)) <-> In c cs) /\
  (forall c, In c cs -> Dict.get c (candidates e) = Some []) /\
  length (candidates e) <= length cs /\
  (NoDup cs -> Dict.keys (candidates e) = cs).
Proof. exact (init_registers_facts bs cs). Qed.

Lemma Election_init_registers_witness :
  Dict.keys (candidates exhausting) = ["A"; "B"; "X"] /\
  Dict.get "B" (candidates exhausting) = Some [].
Proof.
  destruct (Election_init_registers exhausting_ballots exhausting_candidates)
    as [_ [_ [_ [Hget [_ Hk]]]]].
  split.
  - apply Hk. repeat constructor; simpl; intuition discriminate.
  - apply Hget. simpl. auto.
Defined.

(** ** [assign_ballots] *)

Lemma goes_to_empty c b : goes_to (empty_set candidate) c b = ranks_first c b.
Proof.
  unfold goes_to, ranks_first, first_active. now destruct (ranking b).
Qed.

Lemma assign_loop_app pre rest : forall d,
  assign_loop (pre ++ rest) d = (d' <- assign_loop pre d ;; assign_loop rest d').
Proof.
  induction pre as [|b pre IH]; intros d; [reflexivity|]. cbn [app assign_loop].
  destruct (assign_one d b) as [d1|x]; [apply IH|reflexivity].
Qed.

Lemma assign_ballots_facts bs cs :
  let e := Election_init bs cs in
  ((forall b, In b bs -> assignable cs b) <->
   exists e1, assign_ballots e = Ok e1) /\
  (forall e1, assign_ballots e = Ok e1 ->
     number_of_candidates e1 = length (first_occurrences cs) /\
     Dict.keys (candidates e1) = first_occurrences cs /\
     ballots e1 = bs /\ eliminated e1 = [] /\
     forall c, In c cs ->
       Dict.get c (candidates e1) = Some (filter (ranks_first c) bs)) /\
  (forall pre b post,
     bs = pre ++ b :: post ->
     (forall b', In b' pre -> assignable cs b') ->
     ~ assignable cs b ->
     assign_ballots e =
     Raise (match ranking b with [] => IndexError | _ :: _ => KeyError end)).
Proof.
  cbv zeta.
  destruct (init_registers_facts bs cs) as [Hk [Hnd [Hin [Hget _]]]].
  cbv zeta in *. set (e := Election_init bs cs) in *.
  assert (Hok : forall pre, (forall b, In b pre -> assignable cs b) ->
            exists d, assign_loop pre (candidates e) = Ok d).
  { intros pre H. apply assign_loop_total. intros b Hb.
    destruct (H b Hb) as [f [rest [Hr Hf]]]. exists f, rest. split; auto.
    now apply Hin. }
  split; [split|split].
  - intros H. destruct (Hok bs H) as [d Hd]. unfold assign_ballots.
    change (ballots e) with bs. rewrite Hd. cbn [bind]. eauto.
  - intros [e1 H1] b Hb. unfold assign_ballots in H1. change (ballots e) with bs in H1.
    destruct (assign_loop bs (candidates e)) as [d|] eqn:Hd; [|discriminate].
    destruct (assign_loop_spec _ _ _ Hd) as [_ [_ H3]].
    destruct (H3 b Hb) as [f [rest [Hr Hf]]]. exists f, rest. split; auto.
    now apply Hin.
  - intros e1 H1. unfold assign_ballots in H1. change (ballots e) with bs in H1.
    destruct (assign_loop bs (candidates e)) as [d|] eqn:Hd; [|discriminate].
    cbn [bind] in H1. injection H1 as <-.
    cbn [number_of_candidates candidates ballots eliminated].
    destruct (assign_loop_spec _ _ _ Hd) as [H1 [H2 _]].
    split; [rewrite <- Hk; unfold Dict.keys; now rewrite length_map|].
    split; [now rewrite H1|]. split; [reflexivity|]. split; [reflexivity|].
    intros c Hc. rewrite H2, (Hget c Hc). cbn [option_map app]. f_equal.
    apply filter_ext. intros b. apply goes_to_empty.
  - intros pre b post -> Hpre Hbad. unfold assign_ballots.
    change (ballots e) with (pre ++ b :: post). rewrite assign_loop_app.
    destruct (Hok pre Hpre) as [d Hd]. rewrite Hd. cbn [bind assign_loop].
    destruct (assign_loop_spec _ _ _ Hd) as [Hkd _].
    unfold assign_one. destruct (ranking b) as [|f rest] eqn:Hr; [reflexivity|].
    destruct (Dict.mem f d) eqn:Hm; [|reflexivity].
    exfalso. apply Hbad. exists f, rest. split; auto.
    apply mem_true_iff in Hm. rewrite Hkd in Hm. now apply Hin.
Qed.

(** X3: on a fresh election [assign_ballots] succeeds exactly when every
    ballot has a non-empty ranking that starts with a registered candidate;
    it then fixes the candidate count and gives each candidate the ballots
    that rank it first, in the order of the ballot list.  Otherwise it raises
    at the first ballot that cannot be assigned: [IndexError] for an empty
    ranking, [KeyError] for an unregistered first choice. *)
Theorem assign_ballots_first_choices bs cs :
  let e := Election_init bs cs in
  ((forall b, In b bs -> assignable cs b) <->
   exists e1, assign_ballots e = Ok e1) /\
  (forall e1, assign_ballots e = Ok e1 ->
     number_of_candidates e1 = length (first_occurrences cs) /\
     Dict.keys (candidates e1) = first_occurrences cs /\
     ballots e1 = bs /\ eliminated e1 = [] /\
     forall c, In c cs ->
       Dict.get c (candidates e1) = Some (filter (ranks_first c) bs)) /\
  (forall pre b post,
     bs = pre ++ b :: post ->
     (forall b', In b' pre -> assignable cs b') ->
     ~ assignable cs b ->
     assign_ballots e =
     Raise (match ranking b with [] => IndexError | _ :: _ => KeyError end)).
Proof. exact (assign_ballots_facts bs cs). Qed.

Lemma assign_ballots_first_choices_witness :
  (exists e1, assign_ballots exhausting = Ok e1) /\
  assign_ballots (Election_init [bal ["A"]; bal []; bal ["Z"]] ["A"]) =
    Raise IndexError /\
  assign_ballots (Election_init [bal ["A"]; bal ["Z"]; bal []] ["A"]) =
    Raise KeyError.
Proof.
  split; [|split].
  - apply (proj1 (proj1 (assign_ballots_first_choices
                           exhausting_ballots exhausting_candidates))).
    intros b Hb. unfold assignable, exhausting_candidates. simpl in Hb.
    intuition (subst; eexists; eexists; split; [reflexivity|simpl; auto]).
  - apply (proj2 (proj2 (assign_ballots_first_choices
              [bal ["A"]; bal []; bal ["Z"]] ["A"])) [bal ["A"]] (bal []) [bal ["Z"]]).
    + reflexivity.
    + intros b' [<-|[]]. exists "A", []. simpl. auto.
    + intros [f [rest [Hr _]]]. discriminate.
  - apply (proj2 (proj2 (assign_ballots_first_choices
              [bal ["A"]; bal ["Z"]; bal []] ["A"])) [bal ["A"]] (bal ["Z"]) [bal []]).
    + reflexivity.
    + intros b' [<-|[]]. exists "A", []. simpl. auto.
    + intros [f [rest [Hr [Hf|[]]]]]. simpl in Hr. congruence.
Defined.

Lemma assigned_update (d : Dict.t (list Ballot)) c b :
  Dict.mem c d = true ->
  assigned (Dict.update c (fun l => l ++ [b]) d) = S (assigned d).
Proof.
  unfold Dict.mem, assigned. induction d as [|[k v] d IH]; simpl; [discriminate|].
  destruct (String.eqb c k); simpl.
  - intros _. rewrite length_app. simpl. lia.
  - intros H. rewrite IH by exact H. lia.
Qed.

Lemma assign_loop_assigned bs : forall d d',
  assign_loop bs d = Ok d' -> assigned d' = assigned d + length bs.
Proof.
  induction bs as [|b bs IH]; simpl; intros d d' H.
  - injection H as <-. lia.
  - unfold assign_one in H. destruct (ranking b) as [|f rest]; [discriminate|].
    destruct (Dict.mem f d) eqn:Hm; [|discriminate]. cbn [bind] in H.
    rewrite (IH _ _ H), assigned_update by exact Hm. lia.
Qed.

(** X4: [assign_ballots] is not guarded against a second call: called again
    on the state it returned, it succeeds and appends every ballot a second
    time, so each candidate holds its first-choice ballots twice and the
    assigned ballots number twice the ballots of the election. *)
Theorem assign_ballots_twice bs cs e1 :
  assign_ballots (Election_init bs cs) = Ok e1 ->
  assigned (candidates e1) = length bs /\
  exists e2,
    assign_ballots e1 = Ok e2 /\
    (forall c, In c cs ->
       Dict.get c (candidates e2) =
       Some (filter (ranks_first c) bs ++ filter (ranks_first c) bs)) /\
    assigned (candidates e2) = 2 * length bs.
Proof.
  intros H1.
  destruct (assign_ballots_facts bs cs) as [[_ Hall] [Hspec _]].
  cbv zeta in *. pose proof (Hall (ex_intro _ e1 H1)) as Hasg.
  destruct (Hspec e1 H1) as [_ [Hk [Hb [_ Hget]]]].
  destruct (init_registers_facts bs cs) as [Hk0 [_ [Hin _]]]. cbv zeta in *.
  assert (Ha1 : assigned (candidates e1) = length bs).
  { unfold assign_ballots in H1. cbn [ballots Election_init] in H1.
    destruct (assign_loop bs _) as [d|] eqn:Hd; [|discriminate].
    cbn [bind] in H1. injection H1 as <-. cbn [candidates].
    rewrite (assign_loop_assigned _ _ _ Hd). cbn [candidates Election_init].
    destruct (init_candidates_spec cs [] (NoDup_nil _) (Forall_nil _))
      as [_ [Hnil _]]. cbv zeta in Hnil.
    assert (Hz : assigned (fold_left (fun d c => Dict.set c [] d) cs []) = 0).
    { unfold assigned. apply list_sum_map_zero. intros kv Hkv.
      rewrite Forall_forall in Hnil. now rewrite (Hnil kv Hkv). }
    rewrite Hz. reflexivity. }
  split; [exact Ha1|].
  destruct (assign_loop_total bs (candidates e1)) as [d2 Hd2].
  { intros b Hbin. destruct (Hasg b Hbin) as [f [rest [Hr Hf]]].
    exists f, rest. split; auto. rewrite Hk, <- Hk0. now apply Hin. }
  unfold assign_ballots at 1. rewrite Hb, Hd2. cbn [bind].
  eexists. split; [reflexivity|]. cbn [candidates].
  destruct (assign_loop_spec _ _ _ Hd2) as [_ [H2 _]]. split.
  - intros c Hc. rewrite H2, (Hget c Hc). cbn [option_map]. do 2 f_equal.
    apply filter_ext. intros b. apply goes_to_empty.
  - rewrite (assign_loop_assigned _ _ _ Hd2), Ha1. lia.
Qed.

Lemma assign_ballots_twice_witness :
  assigned (candidates exhausting_assigned) = 5 /\
  exists e2,
    assign_ballots exhausting_assigned = Ok e2 /\
    (forall c, In c exhausting_candidates ->
       Dict.get c (candidates e2) =
       Some (filter (ranks_first c) exhausting_ballots ++
             filter (ranks_first c) exhausting_ballots)) /\
    assigned (candidates e2) = 2 * 5.
Proof.
  apply (assign_ballots_twice exhausting_ballots exhausting_candidates
           exhausting_assigned).
  reflexivity.
Defined.

(** ** Active and eliminated candidates *)

(** X5: at every round boundary of a run the registered candidates are split
    between the active mapping and the eliminated set, without repetition and
    without overlap, and an eliminated candidate has no list of ballots; a
    round only extends the eliminated sequence and only removes a key. *)
Theorem registered_partition bs cs e l :
  boundary (Election_init bs cs) e l ->
  (forall c, In c cs <-> In c (Dict.keys (candidates e)) \/ In c (eliminated e)) /\
  NoDup (Dict.keys (candidates e)) /\ NoDup (eliminated e) /\
  (forall c, In c (eliminated e) -> Dict.get c (candidates e) = None) /\
  length (candidates e) + length (eliminated e) = length (first_occurrences cs) /\
  (forall r e' l', round e l r = Ok (e', l') ->
     (exists last, eliminated e' = eliminated e ++ [last]) /\
     incl (Dict.keys (candidates e')) (Dict.keys (candidates e))).
Proof.
  intros Hb. destruct (boundary_facts _ _ _ _ Hb) as [HI [Hn _]].
  split; [apply (boundary_registered _ _ _ _ Hb)|].
  split; [apply (inv_keys _ HI)|]. split; [apply (inv_elim _ HI)|].
  split; [|split].
  - intros c Hc. destruct (Dict.get c (candidates e)) eqn:G; [|reflexivity].
    apply get_In_keys in G. now apply (inv_disj _ HI) in G.
  - rewrite (inv_count _ HI), Hn.
    destruct (init_registers_facts bs cs) as [Hk _]. cbv zeta in Hk.
    rewrite <- Hk. unfold Dict.keys. now rewrite length_map.
  - intros r e' l' Hr.
    destruct (round_eliminates _ _ _ _ _ HI Hr) as [last [_ [_ [_ [He [_ [_ Hk]]]]]]].
    split; [eauto|]. intros c Hc. now apply Hk in Hc.
Qed.

Lemma registered_partition_witness :
  (forall c, In c exhausting_candidates <->
     In c (Dict.keys (candidates exhausting_round1)) \/
     In c (eliminated exhausting_round1)) /\
  Dict.get "X" (candidates exhausting_round1) = None.
Proof.
  destruct (registered_partition exhausting_ballots exhausting_candidates
              exhausting_round1 2) as [H1 [_ [_ [H4 _]]]].
  - apply (boundary_round exhausting exhausting_start 1 0).
    + apply boundary_start. reflexivity.
    + reflexivity.
    + reflexivity.
  - split; [exact H1|]. apply H4. simpl. auto.
Defined.

(** ** The outcome of a run *)

Lemma guard_false_single e :
  Inv e -> candidates e <> [] -> loop_guard e = false ->
  exists w lw, candidates e = [(w, lw)] /\
               S (length (eliminated e)) = number_of_candidates e.
Proof.
  intros HI Hne Hg. pose proof (inv_count _ HI) as Hc.
  assert (Hn : ~ S (length (eliminated e)) < number_of_candidates e).
  { intros H. apply loop_guard_true in H. congruence. }
  destruct (candidates e) as [|[w lw] [|? ?]]; [congruence| |simpl in Hc; lia].
  exists w, lw. split; [reflexivity|]. simpl in Hc. lia.
Qed.

Lemma run_outcome bs cs rng :
  (forall k e',
     single_winner_rcv (Election_init bs cs) rng = Some (k, Ok e') ->
     exists w lw,
       winner e' = Some w /\ candidates e' = [(w, lw)] /\
       In w cs /\ ~ In w (eliminated e') /\
       S k = length (first_occurrences cs) /\
       length (eliminated e') = k /\
       length lw + exhausted_count e' = length bs /\
       Permutation lw (filter (fun b => negb (exhausted (eliminated e') b)) bs)) /\
  (cs <> [] -> ballots_valid bs cs ->
   exists e', single_winner_rcv (Election_init bs cs) rng =
              Some (length (first_occurrences cs) - 1, Ok e')).
Proof.
  assert (Hfirst : forall k e',
     single_winner_rcv (Election_init bs cs) rng = Some (k, Ok e') ->
     exists w lw,
       winner e' = Some w /\ candidates e' = [(w, lw)] /\
       In w cs /\ ~ In w (eliminated e') /\
       S k = length (first_occurrences cs) /\
       length (eliminated e') = k /\
       length lw + exhausted_count e' = length bs /\
       Permutation lw (filter (fun b => negb (exhausted (eliminated e') b)) bs)).
  { intros k e' Hrun. unfold single_winner_rcv, single_winner_rcv_fuel in Hrun.
    destruct (start (Election_init bs cs)) as [e1|] eqn:Hs; [|discriminate].
    destruct (loop _ e1 1 rng) as [[k1 out]|] eqn:Hl; [|discriminate].
    destruct out as [e2|]; [|discriminate]. cbn [bind] in Hrun.
    pose proof (boundary_start _ _ Hs) as Hb1.
    destruct (boundary_facts _ _ _ _ Hb1) as [HI1 [Hn1 _]].
    destruct (start_inversion _ _ _ Hs) as [d [_ He1]].
    destruct (loop_terminates (length (candidates (Election_init bs cs)))
                e1 1 rng HI1) as [k' [out' [Hl' [_ Hout]]]].
    { rewrite Hn1. lia. }
    rewrite Hl in Hl'. injection Hl' as <- <-.
    destruct (Hout e2 eq_refl) as [Hlen [Hg [HI2 [Hbs Hn2]]]].
    unfold finish in Hrun.
    destruct (Dict.keys (candidates e2)) as [|w ks] eqn:Hk; [discriminate|].
    injection Hrun as <- <-.
    destruct (guard_false_single e2 HI2) as [w' [lw [Hc Hcount]]]; [|exact Hg|].
    { intros E. rewrite E in Hk. discriminate. }
    rewrite Hc in Hk. injection Hk as <- <-.
    destruct (loop_boundary _ _ _ _ _ _ _ Hb1 Hl) as [l2 [Hb2 _]].
    destruct (boundary_facts _ _ _ _ Hb2) as [_ [_ Hbs2]].
    assert (Hwk : In w' (Dict.keys (candidates e2))) by (rewrite Hc; now left).
    exists w', lw. cbn [winner candidates eliminated].
    split; [reflexivity|]. split; [exact Hc|].
    split; [apply (boundary_registered _ _ _ _ Hb2); now left|].
    split; [now apply (inv_disj _ HI2)|].
    assert (Hel1 : length (eliminated e1) = 0) by (rewrite He1; reflexivity).
    destruct (init_registers_facts bs cs) as [Hk0 _]. cbv zeta in Hk0.
    split.
    { rewrite <- Hk0. unfold Dict.keys. rewrite length_map, <- Hn1, <- Hn2. lia. }
    split; [lia|]. split.
    - pose proof (Inv_conservation e2 HI2) as Hcons. rewrite Hc in Hcons.
      unfold assigned in Hcons. simpl in Hcons. unfold exhausted_count in *.
      cbn [ballots eliminated]. rewrite Hbs2 in *. lia.
    - assert (Hg2 : Dict.get w' (candidates e2) = Some lw).
      { rewrite Hc. simpl. now rewrite String.eqb_refl. }
      rewrite (inv_held _ HI2 _ _ Hg2), Hbs2.
      erewrite filter_ext_in; [reflexivity|]. intros b Hb.
      unfold exhausted, goes_to.
      destruct (first_active (eliminated e2) (ranking b)) as [c|] eqn:F.
      + assert (Hck : In c (Dict.keys (candidates e2))).
        { apply (inv_home _ HI2 b); [now rewrite Hbs2|exact F]. }
        rewrite Hc in Hck. destruct Hck as [<-|[]]. rewrite String.eqb_refl.
        destruct (forallb _ _) eqn:G; [|reflexivity].
        apply first_active_None in G. congruence.
      + apply first_active_None in F. now rewrite F. }
  split; [exact Hfirst|].
  intros Hcs Hv. destruct (single_winner_rcv_returns bs cs rng Hcs Hv)
    as [k [e' [w [Hrun _]]]].
  destruct (Hfirst k e' Hrun) as [_ [_ [_ [_ [_ [_ [Hk _]]]]]]].
  exists e'. rewrite Hrun. do 2 f_equal. lia.
Qed.

(** X6: when a run returns, exactly [n - 1] rounds were made for [n]
    registered candidates, one candidate is left in the active mapping, it is
    the winner, it was never eliminated, and it holds every ballot that is not
    exhausted; and the run does return when a candidate is registered and the
    ballots rank registered candidates only. *)
Theorem single_winner_rcv_elects bs cs rng :
  (forall k e',
     single_winner_rcv (Election_init bs cs) rng = Some (k, Ok e') ->
     exists w lw,
       winner e' = Some w /\ candidates e' = [(w, lw)] /\
       In w cs /\ ~ In w (eliminated e') /\
       S k = length (first_occurrences cs) /\
       length (eliminated e') = k /\
       length lw + exhausted_count e' = length bs /\
       Permutation lw (filter (fun b => negb (exhausted (eliminated e') b)) bs)) /\
  (cs <> [] -> ballots_valid bs cs ->
   exists e', single_winner_rcv (Election_init bs cs) rng =
              Some (length (first_occurrences cs) - 1, Ok e')).
Proof. exact (run_outcome bs cs rng). Qed.

Lemma single_winner_rcv_elects_witness :
  (exists w lw,
     winner exhausting_final = Some w /\ candidates exhausting_final = [(w, lw)] /\
     In w exhausting_candidates /\ ~ In w (eliminated exhausting_final) /\
     3 = length (first_occurrences exhausting_candidates) /\
     length (eliminated exhausting_final) = 2 /\
     length lw + exhausted_count exhausting_final = length exhausting_ballots /\
     Permutation lw
       (filter (fun b => negb (exhausted (eliminated exhausting_final) b))
               exhausting_ballots)) /\
  (exists e', single_winner_rcv exhausting [0; 0] =
              Some (length (first_occurrences exhausting_candidates) - 1, Ok e')).
Proof.
  split.
  - apply (proj1 (single_winner_rcv_elects exhausting_ballots
                    exhausting_candidates [0; 0]) 2 exhausting_final).
    reflexivity.
  - apply (proj2 (single_winner_rcv_elects exhausting_ballots
                    exhausting_candidates [0; 0])).
    + discriminate.
    + intros b Hb. unfold exhausting_candidates. simpl in Hb.
      intuition (subst; simpl in *; intuition (subst; auto; discriminate)).
Defined.

(** ** A candidate with a majority of the ballots *)

Lemma assigned_two (d : Dict.t (list Ballot)) c1 c2 l1 l2 :
  Dict.get c1 d = Some l1 -> Dict.get c2 d = Some l2 -> c1 <> c2 ->
  length l1 + length l2 <= assigned d.
Proof.
  unfold assigned. induction d as [|[k v] d IH]; simpl; [discriminate|].
  destruct (String.eqb_spec c1 k) as [->|H1], (String.eqb_spec c2 k) as [->|H2].
  - congruence.
  - intros [= ->] G2 _. clear IH.
    assert (length l2 <= list_sum (map (fun kv => length (snd kv)) d)); [|lia].
    induction d as [|[k' v'] d IH]; simpl in *; [discriminate|].
    destruct (String.eqb c2 k').
    + injection G2 as ->. lia.
    + specialize (IH G2). lia.
  - intros G1 [= ->] _. clear IH.
    assert (length l1 <= list_sum (map (fun kv => length (snd kv)) d)); [|lia].
    induction d as [|[k' v'] d IH]; simpl in *; [discriminate|].
    destruct (String.eqb c1 k').
    + injection G1 as ->. lia.
    + specialize (IH G1). lia.
  - intros G1 G2 Hne. specialize (IH G1 G2 Hne). lia.
Qed.

Lemma other_key (d : Dict.t (list Ballot)) c :
  NoDup (Dict.keys d) -> 2 <= length d ->
  exists c2, In c2 (Dict.keys d) /\ c2 <> c.
Proof.
  destruct d as [|[k1 v1] [|[k2 v2] d]]; simpl; try lia. intros Hnd _.
  inversion Hnd as [|? ? Hn _]; subst. simpl in Hn.
  destruct (string_dec k1 c) as [->|H1].
  - exists k2. split; [auto|]. intros ->. tauto.
  - exists k1. auto.
Qed.

Lemma round_keeps_majority e l r e' l' c lc :
  Inv e -> loop_guard e = true -> round e l r = Ok (e', l') ->
  Dict.get c (candidates e) = Some lc ->
  length (ballots e) < 2 * length lc ->
  exists lc', Dict.get c (candidates e') = Some lc' /\ length lc <= length lc'.
Proof.
  intros HI Hg Hr Hc Hmaj.
  destruct (round_inversion _ _ _ _ _ Hr) as [last [held [Hl [Hgl Hcase]]]].
  cbv zeta in Hcase.
  destruct (Inv_get_last _ _ _ HI Hl) as [held' [Hgl' [Hmin _]]].
  assert (held' = held) by congruence. subst held'.
  pose proof (inv_keys _ HI) as Hnd. pose proof (inv_count _ HI) as Hcount.
  apply loop_guard_true in Hg.
  assert (Hne : c <> last).
  { intros ->. assert (lc = held) by congruence. subst lc.
    destruct (other_key (candidates e) last Hnd) as [c2 [Hc2 Hne2]]; [lia|].
    destruct (In_keys_get _ _ _ Hc2) as [l2 Hl2].
    pose proof (min_tally_le (candidates e) c2 Hc2) as Hle.
    unfold tally in Hle. rewrite Hl2 in Hle.
    pose proof (assigned_two _ _ _ _ _ Hgl Hl2 (not_eq_sym Hne2)) as Hsum.
    pose proof (Inv_conservation e HI). lia. }
  destruct Hcase as [[_ [_ ->]]|[_ [_ [d [tr [ls1 [ls2 [Ht [_ [_ ->]]]]]]]]]];
    cbn [with_round candidates]; rewrite get_del_other by exact Hne.
  - eauto.
  - destruct (transfer_loop_spec _ _ _ _ _ _ Ht) as [_ [Hget _]].
    rewrite Hget, Hc. cbn [option_map]. eexists. split; [reflexivity|].
    rewrite length_app. lia.
Qed.

Lemma loop_keeps_majority fuel : forall e l rng k e' c lc,
  Inv e -> loop fuel e l rng = Some (k, Ok e') ->
  Dict.get c (candidates e) = Some lc ->
  length (ballots e) < 2 * length lc ->
  exists lc', Dict.get c (candidates e') = Some lc'.
Proof.
  induction fuel as [|fuel IH]; intros e l rng k e' c lc HI H Hc Hmaj; simpl in H.
  - destruct (loop_guard e); [discriminate|]. injection H as _ <-. eauto.
  - destruct (loop_guard e) eqn:G; [|injection H as _ <-; eauto].
    destruct (round e l (hd 0 rng)) as [[e1 l1]|] eqn:R; [|discriminate].
    destruct (loop fuel e1 l1 (tl rng)) as [[k1 out]|] eqn:L; [|discriminate].
    injection H as _ ->.
    destruct (round_keeps_majority _ _ _ _ _ _ _ HI G R Hc Hmaj) as [lc1 [Hc1 Hle]].
    destruct (round_eliminates _ _ _ _ _ HI R) as [_ [_ [_ [_ [_ [_ [Hbs _]]]]]]].
    apply (IH e1 l1 (tl rng) k1 e' c lc1); auto.
    + eapply round_Inv; eauto.
    + rewrite Hbs. lia.
Qed.

(** X7: a candidate that more than half of the ballots rank first is the
    winner of every run that returns, whatever the random choices. *)
Theorem majority_first_choice_wins bs cs rng c k e' :
  length bs < 2 * length (filter (ranks_first c) bs) ->
  single_winner_rcv (Election_init bs cs) rng = Some (k, Ok e') ->
  winner e' = Some c.
Proof.
  intros Hmaj Hrun.
  destruct (proj1 (run_outcome bs cs rng) k e' Hrun)
    as [w [lw [Hw [Hc _]]]].
  unfold single_winner_rcv, single_winner_rcv_fuel in Hrun.
  destruct (start (Election_init bs cs)) as [e1|] eqn:Hs; [|discriminate].
  destruct (loop _ e1 1 rng) as [[k1 out]|] eqn:Hl; [|discriminate].
  destruct out as [e2|]; [|discriminate]. cbn [bind] in Hrun.
  destruct (start_Inv _ _ _ Hs) as [HI1 _].
  destruct (start_inversion _ _ _ Hs) as [d [Ha He1]].
  assert (Hin : In c cs).
  { destruct (filter (ranks_first c) bs) as [|b fl] eqn:F; [simpl in Hmaj; lia|].
    assert (Hb : In b (filter (ranks_first c) bs)) by (rewrite F; now left).
    apply filter_In in Hb. destruct Hb as [Hb Hr].
    destruct (assign_loop_spec _ _ _ Ha) as [_ [_ H3]].
    destruct (H3 b Hb) as [f [rest [Hrk Hf]]].
    unfold ranks_first in Hr. rewrite Hrk in Hr. apply String.eqb_eq in Hr. subst f.
    destruct (init_registers_facts bs cs) as [_ [_ [Hreg _]]]. now apply Hreg. }
  assert (Hg1 : Dict.get c (candidates e1) = Some (filter (ranks_first c) bs)).
  { assert (Ha' : assign_ballots (Election_init bs cs) =
                  Ok {| ballots := bs; candidates := d; winner := None;
                        eliminated := []; 
                        number_of_candidates :=
                          length (candidates (Election_init bs cs));
                        nodes := []; links := [] |}).
    { unfold assign_ballots. cbn [ballots Election_init] in *.
      cbn [candidates] in *. rewrite Ha. reflexivity. }
    destruct (assign_ballots_facts bs cs) as [_ [Hspec _]].
    destruct (Hspec _ Ha') as [_ [_ [_ [_ Hget]]]].
    rewrite He1. cbn [candidates] in *. now apply Hget. }
  assert (Hb1 : ballots e1 = bs) by (rewrite He1; reflexivity).
  destruct (loop_keeps_majority _ _ _ _ _ _ _ _ HI1 Hl Hg1) as [lc' Hc'].
  { rewrite Hb1. exact Hmaj. }
  unfold finish in Hrun.
  destruct (Dict.keys (candidates e2)) as [|w2 ks]; [discriminate|].
  injection Hrun as _ <-. cbn [winner candidates] in *.
  rewrite Hc in Hc'. simpl in Hc'.
  destruct (String.eqb_spec c w); [congruence|discriminate].
Qed.

Lemma majority_first_choice_wins_witness : winner majority_final = Some "A".
Proof.
  apply (majority_first_choice_wins majority_ballots ["A"; "B"; "C"] [0; 0]
           "A" 2 majority_final).
  - simpl. lia.
  - reflexivity.
Defined.

(** ** The exceptions of a run *)

Lemma assign_loop_raise bs : forall (d : Dict.t (list Ballot)) x,
  assign_loop bs d = Raise x ->
  (x = IndexError /\ exists b, In b bs /\ ranking b = []) \/
  (x = KeyError /\ exists b f rest,
     In b bs /\ ranking b = f :: rest /\ ~ In f (Dict.keys d)).
Proof.
  induction bs as [|b bs IH]; simpl; intros d x H; [discriminate|].
  unfold assign_one in H. destruct (ranking b) as [|f rest] eqn:Hr.
  - injection H as <-. left. eauto.
  - destruct (Dict.mem f d) eqn:Hm.
    + cbn [bind] in H. apply IH in H. rewrite keys_update in H.
      destruct H as [[-> [b' [Hb' E]]]|[-> [b' [f' [rest' [Hb' [E Hn]]]]]]].
      * left. eauto.
      * right. split; [reflexivity|]. exists b', f', rest'. auto.
    + injection H as <-. right. split; [reflexivity|]. exists b, f, rest.
      split; [now left|]. split; [exact Hr|].
      intros Hin. apply mem_true_iff in Hin. congruence.
Qed.

Lemma transfer_loop_raise elim held : forall (d : Dict.t (list Ballot)) tr x,
  transfer_loop elim held (d, tr) = Raise x ->
  x = KeyError /\
  exists b c, In b held /\ first_active elim (ranking b) = Some c /\
              ~ In c (Dict.keys d).
Proof.
  induction held as [|b held IH]; simpl; intros d tr x H; [discriminate|].
  destruct (first_active elim (ranking b)) as [c0|] eqn:F.
  - destruct (Dict.mem c0 d) eqn:Hm.
    + cbn [bind] in H. apply IH in H. rewrite keys_update in H.
      destruct H as [-> [b' [c [Hb' [Hc Hn]]]]]. split; [reflexivity|].
      exists b', c. auto.
    + injection H as <-. split; [reflexivity|]. exists b, c0.
      split; [now left|]. split; [exact F|].
      intros Hin. apply mem_true_iff in Hin. congruence.
  - cbn [bind] in H. apply IH in H.
    destruct H as [-> [b' [c [Hb' [Hc Hn]]]]]. split; [reflexivity|].
    exists b', c. auto.
Qed.

(** Once the transfers are made, the rest of a round cannot fail: the nodes
    that the links look up are in the list. *)
Lemma round_after_transfer e l r last held d tr :
  Inv e -> graph_ready e l ->
  resolve_tie_random e r = Ok last ->
  Dict.get last (candidates e) = Some held -> held <> [] ->
  transfer_loop (set_add string_dec last (eliminated e)) held (candidates e, []) =
    Ok (d, tr) ->
  exists e' l', round e l r = Ok (e', l').
Proof.
  intros HI HG Hl Hg Hheld Ht.
  destruct (Inv_get_last _ _ _ HI Hl) as [held' [Hg' [Hmin Hnl]]].
  assert (held' = held) by congruence. subst held'. clear Hg'.
  unfold round. rewrite Hl. cbn [bind]. rewrite Hg.
  assert (Hpos : 0 < length held) by (destruct held; [congruence|simpl; lia]).
  destruct (Nat.eqb_spec (length held) 0) as [E|_]; [lia|].
  set (elim := set_add string_dec last (eliminated e)) in *.
  match goal with
  | |- context [bind ?t _] =>
      assert (Ht' : t = Ok (d, tr)) by exact Ht; rewrite Ht'; clear Ht'
  end.
  cbn [bind fst snd].
  destruct (transfer_loop_spec _ _ _ _ _ _ Ht) as [Hk [_ [_ Htr]]].
  fold (starting_values_of (candidates e)).
  fold (new_nodes elim (Dict.del last d) (l + 1)).
  set (sv := starting_values_of (candidates e)).
  set (ns := nodes e ++ new_nodes elim (Dict.del last d) (l + 1)).
  assert (Hnd : NoDup (Dict.keys d)) by (rewrite Hk; apply (inv_keys _ HI)).
  assert (Hfrom : forall c, In c (Dict.keys (candidates e)) ->
            exists v, lookup c sv = Ok v /\ In (fake_node_from c (l + 1) v) ns).
  { intros c Hc. destruct (In_keys_get _ _ _ Hc) as [lc Hlc].
    exists (length lc). unfold lookup, sv. rewrite get_starting_values, Hlc.
    split; [reflexivity|]. apply in_or_app. left.
    destruct HG as [[-> HG]|[Hl2 HG]].
    - rewrite fake_node_from_first. apply HG; auto.
      intros ->. pose proof (min_tally_le (candidates e) c Hc) as Hle.
      unfold tally in Hle. rewrite Hlc in Hle. rewrite <- Hmin in Hle.
      simpl in Hle. lia.
    - rewrite fake_node_from_later by assumption. now apply HG. }
  assert (Hto : forall c, In c (Dict.keys (candidates e)) -> c <> last ->
            In (fake_node_to c (l + 1)) ns).
  { intros c Hc Hcl. apply in_or_app. right. apply new_nodes_In.
    - apply keys_del_other; auto. now rewrite Hk.
    - unfold elim. rewrite set_add_iff. intros [?|Hce]; [contradiction|].
      now apply (inv_disj _ HI) in Hce. }
  destruct (for_each_self_link_total ns sv last (l + 1)
              (Dict.keys (Dict.del last d)) []) as [ls1 H1].
  { intros c Hc.
    assert (Hcl : c <> last) by (intros ->; now apply keys_del_notin in Hc).
    apply keys_del_incl in Hc. rewrite Hk in Hc.
    destruct (Hfrom c Hc) as [v [Hv Hf]]. exists v. auto. }
  rewrite H1. cbn [bind].
  destruct (for_each_real_link_total ns sv last (l + 1) tr ls1) as [ls2 H2].
  { apply Hfrom. eauto using get_In_keys. }
  { intros c Hc. destruct (Htr c Hc) as [[]|[Hc1 Hc2]].
    apply Hto; [exact Hc1|].
    intros ->. apply Hc2. apply set_add_iff. auto. }
  rewrite H2. cbn [bind]. eauto.
Qed.

Lemma round_raise bs cs e l r x :
  boundary (Election_init bs cs) e l -> loop_guard e = true ->
  round e l r = Raise x ->
  x = KeyError /\ exists b c, In b bs /\ In c (ranking b) /\ ~ In c cs.
Proof.
  intros Hb Hg Hr. destruct (boundary_facts _ _ _ _ Hb) as [HI [_ Hbs]].
  pose proof (boundary_graph_ready _ _ _ _ Hb) as HG.
  assert (Hne : candidates e <> []).
  { pose proof (inv_count _ HI) as Hc. apply loop_guard_true in Hg.
    intros E. rewrite E in Hc. simpl in Hc. lia. }
  destruct (resolve_tie_random_total e r Hne) as [last Hl].
  destruct (Inv_get_last _ _ _ HI Hl) as [held [Hgl [_ Hnl]]].
  destruct held as [|b0 held0].
  { unfold round in Hr. rewrite Hl in Hr. cbn [bind] in Hr. rewrite Hgl in Hr.
    discriminate. }
  destruct (transfer_loop (set_add string_dec last (eliminated e))
              (b0 :: held0) (candidates e, [])) as [[d tr]|y] eqn:Ht.
  - destruct (round_after_transfer e l r last _ d tr HI HG Hl Hgl) as [e' [l' H]];
      [discriminate|exact Ht|congruence].
  - assert (x = y).
    { unfold round in Hr. rewrite Hl in Hr. cbn [bind] in Hr. rewrite Hgl in Hr.
      cbn [length Nat.eqb] in Hr.
      match type of Hr with
      | context [bind ?t _] =>
          assert (Ht' : t = Raise y) by exact Ht; rewrite Ht' in Hr
      end.
      cbn [bind] in Hr. congruence. }
    subst y. apply transfer_loop_raise in Ht.
    destruct Ht as [-> [b [c [Hbh [Hc Hnk]]]]]. split; [reflexivity|].
    exists b, c. apply first_active_not_eliminated in Hc. destruct Hc as [Hc1 Hc2].
    split; [|split; [exact Hc1|]].
    + rewrite <- Hbs.
      apply (Permutation_in b (inv_held _ HI _ _ Hgl)) in Hbh.
      apply filter_In in Hbh. tauto.
    + intros Hcs. apply (boundary_registered _ _ _ _ Hb) in Hcs.
      destruct Hcs as [?|Hce]; [contradiction|].
      apply Hc2. apply set_add_iff. auto.
Qed.

Lemma loop_raise bs cs fuel : forall e l rng k x,
  boundary (Election_init bs cs) e l ->
  loop fuel e l rng = Some (k, Raise x) ->
  exists e2 l2 r,
    boundary (Election_init bs cs) e2 l2 /\ loop_guard e2 = true /\
    round e2 l2 r = Raise x.
Proof.
  induction fuel as [|fuel IH]; intros e l rng k x Hb H; simpl in H.
  - destruct (loop_guard e); discriminate.
  - destruct (loop_guard e) eqn:G; [|discriminate].
    destruct (round e l (hd 0 rng)) as [[e1 l1]|y] eqn:R.
    + destruct (loop fuel e1 l1 (tl rng)) as [[k1 out]|] eqn:L; [|discriminate].
      injection H as _ ->. eapply IH; [|exact L]. eapply boundary_round; eauto.
    + injection H as _ <-. exists e, l, (hd 0 rng). auto.
Qed.

(** X8: a run never raises [ValueError]: the nodes that the links look up are
    always in the list.  A run that raises does so with [IndexError], when no
    candidate is registered or a ballot has an empty ranking, or with
    [KeyError], when a ballot ranks a candidate that is not registered. *)
Theorem run_exceptions bs cs rng k x :
  single_winner_rcv (Election_init bs cs) rng = Some (k, Raise x) ->
  (x = IndexError /\ (cs = [] \/ exists b, In b bs /\ ranking b = [])) \/
  (x = KeyError /\ exists b c, In b bs /\ In c (ranking b) /\ ~ In c cs).
Proof.
  intros Hrun. unfold single_winner_rcv, single_winner_rcv_fuel in Hrun.
  destruct (init_registers_facts bs cs) as [_ [_ [Hreg _]]]. cbv zeta in Hreg.
  destruct (start (Election_init bs cs)) as [e1|y] eqn:Hs.
  - pose proof (boundary_start _ _ Hs) as Hb1.
    destruct (loop _ e1 1 rng) as [[k1 out]|] eqn:Hl; [|discriminate].
    destruct out as [e2|y]; cbn [bind] in Hrun.
    + left. unfold finish in Hrun.
      destruct (Dict.keys (candidates e2)) as [|w ks] eqn:Hk; [|discriminate].
      injection Hrun as _ <-. split; [reflexivity|]. left.
      destruct (loop_boundary _ _ _ _ _ _ _ Hb1 Hl) as [l2 [Hb2 _]].
      destruct cs as [|c cs']; [reflexivity|].
      exfalso. assert (Hcs : c :: cs' <> []) by discriminate.
      apply (boundary_active _ _ _ _ Hcs Hb2).
      destruct (candidates e2); [reflexivity|discriminate].
    + injection Hrun as _ <-. right.
      destruct (loop_raise _ _ _ _ _ _ _ _ Hb1 Hl) as [e2 [l2 [r [Hb2 [Hg Hr]]]]].
      exact (round_raise _ _ _ _ _ _ Hb2 Hg Hr).
  - injection Hrun as _ <-. unfold start, assign_ballots in Hs.
    cbn [ballots Election_init] in Hs.
    destruct (assign_loop bs _) as [d|z] eqn:Ha; [discriminate|].
    cbn [bind] in Hs. injection Hs as <-.
    apply assign_loop_raise in Ha.
    destruct Ha as [[-> [b [Hb E]]]|[-> [b [f [rest [Hb [E Hn]]]]]]].
    + left. split; [reflexivity|]. right. eauto.
    + right. split; [reflexivity|]. exists b, f. split; [exact Hb|].
      split; [rewrite E; now left|]. intros Hf. apply Hn.
      cbn [candidates Election_init]. now apply Hreg.
Qed.

Lemma run_exceptions_witness :
  (KeyError = IndexError /\
   (["A"; "B"] = [] \/
    exists b, In b [bal ["B"; "Z"]; bal ["A"]; bal ["A"]] /\ ranking b = [])) \/
  (KeyError = KeyError /\
   exists b c, In b [bal ["B"; "Z"]; bal ["A"]; bal ["A"]] /\
               In c (ranking b) /\ ~ In c ["A"; "B"]).
Proof.
  apply (run_exceptions [bal ["B"; "Z"]; bal ["A"]; bal ["A"]] ["A"; "B"] [0] 1).
  reflexivity.
Defined.

(** ** The nodes and links of the flow graph *)

Lemma NoDup_map_pair (n : nat) (ks : list candidate) :
  NoDup ks -> NoDup (map (fun c => (c, n)) ks).
Proof.
  induction 1 as [|k ks Hk Hnd IH]; simpl; constructor; auto.
  intros H. apply in_map_iff in H. destruct H as [c [[= ->] Hc]]. contradiction.
Qed.

Lemma NoDup_keys_filter (V : Type) (p : candidate * V -> bool) (d : Dict.t V) :
  NoDup (Dict.keys d) -> NoDup (Dict.keys (filter p d)).
Proof.
  unfold Dict.keys. induction d as [|kv d IH]; simpl; auto.
  intros H. inversion H as [|? ? Hn Hnd]; subst.
  destruct (p kv); simpl; auto. constructor; auto.
  intros Hin. apply Hn. apply in_map_iff in Hin. destruct Hin as [kv' [E Hk]].
  apply filter_In in Hk. apply in_map_iff. exists kv'. tauto.
Qed.

(** X9: at every round boundary no two nodes of the flow graph have the same
    candidate name and the same layer, so a search for a name and a layer
    finds the one node that was appended for them. *)
Theorem node_identity_unique bs cs e l :
  boundary (Election_init bs cs) e l ->
  NoDup (map node_id (nodes e)).
Proof.
  intros Hb. induction Hb as [e1 H|e l r e' l' Hb IH Hg H].
  - destruct (start_Inv _ _ _ H) as [HI _].
    destruct (start_inversion _ _ _ H) as [d [_ He1]]. rewrite He1 in *.
    cbn [nodes candidates] in *. rewrite map_map. unfold node_id. cbn [name layer].
    pose proof (NoDup_keys_filter _ (fun kv => 0 <? length (snd kv)) d
                  (inv_keys _ HI)) as Hf.
    apply (NoDup_map_pair 1) in Hf. unfold Dict.keys in Hf.
    rewrite map_map in Hf. exact Hf.
  - pose proof (boundary_Inv _ _ _ _ Hb) as HI.
    pose proof (round_Inv _ _ _ _ _ HI H) as HI'.
    destruct (boundary_nodes _ _ _ _ Hb) as [_ Hok].
    destruct (round_inversion _ _ _ _ _ H) as [last [held [_ [_ Hcase]]]].
    cbv zeta in Hcase.
    destruct Hcase as [[_ [_ ->]]|[_ [-> [d [tr [ls1 [ls2 [_ [_ [_ E]]]]]]]]]];
      [exact IH|].
    subst e'. cbn [with_round nodes candidates] in *. rewrite map_app.
    apply NoDup_app; [exact IH| |].
    + unfold new_nodes. rewrite map_map. unfold node_id. cbn [name layer].
      apply NoDup_map_pair. apply NoDup_filter. apply (inv_keys _ HI').
    + intros id Hold Hnew. apply in_map_iff in Hold. destruct Hold as [nd [<- Hnd]].
      rewrite Forall_forall in Hok. destruct (Hok nd Hnd) as [[_ Hle] _].
      unfold new_nodes in Hnew. rewrite map_map in Hnew.
      apply in_map_iff in Hnew. destruct Hnew as [c [E _]].
      unfold node_id in E. cbn [name layer] in E. injection E as _ E. lia.
Qed.

Lemma node_identity_unique_witness : NoDup (map node_id (nodes exhausting_round2)).
Proof.
  apply (node_identity_unique exhausting_ballots exhausting_candidates
           exhausting_round2 3).
  apply (boundary_round exhausting exhausting_round1 2 0).
  - apply (boundary_round exhausting exhausting_start 1 0).
    + apply boundary_start. reflexivity.
    + reflexivity.
    + reflexivity.
  - reflexivity.
  - reflexivity.
Defined.

Lemma index_nth_error x ns i : index x ns = Ok i -> nth_error ns i = Some x.
Proof.
  revert i. induction ns as [|y ns IH]; simpl; intros i H; [discriminate|].
  destruct (node_eqb y x) eqn:E.
  - injection H as <-. apply node_eqb_eq in E. now subst.
  - destruct (index x ns) as [j|]; [|discriminate]. cbn [bind] in H.
    injection H as <-. simpl. now apply IH.
Qed.

Lemma link_ok_mono ns ns' elim elim' lk :
  incl elim elim' -> link_ok ns elim lk -> link_ok (ns ++ ns') elim' lk.
Proof.
  intros Hi [s [t [Hs [Ht [Hl Hn]]]]]. exists s, t.
  split; [|split; [|split; [exact Hl|]]].
  - rewrite nth_error_app1; [exact Hs|]. apply nth_error_Some. congruence.
  - rewrite nth_error_app1; [exact Ht|]. apply nth_error_Some. congruence.
  - destruct Hn; auto.
Qed.

Lemma for_each_self_link_ok ns sv last L elim ks : forall acc ls,
  1 <= L ->
  for_each (self_link ns sv last L) ks acc = Ok ls ->
  Forall (link_ok ns elim) acc -> Forall (link_ok ns elim) ls.
Proof.
  induction ks as [|c ks IH]; simpl; intros acc ls HL H Hacc.
  - now injection H as <-.
  - unfold self_link at 1 in H.
    destruct (negb (String.eqb c last)); [|cbn [bind] in H; eauto].
    destruct (if L <? 3 then lookup c sv else Ok 0) as [v|]; [|discriminate].
    cbn [bind] in H.
    destruct (index (fake_node_from c L v) ns) as [i|] eqn:Ei; [|discriminate].
    cbn [bind] in H.
    destruct (index (fake_node_to c L) ns) as [j|] eqn:Ej; [|discriminate].
    cbn [bind] in H.
    destruct (lookup c sv) as [w|]; [|discriminate]. cbn [bind] in H.
    apply (IH _ _ HL H). apply Forall_app. split; [exact Hacc|].
    constructor; [|constructor].
    exists (fake_node_from c L v), (fake_node_to c L). cbn [source target].
    split; [now apply index_nth_error|]. split; [now apply index_nth_error|].
    simpl. split; [lia|now left].
Qed.

Lemma for_each_real_link_ok ns sv last L elim tr : forall acc ls,
  1 <= L -> In last elim ->
  for_each (real_link ns sv last L) tr acc = Ok ls ->
  Forall (link_ok ns elim) acc -> Forall (link_ok ns elim) ls.
Proof.
  induction tr as [|[c n] tr IH]; simpl; intros acc ls HL Hlast H Hacc.
  - now injection H as <-.
  - destruct (if L <? 3 then lookup last sv else Ok 0) as [v|]; [|discriminate].
    cbn [bind] in H.
    destruct (index (fake_node_from last L v) ns) as [i|] eqn:Ei; [|discriminate].
    cbn [bind] in H.
    destruct (index (fake_node_to c L) ns) as [j|] eqn:Ej; [|discriminate].
    cbn [bind] in H.
    apply (IH _ _ HL Hlast H). apply Forall_app. split; [exact Hacc|].
    constructor; [|constructor].
    exists (fake_node_from last L v), (fake_node_to c L). cbn [source target].
    split; [now apply index_nth_error|]. split; [now apply index_nth_error|].
    simpl. split; [lia|now right].
Qed.

(** X10: at every round boundary each link of the flow graph has two indices
    inside the node list, goes from a node to a node of the next layer, and
    joins two nodes of one candidate or starts at a node of an eliminated
    candidate. *)
Theorem links_resolve bs cs e l :
  boundary (Election_init bs cs) e l ->
  Forall (link_ok (nodes e) (eliminated e)) (links e).
Proof.
  intros Hb. induction Hb as [e1 H|e l r e' l' Hb IH Hg H].
  - destruct (start_inversion _ _ _ H) as [d [_ ->]]. constructor.
  - pose proof (boundary_Inv _ _ _ _ Hb) as HI.
    destruct (round_eliminates _ _ _ _ _ HI H) as [last' [Hl' [_ [_ [He _]]]]].
    destruct (round_inversion _ _ _ _ _ H) as [last [held [Hl [_ Hcase]]]].
    assert (last' = last) by congruence. subst last'. cbv zeta in Hcase.
    assert (Hincl : incl (eliminated e) (eliminated e')).
    { rewrite He. intros c Hc. apply in_or_app. now left. }
    assert (Hlast : In last (eliminated e')).
    { rewrite He. apply in_or_app. right. now left. }
    destruct Hcase as [[_ [_ E]]|[_ [-> [d [tr [ls1 [ls2 [_ [H1 [H2 E]]]]]]]]]].
    + rewrite E in *. cbn [with_round nodes links eliminated] in *.
      eapply Forall_impl; [|exact IH]. intros lk Hlk.
      rewrite <- (app_nil_r (nodes e)). eapply link_ok_mono; eauto.
    + rewrite E in *. cbn [with_round nodes links eliminated] in *.
      apply Forall_app. split.
      * eapply Forall_impl; [|exact IH]. intros lk Hlk.
        eapply link_ok_mono; eauto.
      * eapply for_each_real_link_ok; [| |exact H2|]; [lia|exact Hlast|].
        eapply for_each_self_link_ok; [|exact H1|]; [lia|constructor].
Qed.

Lemma links_resolve_witness :
  Forall (link_ok (nodes exhausting_round2) (eliminated exhausting_round2))
         (links exhausting_round2).
Proof.
  apply (links_resolve exhausting_ballots exhausting_candidates
           exhausting_round2 3).
  apply (boundary_round exhausting exhausting_round1 2 0).
  - apply (boundary_round exhausting exhausting_start 1 0).
    + apply boundary_start. reflexivity.
    + reflexivity.
    + reflexivity.
  - reflexivity.
  - reflexivity.
Defined.

(** ** The votes on the links of a round *)

Lemma for_each_self_link_votes ns sv last L ks : forall acc ls,
  ~ In last ks ->
  for_each (self_link ns sv last L) ks acc = Ok ls ->
  map votes ls =
  map votes acc ++
  map (fun c => match Dict.get c sv with Some n => n | None => 0 end) ks.
Proof.
  induction ks as [|c ks IH]; simpl; intros acc ls Hn H.
  - injection H as <-. now rewrite app_nil_r.
  - unfold self_link at 1 in H.
    destruct (String.eqb_spec c last) as [->|Hc]; [tauto|]. cbn [negb] in H.
    destruct (if L <? 3 then lookup c sv else Ok 0) as [v|]; [|discriminate].
    cbn [bind] in H.
    destruct (index (fake_node_from c L v) ns) as [i|]; [|discriminate].
    cbn [bind] in H.
    destruct (index (fake_node_to c L) ns) as [j|]; [|discriminate].
    cbn [bind] in H. unfold lookup in H.
    destruct (Dict.get c sv) as [w|]; [|discriminate]. cbn [bind] in H.
    apply IH in H; [|tauto]. rewrite H, map_app, <- app_assoc. reflexivity.
Qed.

Lemma for_each_real_link_votes ns sv last L tr : forall acc ls,
  for_each (real_link ns sv last L) tr acc = Ok ls ->
  map votes ls = map votes acc ++ map snd tr.
Proof.
  induction tr as [|[c n] tr IH]; simpl; intros acc ls H.
  - injection H as <-. now rewrite app_nil_r.
  - destruct (if L <? 3 then lookup last sv else Ok 0) as [v|]; [|discriminate].
    cbn [bind] in H.
    destruct (index (fake_node_from last L v) ns) as [i|]; [|discriminate].
    cbn [bind] in H.
    destruct (index (fake_node_to c L) ns) as [j|]; [|discriminate].
    cbn [bind] in H.
    apply IH in H. rewrite H, map_app, <- app_assoc. reflexivity.
Qed.

Lemma sum_set (tr : Dict.t nat) c v :
  list_sum (map snd (Dict.set c v tr)) +
  match Dict.get c tr with Some n => n | None => 0 end =
  list_sum (map snd tr) + v.
Proof.
  induction tr as [|[k n] tr IH]; simpl; [lia|].
  destruct (String.eqb c k); simpl; lia.
Qed.

Lemma transfer_loop_sum elim held : forall (d : Dict.t (list Ballot)) tr d' tr',
  transfer_loop elim held (d, tr) = Ok (d', tr') ->
  list_sum (map snd tr') =
  list_sum (map snd tr) + length (filter (fun b => negb (exhausted elim b)) held).
Proof.
  induction held as [|b held IH]; simpl; intros d tr d' tr' H.
  - injection H as _ <-. lia.
  - unfold exhausted at 1.
    destruct (first_active elim (ranking b)) as [c|] eqn:F.
    + destruct (forallb (is_eliminated elim) (ranking b)) eqn:G.
      { apply first_active_None in G. congruence. }
      destruct (Dict.mem c d); [|discriminate]. cbn [bind] in H.
      apply IH in H. rewrite H. cbn [negb length].
      fold (exhausted elim). 
      destruct (Dict.get c tr) as [n|] eqn:Gc.
      * pose proof (sum_set tr c (n + 1)) as Hs. rewrite Gc in Hs. lia.
      * pose proof (sum_set tr c 1) as Hs. rewrite Gc in Hs. lia.
    + apply first_active_None in F. rewrite F. cbn [negb bind] in *.
      fold (exhausted elim). now apply IH in H.
Qed.

Lemma filter_negb_length (A : Type) (p : A -> bool) (l : list A) :
  length (filter p l) + length (filter (fun x => negb (p x)) l) = length l.
Proof.
  induction l as [|x l IH]; simpl; auto. destruct (p x); simpl; lia.
Qed.

Lemma assigned_keys (d : Dict.t (list Ballot)) :
  NoDup (Dict.keys d) -> assigned d = list_sum (map (tally d) (Dict.keys d)).
Proof.
  intros Hnd. unfold assigned, Dict.keys. rewrite map_map. f_equal.
  apply map_ext_in. intros [k v] Hin. unfold tally. simpl.
  now rewrite (In_get _ _ _ _ Hnd Hin).
Qed.

Lemma assigned_del (d : Dict.t (list Ballot)) k v :
  Dict.get k d = Some v -> assigned d = length v + assigned (Dict.del k d).
Proof.
  unfold assigned. induction d as [|[k' v'] d IH]; simpl; [discriminate|].
  destruct (String.eqb k k').
  - intros [= ->]. reflexivity.
  - intros H. simpl. rewrite (IH H). lia.
Qed.

Lemma transfer_round_assigned e last held d tr :
  NoDup (Dict.keys (candidates e)) ->
  Dict.get last (candidates e) = Some held ->
  transfer_loop (set_add string_dec last (eliminated e)) held (candidates e, []) =
    Ok (d, tr) ->
  assigned (candidates e) =
    length held +
    list_sum (map (tally (candidates e)) (Dict.keys (Dict.del last d))) /\
  assigned (Dict.del last d) +
  length (filter (exhausted (set_add string_dec last (eliminated e))) held) =
    assigned (candidates e).
Proof.
  intros Hnd Hg Ht.
  set (elim := set_add string_dec last (eliminated e)) in *.
  destruct (transfer_loop_spec _ _ _ _ _ _ Ht) as [Hk [Hget [Hhome _]]].
  assert (Hnd' : NoDup (Dict.keys (Dict.del last d))).
  { apply NoDup_keys_del. now rewrite Hk. }
  assert (Hnl : ~ In last (Dict.keys (Dict.del last d))).
  { apply keys_del_notin. now rewrite Hk. }
  assert (Hsum : list_sum (map (fun c => length (filter (goes_to elim c) held))
                               (Dict.keys (Dict.del last d))) +
                 length (filter (exhausted elim) held) = length held).
  { apply goes_to_count; [exact Hnd'|]. intros b c Hbh Hc.
    apply keys_del_other.
    - intros ->. apply first_active_not_eliminated in Hc. destruct Hc as [_ Hc].
      apply Hc. unfold elim. apply set_add_iff. auto.
    - rewrite Hk. eapply Hhome; eauto. }
  assert (Hasg : assigned (Dict.del last d) =
                 list_sum (map (tally (candidates e)) (Dict.keys (Dict.del last d))) +
                 list_sum (map (fun c => length (filter (goes_to elim c) held))
                               (Dict.keys (Dict.del last d)))).
  { rewrite (assigned_keys _ Hnd'), <- list_sum_map_add. f_equal.
    apply map_ext_in. intros c Hc.
    assert (Hcl : c <> last) by (intros ->; contradiction).
    unfold tally. rewrite get_del_other by exact Hcl. rewrite Hget.
    apply keys_del_incl in Hc. rewrite Hk in Hc.
    destruct (In_keys_get _ _ _ Hc) as [lc Hlc]. rewrite Hlc. simpl.
    apply length_app. }
  assert (Hold : assigned (candidates e) =
                 length held +
                 list_sum (map (tally (candidates e)) (Dict.keys (Dict.del last d)))).
  { rewrite (assigned_del _ _ _ Hg). f_equal.
    assert (Hnd0 : NoDup (Dict.keys (Dict.del last (candidates e))))
      by now apply NoDup_keys_del.
    rewrite (assigned_keys _ Hnd0).
    assert (Hkk : Dict.keys (Dict.del last (candidates e)) =
                  Dict.keys (Dict.del last d)).
    { clear - Hk. revert d Hk. induction (candidates e) as [|[k v] d0 IH];
        intros [|[k' v'] d] Hk; simpl in *; try discriminate; auto.
      injection Hk as <- Hk. destruct (String.eqb last k'); simpl; [auto|].
      f_equal. now apply IH. }
    rewrite Hkk. f_equal. apply map_ext_in. intros c Hc.
    assert (Hcl : c <> last) by (intros ->; contradiction).
    unfold tally. now rewrite get_del_other. }
  split; [exact Hold|]. lia.
Qed.

(** X11: the links that a round with transfers appends carry, in total, as
    many votes as there are ballots assigned after the round: the ballots
    assigned before it less those of the eliminated candidate that are now
    exhausted. *)
Theorem round_links_votes bs cs e l r e' last held :
  boundary (Election_init bs cs) e l ->
  loop_guard e = true ->
  round e l r = Ok (e', l + 1) ->
  resolve_tie_random e r = Ok last ->
  Dict.get last (candidates e) = Some held ->
  exists new,
    links e' = links e ++ new /\
    list_sum (map votes new) = assigned (candidates e') /\
    assigned (candidates e') + length (filter (exhausted (eliminated e')) held) =
    assigned (candidates e).
Proof.
  intros Hb Hguard Hr Hl Hg.
  pose proof (boundary_Inv _ _ _ _ Hb) as HI.
  destruct (round_inversion _ _ _ _ _ Hr) as [last' [held' [Hl' [Hg' Hcase]]]].
  assert (last' = last) by congruence. subst last'.
  assert (held' = held) by congruence. subst held'. cbv zeta in Hcase.
  destruct Hcase as [[_ [E _]]|[_ [_ [d [tr [ls1 [ls2 [Ht [H1 [H2 E]]]]]]]]]];
    [lia|].
  subst e'. cbn [with_round links candidates eliminated] in *.
  destruct (transfer_round_assigned e last held d tr (inv_keys _ HI) Hg Ht)
    as [Hold Hnew].
  set (elim := set_add string_dec last (eliminated e)) in *.
  destruct (transfer_loop_spec _ _ _ _ _ _ Ht) as [Hk _].
  assert (Hnl : ~ In last (Dict.keys (Dict.del last d))).
  { apply keys_del_notin. rewrite Hk. apply (inv_keys _ HI). }
  exists ls2. split; [reflexivity|].
  pose proof (for_each_self_link_votes _ _ _ _ _ _ _ Hnl H1) as V1.
  pose proof (for_each_real_link_votes _ _ _ _ _ _ _ H2) as V2.
  pose proof (transfer_loop_sum _ _ _ _ _ _ Ht) as S2. simpl in S2.
  pose proof (filter_negb_length _ (exhausted elim) held) as Hp.
  assert (V3 : list_sum (map votes ls2) =
               list_sum (map (tally (candidates e)) (Dict.keys (Dict.del last d))) +
               list_sum (map snd tr)).
  { rewrite V2, V1. simpl. rewrite list_sum_app. f_equal. f_equal.
    apply map_ext. intros c. unfold tally. rewrite get_starting_values.
    now destruct (Dict.get c (candidates e)). }
  split; lia.
Qed.

Lemma round_links_votes_witness :
  exists new,
    links exhausting_round1 = links exhausting_start ++ new /\
    list_sum (map votes new) = assigned (candidates exhausting_round1) /\
    assigned (candidates exhausting_round1) +
    length (filter (exhausted (eliminated exhausting_round1)) [bal ["X"]]) =
    assigned (candidates exhausting_start).
Proof.
  apply (round_links_votes exhausting_ballots exhausting_candidates
           exhausting_start 1 0 exhausting_round1 "X" [bal ["X"]]).
  - apply boundary_start. reflexivity.
  - reflexivity.
  - reflexivity.
  - reflexivity.
  - reflexivity.
Defined.

(** ** [droop] after a run *)

(** X12: after a run that returned, [droop] raises [ZeroDivisionError] for 0
    seats and answers for any other number of seats, and for one seat the
    answer is always [False]: the winner never holds more ballots than the
    election has.  Before a run there is no winner and [droop] raises
    [KeyError]. *)
Theorem droop_after_run bs cs rng k e' :
  single_winner_rcv (Election_init bs cs) rng = Some (k, Ok e') ->
  droop e' 1 = Ok false /\
  droop e' 0 = Raise ZeroDivisionError /\
  (forall seats, seats <> 0%Z -> exists a, droop e' seats = Ok a) /\
  (forall seats, droop (Election_init bs cs) seats = Raise KeyError).
Proof.
  intros Hrun.
  destruct (proj1 (run_outcome bs cs rng) k e' Hrun)
    as [w [lw [Hw [Hc [_ [_ [_ [_ [Hcons _]]]]]]]]].
  destruct (single_winner_rcv_inversion _ _ _ _ Hrun)
    as [e2 [l2 [w2 [Hb2 [_ [_ He']]]]]].
  destruct (boundary_facts _ _ _ _ Hb2) as [_ [_ Hbs]].
  assert (Hbs' : ballots e' = bs) by (rewrite He'; exact Hbs).
  unfold droop. rewrite Hw, Hc. cbn [Dict.get]. rewrite String.eqb_refl, Hbs'.
  split; [|split; [reflexivity|split; [|reflexivity]]].
  - cbn [Z.eqb]. rewrite Z.div_1_r. f_equal. apply Z.ltb_ge. lia.
  - intros seats Hs. destruct (Z.eqb_spec seats 0); [contradiction|]. eauto.
Qed.

Lemma droop_after_run_witness :
  droop exhausting_final 1 = Ok false /\
  droop exhausting_final 0 = Raise ZeroDivisionError.
Proof.
  destruct (droop_after_run exhausting_ballots exhausting_candidates [0; 0] 2
              exhausting_final eq_refl) as [H1 [H2 _]].
  split; [exact H1|exact H2].
Defined.

(** ** [__repr__] at the round boundaries *)

(** X13: at every round boundary [__repr__] reports the number of distinct
    registered candidates, the number of ballots, the number of candidates
    still in the active mapping and, on its last line, the number of ballots
    that are not exhausted.  On a fresh election, before [assign_ballots], it
    reports 0 candidates whatever was registered. *)
Theorem repr_status_boundary bs cs e l :
  boundary (Election_init bs cs) e l ->
  repr_status e =
    {| st_candidates := Z.of_nat (length (first_occurrences cs));
       st_ballots := Z.of_nat (length bs);
       st_remaining := Z.of_nat (length (candidates e));
       st_exhausted := Z.of_nat (length bs) - Z.of_nat (exhausted_count e) |} /\
  repr_status (Election_init bs cs) =
    {| st_candidates := 0; st_ballots := Z.of_nat (length bs);
       st_remaining := 0; st_exhausted := 0 |}.
Proof.
  intros Hb. destruct (boundary_facts _ _ _ _ Hb) as [HI [Hn Hbs]].
  pose proof (inv_count _ HI) as Hc. pose proof (Inv_conservation e HI) as Hcons.
  destruct (init_registers_facts bs cs) as [Hk _]. cbv zeta in Hk.
  assert (Hlen : length (candidates (Election_init bs cs)) =
                 length (first_occurrences cs)).
  { rewrite <- Hk. unfold Dict.keys. now rewrite length_map. }
  split.
  - unfold repr_status. rewrite Hbs in *. f_equal; lia.
  - unfold repr_status. cbn [number_of_candidates eliminated ballots candidates
                             Election_init length].
    destruct (init_candidates_spec cs [] (NoDup_nil _) (Forall_nil _))
      as [_ [Hnil _]]. cbv zeta in Hnil.
    assert (Hz : assigned (fold_left (fun d c => Dict.set c [] d) cs []) = 0).
    { unfold assigned. apply list_sum_map_zero. intros kv Hkv.
      rewrite Forall_forall in Hnil. now rewrite (Hnil kv Hkv). }
    rewrite Hz. f_equal; lia.
Qed.

Lemma repr_status_boundary_witness :
  repr_status exhausting_round1 =
    {| st_candidates := 3; st_ballots := 5; st_remaining := 2; st_exhausted := 4 |}.
Proof.
  refine (eq_trans (proj1 (repr_status_boundary exhausting_ballots
                             exhausting_candidates exhausting_round1 2 _)) _).
  - apply (boundary_round exhausting exhausting_start 1 0).
    + apply boundary_start. reflexivity.
    + reflexivity.
    + reflexivity.
  - reflexivity.
Defined.

(** ** [riffle] and [add_candidates] *)

Section ShuffleFacts.
Variable A : Type.
Implicit Types (x : list A) (a b : A).

Lemma nth_error_firstn_skipn x : forall i a,
  nth_error x i = Some a -> x = firstn i x ++ a :: skipn (S i) x.
Proof.
  induction x as [|y x IH]; intros [|i] a H; simpl in *; try discriminate.
  - now injection H as ->.
  - f_equal. now apply IH.
Qed.

Lemma nth_error_replace x : forall j i a b,
  nth_error x j = Some b ->
  nth_error (firstn j x ++ a :: skipn (S j) x) i =
  if i =? j then Some a else nth_error x i.
Proof.
  induction x as [|y x IH]; intros [|j] [|i] a b H; simpl in *;
    try discriminate; auto.
  apply (IH j i a b H).
Qed.

Lemma Permutation_replace x i a b :
  nth_error x i = Some a ->
  Permutation (b :: x) (a :: firstn i x ++ b :: skipn (S i) x).
Proof.
  intros H. rewrite (nth_error_firstn_skipn x i a H) at 1.
  rewrite <- !Permutation_middle. apply perm_swap.
Qed.

Lemma swap_Permutation i j x : Permutation x (swap i j x).
Proof.
  unfold swap. destruct (nth_error x i) as [a|] eqn:Hi; [|reflexivity].
  destruct (nth_error x j) as [b|] eqn:Hj; [|reflexivity].
  set (y := firstn j x ++ a :: skipn (S j) x).
  assert (Hy : nth_error y i = Some a).
  { unfold y. rewrite (nth_error_replace x j i a b Hj).
    destruct (Nat.eqb_spec i j); [reflexivity|exact Hi]. }
  apply (Permutation_cons_inv (a := a)).
  rewrite (Permutation_replace x j b a Hj). fold y.
  apply (Permutation_replace y i a b Hy).
Qed.

Lemma shuffle_from_Permutation i : forall x rng,
  Permutation x (fst (shuffle_from i x rng)).
Proof.
  induction i as [|i IH]; intros x rng; simpl; [reflexivity|].
  rewrite <- IH. apply swap_Permutation.
Qed.

Lemma shuffle_times_Permutation k : forall x rng,
  Permutation x (fst (shuffle_times k x rng)).
Proof.
  induction k as [|k IH]; intros x rng; simpl; [reflexivity|].
  destruct (shuffle x rng) as [x' rng'] eqn:E. rewrite <- IH.
  change x' with (fst (x', rng')). rewrite <- E. apply shuffle_from_Permutation.
Qed.

Lemma riffle_returns (item : list A) (rng : list nat) :
  item <> [] ->
  exists x rng' k,
    riffle item rng = Ok (x, rng', k) /\
    Permutation item x /\ length x = length item.
Proof.
  intros Hne. unfold riffle. destruct (length item) eqn:El.
  { destruct item; [congruence|discriminate]. }
  destruct (shuffle_times _ item (tl rng)) as [x rng'] eqn:E.
  exists x, rng'. eexists. split; [reflexivity|].
  assert (Hp : Permutation item x).
  { change x with (fst (x, rng')). rewrite <- E. apply shuffle_times_Permutation. }
  split; [exact Hp|]. rewrite <- El. symmetry. now apply Permutation_length.
Qed.

(** X14: on a non-empty sequence [riffle] returns, and the sequence it leaves
    is a rearrangement of the one it was given: the same elements, each as
    many times as before. *)
Theorem riffle_permutes (item : list A) (rng : list nat) :
  item <> [] ->
  exists x rng' k,
    riffle item rng = Ok (x, rng', k) /\
    Permutation item x /\ length x = length item.
Proof. exact (riffle_returns item rng). Qed.
End ShuffleFacts.

Lemma riffle_permutes_witness :
  exists x rng' k,
    riffle ["A"; "B"; "C"] [1; 0; 2; 1; 1] = Ok (x, rng', k) /\
    Permutation ["A"; "B"; "C"] x /\ length x = 3.
Proof.
  apply (riffle_permutes string ["A"; "B"; "C"] [1; 0; 2; 1; 1]). discriminate.
Defined.

Lemma get_set (V : Type) (d : Dict.t V) k v c :
  Dict.get c (Dict.set k v d) = if String.eqb c k then Some v else Dict.get c d.
Proof.
  induction d as [|[k' v'] d IH]; simpl.
  - reflexivity.
  - destruct (String.eqb_spec k k') as [->|Hk]; simpl.
    + now destruct (String.eqb c k').
    + destruct (String.eqb_spec c k') as [->|Hc].
      * destruct (String.eqb_spec k' k); [congruence|reflexivity].
      * exact IH.
Qed.

Lemma register_all_spec cs : forall acc : Dict.t (list Ballot),
  let d := fold_left (fun d c => Dict.set c [] d) cs acc in
  (forall c, Dict.get c d = if mem_str c cs then Some [] else Dict.get c acc) /\
  (NoDup (Dict.keys acc) -> NoDup (Dict.keys d)).
Proof.
  induction cs as [|k cs IH]; intros acc; cbn zeta; simpl.
  - split; auto.
  - destruct (IH (Dict.set k [] acc)) as [H1 H2]. cbv zeta in H1, H2. split.
    + intros c. rewrite H1, get_set.
      destruct (mem_str c cs); [now rewrite orb_true_r|]. rewrite orb_false_r.
      reflexivity.
    + intros Hnd. apply H2. now apply NoDup_keys_set.
Qed.

(** X15: [add_candidates] with no candidate raises [ValueError].  With some,
    it returns; afterwards every given candidate is registered with an empty
    list of ballots, also one that was registered before and held ballots,
    the other candidates keep their lists, and the keys stay distinct. *)
Theorem add_candidates_registers uniq rng e :
  add_candidates [] rng e = Raise ValueError /\
  (uniq <> [] ->
   exists e' rng',
     add_candidates uniq rng e = Ok (e', rng') /\
     (forall c, In c uniq -> Dict.get c (candidates e') = Some []) /\
     (forall c, ~ In c uniq ->
        Dict.get c (candidates e') = Dict.get c (candidates e)) /\
     (NoDup (Dict.keys (candidates e)) -> NoDup (Dict.keys (candidates e'))) /\
     ballots e' = ballots e /\ eliminated e' = eliminated e).
Proof.
  split; [reflexivity|]. intros Hne.
  destruct (riffle_returns _ uniq rng Hne) as [x [rng' [k [Hr [Hp _]]]]].
  unfold add_candidates. rewrite Hr. cbn [bind fst snd].
  eexists. exists rng'. split; [reflexivity|].
  cbn [candidates ballots eliminated].
  destruct (register_all_spec x (candidates e)) as [H1 H2]. cbv zeta in H1, H2.
  split; [|split; [|split; [exact H2|split; reflexivity]]].
  - intros c Hc. rewrite H1.
    assert (Hm : mem_str c x = true).
    { apply mem_str_iff. now apply (Permutation_in c Hp). }
    now rewrite Hm.
  - intros c Hc. rewrite H1.
    destruct (mem_str c x) eqn:Hm; [|reflexivity].
    apply mem_str_iff in Hm. exfalso. apply Hc.
    now apply (Permutation_in c (Permutation_sym Hp)).
Qed.

Lemma add_candidates_registers_witness :
  exists e' rng',
    add_candidates ["B"; "C"] [0; 1; 0] exhausting_round1 = Ok (e', rng') /\
    (forall c, In c ["B"; "C"] -> Dict.get c (candidates e') = Some []) /\
    (forall c, ~ In c ["B"; "C"] ->
       Dict.get c (candidates e') = Dict.get c (candidates exhausting_round1)) /\
    (NoDup (Dict.keys (candidates exhausting_round1)) ->
     NoDup (Dict.keys (candidates e'))) /\
    ballots e' = ballots exhausting_round1 /\
    eliminated e' = eliminated exhausting_round1.
Proof.
  apply (proj2 (add_candidates_registers ["B"; "C"] [0; 1; 0] exhausting_round1)).
  discriminate.
Defined.

(** ** [resolve_tie_random] without candidates *)

(** X16: [resolve_tie_random] raises [IndexError] when the active mapping is
    empty, and in no other case: with a candidate in the mapping it returns
    one whose list is not longer than that of any other. *)
Theorem resolve_tie_random_edge e r :
  (candidates e = [] -> resolve_tie_random e r = Raise IndexError) /\
  (candidates e <> [] ->
   exists c, resolve_tie_random e r = Ok c /\
             In c (Dict.keys (candidates e)) /\
             forall c', In c' (Dict.keys (candidates e)) ->
                        tally (candidates e) c <= tally (candidates e) c').
Proof.
  split.
  - intros E. unfold resolve_tie_random, tied_candidates, sort_candidates.
    rewrite E. reflexivity.
  - intros Hne. destruct (resolve_tie_random_total e r Hne) as [c Hc].
    exists c. split; [exact Hc|]. apply resolve_tie_random_spec in Hc.
    destruct Hc as [Hin Ht]. split; [exact Hin|].
    intros c' Hc'. rewrite Ht. now apply min_tally_le.
Qed.

Lemma resolve_tie_random_edge_witness :
  resolve_tie_random (Election_init [] []) 0 = Raise IndexError /\
  exists c, resolve_tie_random exhausting_start 0 = Ok c /\
            In c (Dict.keys (candidates exhausting_start)) /\
            forall c', In c' (Dict.keys (candidates exhausting_start)) ->
                       tally (candidates exhausting_start) c <=
                       tally (candidates exhausting_start) c'.
Proof.
  split.
  - apply (proj1 (resolve_tie_random_edge (Election_init [] []) 0)). reflexivity.
  - apply (proj2 (resolve_tie_random_edge exhausting_start 0)). discriminate.
Defined.

(** ** Exhausted ballots *)

Lemma exhausted_add elim last b :
  exhausted elim b = true ->
  exhausted (set_add string_dec last elim) b = true.
Proof.
  unfold exhausted. rewrite !forallb_forall. intros H c Hc.
  rewrite is_eliminated_add, (H c Hc). reflexivity.
Qed.

(** X17: an exhausted ballot stays exhausted, and a round raises the number
    of exhausted ballots by exactly the number of ballots of the eliminated
    candidate whose whole ranking is now eliminated; a round that eliminates
    a candidate without ballots exhausts none. *)
Theorem exhausted_count_grows bs cs e l r e' l' last held :
  boundary (Election_init bs cs) e l ->
  loop_guard e = true ->
  round e l r = Ok (e', l') ->
  resolve_tie_random e r = Ok last ->
  Dict.get last (candidates e) = Some held ->
  exhausted_count e' =
    exhausted_count e + length (filter (exhausted (eliminated e')) held) /\
  (forall b, exhausted (eliminated e) b = true ->
             exhausted (eliminated e') b = true).
Proof.
  intros Hb Hguard Hr Hl Hg.
  pose proof (boundary_Inv _ _ _ _ Hb) as HI.
  pose proof (round_Inv _ _ _ _ _ HI Hr) as HI'.
  pose proof (Inv_conservation e HI) as C. pose proof (Inv_conservation e' HI') as C'.
  destruct (round_inversion _ _ _ _ _ Hr) as [last' [held' [Hl' [Hg' Hcase]]]].
  assert (last' = last) by congruence. subst last'.
  assert (held' = held) by congruence. subst held'. cbv zeta in Hcase.
  assert (Hel : eliminated e' = set_add string_dec last (eliminated e) /\
                ballots e' = ballots e /\
                assigned (candidates e') +
                length (filter (exhausted (eliminated e')) held) =
                assigned (candidates e)).
  { destruct Hcase as [[-> [_ ->]]|[_ [_ [d [tr [ls1 [ls2 [Ht [_ [_ ->]]]]]]]]]];
      cbn [with_round eliminated ballots candidates].
    - split; [reflexivity|]. split; [reflexivity|].
      rewrite (assigned_del _ _ _ Hg). simpl. lia.
    - split; [reflexivity|]. split; [reflexivity|].
      apply (transfer_round_assigned e last held d tr (inv_keys _ HI) Hg Ht). }
  destruct Hel as [He [Hbs Ha]]. split.
  - rewrite Hbs in C'. lia.
  - intros b Hex. rewrite He. now apply exhausted_add.
Qed.

Lemma exhausted_count_grows_witness :
  exhausted_count exhausting_round1 =
    exhausted_count exhausting_start +
    length (filter (exhausted (eliminated exhausting_round1)) [bal ["X"]]) /\
  exhausted_count exhausting_round1 = 1.
Proof.
  split; [|reflexivity].
  apply (exhausted_count_grows exhausting_ballots exhausting_candidates
           exhausting_start 1 0 exhausting_round1 2 "X" [bal ["X"]]).
  - apply boundary_start. reflexivity.
  - reflexivity.
  - reflexivity.
  - reflexivity.
  - reflexivity.
Defined.
